(** * cap: a configurable HTTP stub server -- model and properties

    A shallow embedding of the parts of the program that decide its
    observable behaviour: the configuration model and its validation
    ([model/config_file.py]), request matching and response rendering
    ([core/process_middleware.py], [hooks/responses.py]), the request
    log pipeline ([core/logging/requests.py]), the configuration file
    poller ([core/config_loader.py]) and the supervisor loop
    ([core/server_processing.py], [main.py]).

    The first half of the file holds the definitions, module by module
    in the order of the sources; the second half holds the properties. *)

From Stdlib Require Import ZArith NArith Ascii String List Lia Bool DecimalString
  DecimalNat.
From Stdlib.Strings Require Import Byte.
From stdpp Require Import base option list gmap sets strings.

Open Scope string_scope.
Open Scope list_scope.
Open Scope Z_scope.

(* ================================================================== *)
(** * Part I -- definitions                                            *)
(* ================================================================== *)

(** ** Python values the sources compute with *)

Module Py.

(** Exceptions raised by the sources, by their Python class. *)
Inductive exn : Type :=
| ValueError (msg : string)
| IOError (msg : string)
| TypeError
| AttributeError
| KeyError (key : string)
| UnicodeError
| LookupError
| AssertionError
| HTTPException (status : Z) (detail : string).

(** A computation that returns or raises. *)
Inductive result (A : Type) : Type :=
| Ok (a : A)
| Raise (e : exn).
Arguments Ok {A} a.
Arguments Raise {A} e.

#[export] Instance result_ret : MRet result := fun A a => Ok a.
#[export] Instance result_bind : MBind result := fun A B f m =>
  match m with Ok a => f a | Raise e => Raise e end.

#[export] Instance exn_eq_dec : EqDecision exn.
Proof. solve_decision. Defined.

#[export] Instance result_eq_dec {A} `{EqDecision A} : EqDecision (result A).
Proof. solve_decision. Defined.

Definition is_ok {A} (r : result A) : bool :=
  match r with Ok _ => true | Raise _ => false end.

(** [bytes] objects. *)
Definition bytes : Type := list byte.

#[export] Instance byte_eq_dec : EqDecision byte := Byte.byte_eq_dec.

(** Text whose characters matter only through comparison, lookup and
    the regular expression of [get_base_url_pattern] (identifiers,
    paths, header names, encoding names) is a [string], read as a
    sequence of Latin-1 code points.  Body text, whose encoding is the
    subject of properties, is a list of Unicode code points. *)
Definition text : Type := list N.

Definition byte_of_N (n : N) : byte :=
  match Byte.of_N n with Some b => b | None => x00 end.

(** [str.encode("utf-8")]: one to four bytes per code point; a lone
    surrogate or a value past U+10FFFF has no encoding
    (UnicodeEncodeError). *)
Definition utf8_encode_char (c : N) : option bytes :=
  if (c <? 128)%N then Some [byte_of_N c]
  else if (c <? 2048)%N then
    Some [byte_of_N (192 + c / 64); byte_of_N (128 + c mod 64)]
  else if (c <? 65536)%N then
    if ((55296 <=? c) && (c <=? 57343))%N then None
    else Some [byte_of_N (224 + c / 4096);
               byte_of_N (128 + (c / 64) mod 64);
               byte_of_N (128 + c mod 64)]
  else if (c <=? 1114111)%N then
    Some [byte_of_N (240 + c / 262144);
          byte_of_N (128 + (c / 4096) mod 64);
          byte_of_N (128 + (c / 64) mod 64);
          byte_of_N (128 + c mod 64)]
  else None.

Fixpoint utf8_encode (s : text) : option bytes :=
  match s with
  | [] => Some []
  | c :: s' =>
      match utf8_encode_char c, utf8_encode s' with
      | Some b, Some bs => Some (b ++ bs)
      | _, _ => None
      end
  end.

(** A continuation byte [10xxxxxx], as its six payload bits. *)
Definition utf8_cont (b : byte) : option N :=
  let n := Byte.to_N b in
  if ((128 <=? n) && (n <? 192))%N then Some (n - 128)%N else None.

(** [bytes.decode("utf-8")], strict: overlong forms, surrogates,
    values past U+10FFFF and truncated sequences are errors.  The
    first argument bounds the recursion by the number of bytes. *)
Fixpoint utf8_decode_fuel (fuel : nat) (bs : bytes) : option text :=
  match fuel, bs with
  | _, [] => Some []
  | O, _ :: _ => None
  | S fuel', b0 :: r0 =>
      let n0 := Byte.to_N b0 in
      if (n0 <? 128)%N then cons n0 <$> utf8_decode_fuel fuel' r0
      else if (n0 <? 192)%N then None
      else if (n0 <? 224)%N then
        match r0 with
        | b1 :: r1 =>
            match utf8_cont b1 with
            | Some c1 =>
                let c := ((n0 - 192) * 64 + c1)%N in
                if (c <? 128)%N then None
                else cons c <$> utf8_decode_fuel fuel' r1
            | None => None
            end
        | _ => None
        end
      else if (n0 <? 240)%N then
        match r0 with
        | b1 :: b2 :: r2 =>
            match utf8_cont b1, utf8_cont b2 with
            | Some c1, Some c2 =>
                let c := ((n0 - 224) * 4096 + c1 * 64 + c2)%N in
                if (c <? 2048)%N then None
                else if ((55296 <=? c) && (c <=? 57343))%N then None
                else cons c <$> utf8_decode_fuel fuel' r2
            | _, _ => None
            end
        | _ => None
        end
      else if (n0 <? 248)%N then
        match r0 with
        | b1 :: b2 :: b3 :: r3 =>
            match utf8_cont b1, utf8_cont b2, utf8_cont b3 with
            | Some c1, Some c2, Some c3 =>
                let c := ((n0 - 240) * 262144 + c1 * 4096 + c2 * 64 + c3)%N in
                if (c <? 65536)%N then None
                else if (1114111 <? c)%N then None
                else cons c <$> utf8_decode_fuel fuel' r3
            | _, _, _ => None
            end
        | _ => None
        end
      else None
  end.

Definition utf8_decode (bs : bytes) : option text :=
  utf8_decode_fuel (length bs) bs.

(** The other codecs Python registers are a parameter of the model:
    [codec_encode name s] and [codec_decode name b] return [None] where
    Python raises (unknown name, unencodable text, malformed bytes). *)
Record codecs : Type := {
  codec_encode : string -> text -> option bytes;
  codec_decode : string -> bytes -> option text;
}.

(** [s.encode(encoding)] *)
Definition str_encode (cs : codecs) (encoding : string) (s : text) : option bytes :=
  if decide (encoding = "utf-8") then utf8_encode s else codec_encode cs encoding s.

(** [b.decode(encoding)] *)
Definition bytes_decode (cs : codecs) (encoding : string) (b : bytes) : option text :=
  if decide (encoding = "utf-8") then utf8_decode b else codec_decode cs encoding b.

(** The code points of a Latin-1 string. *)
Fixpoint text_of_string (s : string) : text :=
  match s with
  | EmptyString => []
  | String c s' => N_of_ascii c :: text_of_string s'
  end.

Definition hex_digit (n : N) : ascii :=
  if (n <? 10)%N then ascii_of_N (48 + n) else ascii_of_N (87 + n).

(** [bytes.hex()]: two lower-case hexadecimal digits per byte. *)
Fixpoint bytes_hex (b : bytes) : string :=
  match b with
  | [] => ""
  | x :: b' =>
      String (hex_digit (Byte.to_N x / 16))
        (String (hex_digit (Byte.to_N x mod 16)) (bytes_hex b'))
  end.

(** [str(n)] for a natural number. *)
Definition str_of_nat (n : nat) : string :=
  NilZero.string_of_uint (Nat.to_uint n).

(** [c.lower()] on the Latin-1 range: A-Z and the accented capitals
    U+00C0..U+00DE (the multiplication sign U+00D7 apart) move down by
    32. *)
Definition lower_char (c : ascii) : ascii :=
  let n := N_of_ascii c in
  if ((65 <=? n) && (n <=? 90))%N then ascii_of_N (n + 32)
  else if ((192 <=? n) && (n <=? 222) && negb (n =? 215))%N then ascii_of_N (n + 32)
  else c.

Fixpoint str_lower (s : string) : string :=
  match s with
  | EmptyString => EmptyString
  | String c s' => String (lower_char c) (str_lower s')
  end.

(** [sub in s] on strings. *)
Fixpoint str_contains (sub s : string) : bool :=
  String.prefix sub s ||
  match s with
  | EmptyString => false
  | String _ s' => str_contains sub s'
  end.

(** [sep.join(parts)] *)
Fixpoint str_join (sep : string) (parts : list string) : string :=
  match parts with
  | [] => ""
  | [p] => p
  | p :: ps => p +:+ sep +:+ str_join sep ps
  end.

(** An insertion-ordered [dict] with string keys: the pairs in
    insertion order, keys distinct. *)
Definition dict (V : Type) : Type := list (string * V).

Fixpoint dict_get {V} (d : dict V) (k : string) : option V :=
  match d with
  | [] => None
  | (k', v) :: d' => if decide (k' = k) then Some v else dict_get d' k
  end.

(** [d[k] = v]: an existing key keeps its place, a new one goes last. *)
Fixpoint dict_set {V} (d : dict V) (k : string) (v : V) : dict V :=
  match d with
  | [] => [(k, v)]
  | (k', v') :: d' =>
      if decide (k' = k) then (k, v) :: d' else (k', v') :: dict_set d' k v
  end.

(** [dict(pairs)] / a loop of [d[k] = v]. *)
Definition dict_of_items {V} (items : list (string * V)) : dict V :=
  fold_left (fun d kv => dict_set d kv.1 kv.2) items [].

(** [str(z)] for an integer. *)
Definition str_of_Z (z : Z) : string :=
  match z with
  | Z0 => "0"
  | Zpos p => str_of_nat (Pos.to_nat p)
  | Zneg p => "-" +:+ str_of_nat (Pos.to_nat p)
  end.

(** [s.encode("latin-1")] on a Latin-1 string. *)
Definition latin1_encode (s : string) : bytes :=
  byte_of_ascii <$> list_ascii_of_string s.

(** The two kinds of object that meet in a comparison of bodies: a
    [bytes] object, and the coroutine object that calling an [async
    def] returns before it is awaited. *)
Inductive pyobj : Type :=
| PyBytes (b : bytes)
| PyCoroutine (yields : bytes).

(** [a != b]: [bytes] compare by content; a coroutine object has no
    [__eq__] of its own and is equal to itself only, so it differs
    from every [bytes] object and from every other coroutine. *)
Definition py_ne (a b : pyobj) : bool :=
  match a, b with
  | PyBytes x, PyBytes y => negb (bool_decide (x = y))
  | _, _ => true
  end.

(** [await c] *)
Definition await (c : pyobj) : bytes :=
  match c with PyBytes b => b | PyCoroutine b => b end.

End Py.
Export Py.

(** ** [constants.py] *)

Module Constants.

Inductive Schema : Type := HTTP | HTTPS.

#[export] Instance Schema_eq_dec : EqDecision Schema.
Proof. solve_decision. Defined.

Definition Schema_value (s : Schema) : string :=
  match s with HTTP => "http" | HTTPS => "https" end.

(** [Schema.get_key_by_value]: the first member equal to [value], or
    [None] when the loop ends without a return. *)
Definition Schema_get_key_by_value (value : string) : option Schema :=
  List.find (fun element => bool_decide (Schema_value element = value)) [HTTP; HTTPS].

Inductive BodyType : Type := TEXT | BYTES | AUTO.

#[export] Instance BodyType_eq_dec : EqDecision BodyType.
Proof. solve_decision. Defined.

Definition BodyType_value (b : BodyType) : string :=
  match b with TEXT => "text" | BYTES => "bytes" | AUTO => "auto" end.

Inductive RequestMethod : Type :=
| GET | POST | PUT | PATCH | DELETE | OPTIONS | HEAD | TRACE | CONNECT.

#[export] Instance RequestMethod_eq_dec : EqDecision RequestMethod.
Proof. solve_decision. Defined.

Definition RequestMethod_value (m : RequestMethod) : string :=
  match m with
  | GET => "GET" | POST => "POST" | PUT => "PUT" | PATCH => "PATCH"
  | DELETE => "DELETE" | OPTIONS => "OPTIONS" | HEAD => "HEAD"
  | TRACE => "TRACE" | CONNECT => "CONNECT"
  end.

End Constants.
Export Constants.

(** ** Python's [re], as far as [get_base_url_pattern] uses it *)

Module Re.

(** The syntax of the patterns: literals, character classes,
    concatenation, the greedy [?] and [*], capturing groups and the
    anchors [^] and [$]. *)
Inductive regex : Type :=
| Eps
| Chr (c : ascii)
| Class (p : ascii -> bool)
| Cat (r1 r2 : regex)
| Opt (r : regex)
| Star (r : regex)
| Group (n : nat) (r : regex)
| Bol
| Eol.

(** [r+] *)
Definition Plus (r : regex) : regex := Cat r (Star r).

(** A literal string. *)
Fixpoint Lit (s : string) : regex :=
  match s with
  | EmptyString => Eps
  | String c s' => Cat (Chr c) (Lit s')
  end.

(** [r{0,n}], greedy. *)
Fixpoint UpTo (n : nat) (r : regex) : regex :=
  match n with
  | O => Eps
  | S n' => Opt (Cat r (UpTo n' r))
  end.

(** [r{1,n+1}], greedy. *)
Definition Repeat1 (n : nat) (r : regex) : regex := Cat r (UpTo n r).

(** The text of each group that took part in the match. *)
Abbreviation groups := (gmap nat string).

Definition newline : string := String (ascii_of_nat 10) EmptyString.

(** What was consumed between the remaining input [s] and the later
    remaining input [s']. *)
Definition consumed (s s' : string) : string :=
  substring 0 (String.length s - String.length s') s.

(** The loop of a greedy [*] over the matcher [m] of its body: one
    more iteration first, the continuation [k] when that fails.  An
    iteration has to consume input, so the length of the input bounds
    their number. *)
Fixpoint star_loop
    (m : string -> groups -> (string -> groups -> option groups) -> option groups)
    (k : string -> groups -> option groups)
    (fuel : nat) (s : string) (g : groups) {struct fuel} : option groups :=
  match fuel with
  | O => k s g
  | S fuel' =>
      match m s g (fun s' g' =>
              if Nat.ltb (String.length s') (String.length s)
              then star_loop m k fuel' s' g' else None) with
      | Some found => Some found
      | None => k s g
      end
  end.

(** A backtracking matcher in continuation-passing style: [rmatch
    input r s g k] matches [r] at the remaining input [s] and hands
    what is left to [k]; when [k] fails the next alternative of [r] is
    tried, longest first. *)
Fixpoint rmatch (input : string) (r : regex) (s : string) (g : groups)
    (k : string -> groups -> option groups) {struct r} : option groups :=
  match r with
  | Eps => k s g
  | Chr c =>
      match s with
      | String c' s' => if decide (c = c') then k s' g else None
      | EmptyString => None
      end
  | Class p =>
      match s with
      | String c' s' => if p c' then k s' g else None
      | EmptyString => None
      end
  | Cat r1 r2 => rmatch input r1 s g (fun s' g' => rmatch input r2 s' g' k)
  | Opt r1 =>
      match rmatch input r1 s g k with
      | Some found => Some found
      | None => k s g
      end
  | Star r1 => star_loop (rmatch input r1) k (String.length s) s g
  | Group n r1 =>
      rmatch input r1 s g (fun s' g' => k s' (<[n := consumed s s']> g'))
  | Bol =>
      if Nat.eqb (String.length s) (String.length input) then k s g else None
  | Eol =>
      if bool_decide (s = "" \/ s = newline) then k s g else None
  end.

(** [pattern.match(input)]: anchored at the start, free at the end. *)
Definition re_match (r : regex) (input : string) : option groups :=
  rmatch input r input ∅ (fun _ g => Some g).

(** [\d] on the Latin-1 range. *)
Definition is_digit (c : ascii) : bool :=
  let n := N_of_ascii c in ((48 <=? n) && (n <=? 57))%N.

(** [\w] on the Latin-1 range: letters, digits, the underscore, and
    the letters and numeric characters of U+00AA..U+00FF. *)
Definition is_word (c : ascii) : bool :=
  let n := N_of_ascii c in
  (is_digit c
   || ((65 <=? n) && (n <=? 90)) || ((97 <=? n) && (n <=? 122)) || (n =? 95)
   || (n =? 170) || (n =? 178) || (n =? 179) || (n =? 181) || (n =? 185)
   || (n =? 186) || ((188 <=? n) && (n <=? 190))
   || ((192 <=? n) && (n <=? 214)) || ((216 <=? n) && (n <=? 246))
   || ((248 <=? n) && (n <=? 255)))%N.

(** [[\w.]] *)
Definition is_word_or_dot (c : ascii) : bool :=
  is_word c || bool_decide (c = "."%char).

(** [int(s)] for a string of digits. *)
Definition int_of_digits (s : string) : Z :=
  fold_left (fun acc c => 10 * acc + (Z.of_N (N_of_ascii c) - 48))
            (list_ascii_of_string s) 0.

End Re.
Export Re.

(** ** What the program reads from its surroundings *)

Module World.

(** The filesystem, the codec registry, libmagic, the order in which a
    Python [set] of strings hands out its elements (the order of its
    hash table, not that of insertion) and SHA-256 are given from
    outside, as are the working directory and whether a file can be
    opened for writing.  [read_file name = None] stands for [open] or
    [read] raising. *)
Record Env : Type := {
  read_file : string -> option bytes;
  env_codecs : codecs;
  magic_from_buffer : bytes -> string;
  set_iter : gset string -> list string;
  sha256_hexdigest : bytes -> string;
  getcwd : string;
  file_writable : string -> bool;
}.

(** Iterating a set visits every element once. *)
Definition set_iter_sound (env : Env) : Prop :=
  forall X : gset string, set_iter env X ≡ₚ elements X.

End World.
Export World.

(** ** [model/config_file.py] *)

Module ConfigFile.

(** The pattern of [get_base_url_pattern], piece by piece: group 1 is
    [(\w+)://] and optional, with the scheme as group 2; group 3 is the
    host [[\w.]+]; group 4 is [:\d{1,5}] and optional, with the digits
    as group 5; group 6 is any number of [/\w+], the last of them
    being group 7; the whole stands between [^] and [$]. *)
Definition re_scheme : regex :=
  Opt (Group 1 (Cat (Group 2 (Plus (Class is_word))) (Lit "://"))).

Definition re_host : regex := Group 3 (Plus (Class is_word_or_dot)).

Definition re_port : regex :=
  Opt (Group 4 (Cat (Chr ":") (Group 5 (Repeat1 4 (Class is_digit))))).

Definition re_segment : regex := Group 7 (Cat (Chr "/") (Plus (Class is_word))).

Definition re_path : regex := Group 6 (Star re_segment).

Definition get_base_url_pattern : regex :=
  Cat Bol (Cat re_scheme (Cat re_host (Cat re_port (Cat re_path Eol)))).

Definition check_base_url (url : string) : result string :=
  match re_match get_base_url_pattern url with
  | None => Raise (ValueError ("Invalid server base url: '" +:+ url +:+ "'"))
  | Some m =>
      _ ← match m !! 2%nat with
          | Some raw_schema =>
              match Schema_get_key_by_value (str_lower raw_schema) with
              | None =>
                  Raise (ValueError
                    ("Invalid schema value '" +:+ raw_schema +:+ "'."
                     +:+ " Allowed values: '"
                     +:+ str_join "', '" (Schema_value <$> [HTTP; HTTPS]) +:+ "'"))
              | Some _ => Ok tt
              end
          | None => Ok tt
          end;
      match m !! 5%nat with
      | None => Ok url
      | Some raw_port =>
          let port := int_of_digits raw_port in
          if negb ((0 <=? port) && (port <=? 65535))
          then Raise (ValueError
                 ("Port value '" +:+ raw_port +:+ "' is not from range 0-65535"))
          else Ok url
      end
  end.

Definition check_encoding (cs : codecs) (encoding : string) : result string :=
  match str_encode cs encoding [] with
  | Some _ => Ok encoding
  | None => Raise (ValueError ("Unknown encoding type '" +:+ encoding +:+ "'"))
  end.

(** [Union[str, bytes]] *)
Inductive body_data : Type :=
| DataStr (s : text)
| DataBytes (b : bytes).

Record HttpBody : Type := {
  file : option string;
  data : body_data;
  data_encoding : option string;
}.

(** [HttpBody()] *)
Definition HttpBody_default : HttpBody :=
  {| file := None; data := DataBytes []; data_encoding := Some "utf-8" |}.

(** The [bytes] property.  Whatever is raised inside (the file cannot
    be read, the text cannot be encoded, the encoding is [None] or
    unknown) ends in the empty body. *)
Definition HttpBody_bytes (env : Env) (self : HttpBody) : bytes :=
  match file self with
  | Some name =>
      match read_file env name with
      | Some content => content
      | None => []
      end
  | None =>
      match data self with
      | DataStr s =>
          match data_encoding self with
          | Some encoding =>
              match str_encode (env_codecs env) encoding s with
              | Some b => b
              | None => []
              end
          | None => []
          end
      | DataBytes b => b
      end
  end.

Record RequestLogConfig : Type := {
  headers_enabled : option bool;
  body_enabled : option bool;
  body_as_file : option bool;
  body_files_folder : option string;
  body_type : option BodyType;
  body_encoding : option string;
  log_file : option string;
  log_console : option bool;
}.

(** [RequestLogConfig()] *)
Definition RequestLogConfig_default : RequestLogConfig :=
  {| headers_enabled := None; body_enabled := None; body_as_file := None;
     body_files_folder := None; body_type := None; body_encoding := None;
     log_file := None; log_console := None |}.

(** [DefaultRequestLogConfig()] *)
Definition DefaultRequestLogConfig : RequestLogConfig :=
  {| headers_enabled := Some true; body_enabled := Some true;
     body_as_file := Some false; body_files_folder := None;
     body_type := Some AUTO; body_encoding := Some "utf-8";
     log_file := None; log_console := Some true |}.

Record RequestConfig : Type := {
  mapping : string;
  method : RequestMethod;
  parameters : option (gmap string string);
  body : option HttpBody;
  response_id : string;
}.

(** [seconds_delay] is kept in microseconds. *)
Record ResponseConfig : Type := {
  headers : dict string;
  response_body : HttpBody;
  status : Z;
  seconds_delay : option Z;
  request_log_config : RequestLogConfig;
}.

(** [ResponseConfig()] *)
Definition ResponseConfig_default : ResponseConfig :=
  {| headers := []; response_body := HttpBody_default; status := 200;
     seconds_delay := None; request_log_config := RequestLogConfig_default |}.

Record SslConfig : Type := {
  keyfile : option string;
  certfile : option string;
  keyfile_password : option string;
  ca_certs : option string;
}.

Definition SslConfig_validate_config (self : SslConfig) : result unit :=
  if bool_decide (certfile self = None) && bool_decide (ca_certs self = None)
  then Raise (ValueError
         "At least one certificate file must be specified in SSL configuration")
  else Ok tt.

Record ServerConfig : Type := {
  alias : option string;
  base_url : string;
  requests_ids : gset string;
  default_response_id : string;
  ssl_config : option SslConfig;
}.

(** [get_base_url_pattern().match(self.base_url).group(n)]; calling
    [group] on the [None] of a failed match is an AttributeError. *)
Definition base_url_group (self : ServerConfig) (n : nat) : result (option string) :=
  match re_match get_base_url_pattern (base_url self) with
  | Some m => Ok (m !! n)
  | None => Raise AttributeError
  end.

Definition host (self : ServerConfig) : result (option string) :=
  base_url_group self 3.

Definition port (self : ServerConfig) : result Z :=
  raw_port ← base_url_group self 5;
  match raw_port with
  | None => Ok 80
  | Some raw_port => Ok (int_of_digits raw_port)
  end.

Definition schema (self : ServerConfig) : result (option Schema) :=
  raw_schema ← base_url_group self 2;
  match raw_schema with
  | None => Ok (Some HTTP)
  | Some raw_schema => Ok (Schema_get_key_by_value (str_lower raw_schema))
  end.

Definition base_mapping (self : ServerConfig) : result string :=
  mapping ← base_url_group self 6;
  match mapping with
  | None => Ok ""
  | Some mapping => Ok mapping
  end.

(** [match.group(3) + match.group(4) + match.group(6)]: adding the
    [None] of a group that took no part is a TypeError. *)
Definition identity (self : ServerConfig) : result string :=
  g3 ← base_url_group self 3;
  g4 ← base_url_group self 4;
  g6 ← base_url_group self 6;
  match g3, g4, g6 with
  | Some a, Some b, Some c => Ok (a +:+ b +:+ c)
  | _, _, _ => Raise TypeError
  end.

Definition validate_protocol_configured (self : ServerConfig) : result unit :=
  s ← schema self;
  if bool_decide (s = Some HTTPS) && bool_decide (ssl_config self = None)
  then Raise (ValueError
         ("Required SSL configuration for schema '" +:+ Schema_value HTTPS
          +:+ "' for server '" +:+ base_url self +:+ "'"))
  else match ssl_config self with
       | Some c => SslConfig_validate_config c
       | None => Ok tt
       end.

Record Config : Type := {
  servers : list ServerConfig;
  requests : gmap string RequestConfig;
  responses : gmap string ResponseConfig;
  global_request_log_config : RequestLogConfig;
}.

Definition validate_request_response_ids (env : Env) (self : Config)
    : result unit :=
  let servers_configs := servers self in
  let requests_configs := requests self in
  let responses_configs := responses self in
  let '(server_requests, request_responses) :=
    fold_left (fun '(server_requests, request_responses) server =>
                 (server_requests ∪ requests_ids server,
                  request_responses ∪ {[default_response_id server]}))
              servers_configs ((∅ : gset string), (∅ : gset string)) in
  let requests : gset string := dom requests_configs in
  let request_responses :=
    fold_left (fun request_responses request =>
                 request_responses ∪ {[response_id request.2]})
              (map_to_list requests_configs) request_responses in
  let responses : gset string := dom responses_configs in
  let not_described_requests := server_requests ∖ requests in
  if negb (Nat.eqb (size not_described_requests) 0)
  then Raise (ValueError
         ("Not described requests: "
          +:+ str_join ", " (set_iter env not_described_requests)))
  else
    let not_described_responses := request_responses ∖ responses in
    if negb (Nat.eqb (size not_described_responses) 0)
    then Raise (ValueError
           ("Not described responses: "
            +:+ str_join ", " (set_iter env not_described_responses)))
    else Ok tt.

(** A loop that stops at the first exception. *)
Fixpoint for_each {A} (f : A -> result unit) (l : list A) : result unit :=
  match l with
  | [] => Ok tt
  | x :: l' => _ ← f x; for_each f l'
  end.

Definition validate (env : Env) (self : Config) : result unit :=
  _ ← for_each validate_protocol_configured (servers self);
  validate_request_response_ids env self.

(** The decoded YAML tree, as [Config.parse_obj] receives it, for the
    trees in which every value has the type of its field.  Of
    pydantic's work the model keeps what the sources add to it: the
    field constraints ([min_items], [ge], [le]), the validators
    ([check_base_url], [check_encoding]) and the conversion of the
    list under [requests_ids] to a [set]; field defaults are taken as
    already filled in.  A tree with a value of another type than its
    field's is no [RawConfig]: pydantic's type errors and coercions
    are not modelled. *)
Record RawServerConfig : Type := {
  raw_alias : option string;
  raw_base_url : string;
  raw_requests_ids : list string;
  raw_default_response_id : string;
  raw_ssl_config : option SslConfig;
}.

Record RawConfig : Type := {
  raw_servers : list RawServerConfig;
  raw_requests : gmap string RequestConfig;
  raw_responses : gmap string ResponseConfig;
  raw_request_log_config : RequestLogConfig;
}.

Definition RequestLogConfig_parse_obj (cs : codecs) (raw : RequestLogConfig)
    : result RequestLogConfig :=
  match body_encoding raw with
  | Some encoding => _ ← check_encoding cs encoding; Ok raw
  | None => Ok raw
  end.

Definition ResponseConfig_parse_obj (cs : codecs) (raw : ResponseConfig)
    : result ResponseConfig :=
  if negb ((100 <=? status raw) && (status raw <=? 599))
  then Raise (ValueError "Validation error at fields: status")
  else _ ← RequestLogConfig_parse_obj cs (request_log_config raw); Ok raw.

Definition ServerConfig_parse_obj (raw : RawServerConfig) : result ServerConfig :=
  url ← check_base_url (raw_base_url raw);
  Ok {| alias := raw_alias raw;
        base_url := url;
        requests_ids := list_to_set (raw_requests_ids raw);
        default_response_id := raw_default_response_id raw;
        ssl_config := raw_ssl_config raw |}.

(** A comprehension that stops at the first exception. *)
Fixpoint map_result {A B} (f : A -> result B) (l : list A) : result (list B) :=
  match l with
  | [] => Ok []
  | x :: l' => y ← f x; ys ← map_result f l'; Ok (y :: ys)
  end.

Definition Config_parse_obj (env : Env) (raw : RawConfig) : result Config :=
  if Nat.ltb (length (raw_servers raw)) 1
  then Raise (ValueError "Validation error at fields: servers")
  else
    servers ← map_result ServerConfig_parse_obj (raw_servers raw);
    _ ← for_each (fun kv => _ ← ResponseConfig_parse_obj (env_codecs env) kv.2; Ok tt)
          (map_to_list (raw_responses raw));
    log_config ← RequestLogConfig_parse_obj (env_codecs env)
                   (raw_request_log_config raw);
    Ok {| servers := servers;
          requests := raw_requests raw;
          responses := raw_responses raw;
          global_request_log_config := log_config |}.

(** Both [ValidationError] (a [ValueError]) and [ValueError] leave as
    an [IOError]; anything else passes through.  The message of a
    [ValidationError] is built by [get_validation_error_message],
    which is not modelled beyond the messages above: on the location
    of an error inside a list, which holds an index, its [join] raises
    [TypeError].  The field constraints and validators of a
    [RawConfig] give no such location; a type error of a list item
    does, and is outside the model. *)
Definition parse_config (env : Env) (raw_config : RawConfig) : result Config :=
  match (config ← Config_parse_obj env raw_config;
         _ ← validate env config;
         Ok config) with
  | Ok config => Ok config
  | Raise (ValueError msg) =>
      Raise (IOError ("Config file parsing error: " +:+ msg))
  | Raise e => Raise e
  end.

End ConfigFile.
Export ConfigFile.

(** ** [core/base.py] and the request object *)

Module Base.

(** What the sources read of a Starlette [Request]: the method, the
    path of the ASGI scope, the query parameters and the headers as
    the lists of pairs their [items()] iterate, and the body that
    [await request.body()] yields. *)
Record Request : Type := {
  req_method : string;
  req_path : string;
  req_query_params : list (string * string);
  req_headers : list (string * string);
  req_body : bytes;
}.

(** [request.body()]: [body] is an [async def], so the call returns a
    coroutine ([core/logging/requests.py] awaits it). *)
Definition Request_body (request : Request) : pyobj :=
  PyCoroutine (req_body request).

(** A loop of [request_params[k] = v]; the result is compared with
    [==] only, so its order is not kept. *)
Definition request_params_to_dict (request : Request) : gmap string string :=
  fold_left (fun request_params kv => <[kv.1 := kv.2]> request_params)
            (req_query_params request) ∅.

Definition request_headers_to_dict (request : Request) : dict string :=
  dict_of_items (req_headers request).

End Base.
Export Base.

(** ** [hooks/responses.py] *)

Module Responses.

Record Response : Type := {
  status_code : Z;
  body_of : bytes;
  raw_headers : list (bytes * bytes);
}.

(** [RawResponse.init_headers].  The dictionary is the caller's own
    object and is updated in place, so the updated dictionary is
    returned beside the header list.  Header names and values are
    Latin-1 strings here, which [encode] takes; on a character above
    U+00FF it raises [UnicodeEncodeError], which is outside the
    model. *)
Definition init_headers (self_body : bytes) (headers : option (dict string))
    : list (bytes * bytes) * dict string :=
  let content_length := length self_body in
  let headers := match headers with Some h => h | None => [] end in
  let headers := dict_set headers "content-length" (str_of_nat content_length) in
  let raw_headers :=
    (fun kv => (latin1_encode (str_lower kv.1), latin1_encode kv.2)) <$> headers in
  (raw_headers, headers).

(** [RawResponse(content, status_code=..., headers=...)]: Starlette's
    [Response.__init__] keeps the status, renders [bytes] content as
    it is and then calls [init_headers]. *)
Definition RawResponse (content : bytes) (status_code : Z) (headers : dict string)
    : Response * dict string :=
  let body := content in
  let '(raw_headers, headers) := init_headers body (Some headers) in
  ({| status_code := status_code; body_of := body; raw_headers := raw_headers |},
   headers).

End Responses.
Export Responses.

(** ** [core/logging/requests.py] *)

Module Logging.

(** The state of a [RequestLogger] that decides what is logged: the
    counter behind the body file names and the global log
    configuration. *)
Record RequestLogger : Type := {
  request_id : nat;
  log_config : RequestLogConfig;
}.

(** [RequestLogger()] *)
Definition RequestLogger_new : RequestLogger :=
  {| request_id := 0; log_config := RequestLogConfig_default |}.

(** [message_value], field by field; [None] is a key that was not
    set.  The [body] entry is a [str] in both branches that set it. *)
Record LogMessage : Type := {
  msg_time : string;
  msg_server_url : string;
  msg_server_alias : option string;
  msg_method : string;
  msg_mapping : string;
  msg_parameters : gmap string string;
  msg_headers : option (dict string);
  msg_body_file : option string;
  msg_body : option text;
}.

(** What a call of [log_request] did: nothing (no sink enabled), a
    message handed to the file logger of [to_file] and to the console
    logger, or an exception caught and reported by the final
    [except]. *)
Inductive LogOutcome : Type :=
| LogNothing
| LogWritten (message : LogMessage) (to_file : option string) (to_console : bool)
| LogError (e : exn).

(** [x = global.f], then [if override.f is not None: x = override.f] *)
Definition overridden {A} (global override : option A) : option A :=
  match override with Some v => Some v | None => global end.

(** Truth values of an [Optional[bool]] and of an [Optional[str]]. *)
Definition truthy_bool (o : option bool) : bool := default false o.
Definition truthy_str (o : option string) : bool :=
  match o with Some s => negb (String.eqb s "") | None => false end.

(** [a or b] on [Optional[str]] *)
Definition or_str (a b : option string) : option string :=
  if truthy_str a then a else b.

Definition create_body_file_name (now : string) (self : RequestLogger)
    : string * RequestLogger :=
  let identities := [now; str_of_nat (request_id self)] in
  (str_join "_" identities,
   {| request_id := S (request_id self); log_config := log_config self |}).

Definition guess_mime_type (env : Env) (body : bytes) : string :=
  magic_from_buffer env body.

(** The set literal of [_mime_type_to_body_type].  Its first two
    string literals have no comma between them, so Python joins them
    into one element. *)
Definition text_substrings : list string :=
  [ "text/" +:+ "application/json";
    "application/x-empty";
    "application/x-www-form-urlencoded" ].

Definition mime_type_to_body_type (media_type : string) : BodyType :=
  if existsb (fun substring => str_contains substring media_type) text_substrings
  then TEXT else BYTES.

(** [member.TEXT]: attribute lookup on an enum member finds the class
    attribute [TEXT], whichever member it starts from. *)
Definition BodyType_dot_TEXT (member : BodyType) : BodyType := TEXT.

(** The truth value of a member of a [str] enum is that of its string
    value. *)
Definition BodyType_truthy (member : BodyType) : bool :=
  negb (String.eqb (BodyType_value member) "").

(** The [url] entry of the message; [None.value] is an AttributeError
    and adding [None] to a string a TypeError. *)
Definition server_url (server_config : ServerConfig) : result string :=
  s ← schema server_config;
  match s with
  | None => Raise AttributeError
  | Some s =>
      h ← host server_config;
      match h with
      | None => Raise TypeError
      | Some h =>
          p ← port server_config;
          Ok (Schema_value s +:+ "://" +:+ h +:+ ":" +:+ str_of_Z p)
      end
  end.

(** The branch of [log_request] that fills the [body] entry when the
    body is not written to a file. *)
Definition inline_body (env : Env) (self : RequestLogger)
    (request_log_config : RequestLogConfig) (request : Request)
    (body_bytes : bytes) : result text :=
  let body_type :=
    overridden (body_type (log_config self)) (body_type request_log_config) in
  let body_type :=
    match body_type with
    | Some TEXT => TEXT
    | Some BYTES => BYTES
    | None | Some AUTO =>
        let headers := request_headers_to_dict request in
        let media_type :=
          match or_str (or_str (dict_get headers "Content-Type")
                               (dict_get headers "content-type"))
                       (Some (guess_mime_type env body_bytes)) with
          | Some m => m
          | None => ""
          end in
        mime_type_to_body_type media_type
    end in
  if BodyType_truthy (BodyType_dot_TEXT body_type) then
    let encoding :=
      overridden (body_encoding (log_config self))
                 (body_encoding request_log_config) in
    let encoding := match encoding with Some e => e | None => "utf-8" end in
    match bytes_decode (env_codecs env) encoding body_bytes with
    | Some t => Ok t
    | None => Raise UnicodeError
    end
  else Ok (text_of_string (bytes_hex body_bytes)).

(** [RequestLogger.log_request] at time [now] (the text of
    [datetime.now().isoformat()]).  Returns the logger with its
    counter, the body file written (if any), and the outcome. *)
Definition log_request (env : Env) (now : string) (self : RequestLogger)
    (request : Request) (request_config : option RequestConfig)
    (response_config : ResponseConfig) (server_config : ServerConfig)
    : RequestLogger * option (string * bytes) * LogOutcome :=
  let request_log_config := request_log_config response_config in
  let log_file :=
    overridden (log_file (log_config self)) (log_file request_log_config) in
  let log_console :=
    overridden (log_console (log_config self)) (log_console request_log_config) in
  if truthy_str log_file || truthy_bool log_console then
    let headers_enabled :=
      overridden (headers_enabled (log_config self))
                 (headers_enabled request_log_config) in
    let body_enabled :=
      overridden (body_enabled (log_config self))
                 (body_enabled request_log_config) in
    match server_url server_config with
    | Raise e => (self, None, LogError e)
    | Ok url =>
        let message body_file body :=
          {| msg_time := now;
             msg_server_url := url;
             msg_server_alias := alias server_config;
             msg_method := req_method request;
             msg_mapping := req_path request;
             msg_parameters := request_params_to_dict request;
             msg_headers :=
               if truthy_bool headers_enabled
               then Some (request_headers_to_dict request) else None;
             msg_body_file := body_file;
             msg_body := body |} in
        let written m :=
          LogWritten m (if truthy_str log_file then log_file else None)
                     (truthy_bool log_console) in
        if truthy_bool body_enabled then
          let body_bytes := await (Request_body request) in
          let body_as_file :=
            overridden (body_as_file (log_config self))
                       (body_as_file request_log_config) in
          if truthy_bool body_as_file then
            let '(body_file_name, self) := create_body_file_name now self in
            let base_folder :=
              overridden (body_files_folder (log_config self))
                         (body_files_folder request_log_config) in
            let base_folder :=
              match base_folder with Some f => f | None => getcwd env end in
            let body_file := base_folder +:+ "/" +:+ body_file_name in
            if file_writable env body_file
            then (self, Some (body_file, body_bytes),
                  written (message (Some body_file) None))
            else (self, None,
                  LogError (IOError ("Error writing request body to file '"
                                     +:+ body_file +:+ "'")))
          else
            match inline_body env self request_log_config request body_bytes with
            | Ok body => (self, None, written (message None (Some body)))
            | Raise e => (self, None, LogError e)
            end
        else (self, None, written (message None None))
    end
  else (self, None, LogNothing).

End Logging.
Export Logging.

(** ** [core/process_middleware.py] *)

Module ProcessMiddleware.

Definition is_request_fit (env : Env) (request : Request)
    (request_config : RequestConfig) (server_config : ServerConfig)
    : result bool :=
  if negb (bool_decide (req_method request
                        = RequestMethod_value (method request_config)))
  then Ok false
  else
    base ← base_mapping server_config;
    if negb (bool_decide (req_path request = base +:+ mapping request_config))
    then Ok false
    else if match parameters request_config with
            | Some parameters =>
                negb (bool_decide (parameters = request_params_to_dict request))
            | None => false
            end
    then Ok false
    else if match body request_config with
            | Some body =>
                py_ne (Request_body request) (PyBytes (HttpBody_bytes env body))
            | None => false
            end
    then Ok false
    else Ok true.

(** [request_response_function] under its [request_logging]
    decorator, for the one logger [main] passes: the request is
    logged, then the response is built.  The delay changes no value.
    Returned beside the response: the logger, the body file written,
    the log outcome, and the header dictionary of [response_config]
    as [RawResponse] left it. *)
Definition request_response_function (env : Env) (now : string)
    (logger : RequestLogger) (request : Request)
    (request_config : option RequestConfig) (response_config : ResponseConfig)
    (server_config : ServerConfig)
    : Response * (RequestLogger * option (string * bytes) * LogOutcome * dict string) :=
  let logged :=
    log_request env now logger request request_config response_config
                server_config in
  let '(response, headers) :=
    RawResponse (HttpBody_bytes env (response_body response_config))
                (status response_config) (headers response_config) in
  (response, (logged, headers)).

(** [request_processor], the closure that
    [get_request_allocation_function] returns, with the function it
    calls on the first fitting rule as [handler]. *)
Fixpoint request_processor {R} (env : Env)
    (handler : Request -> option RequestConfig -> ResponseConfig ->
               ServerConfig -> R)
    (server_requests : list RequestConfig) (server_config : ServerConfig)
    (responses : gmap string ResponseConfig) (request : Request) : result R :=
  match server_requests with
  | [] =>
      Raise (HTTPException 400
               "Unknown request. Will be allocated to default response")
  | request_config :: server_requests' =>
      match is_request_fit env request request_config server_config with
      | Raise e => Raise e
      | Ok true =>
          match responses !! response_id request_config with
          | Some response =>
              Ok (handler request (Some request_config) response server_config)
          | None => Raise (KeyError (response_id request_config))
          end
      | Ok false =>
          request_processor env handler server_requests' server_config
                            responses request
      end
  end.

(** [exception_handler]: the default response, through the same
    function, with no rule. *)
Definition exception_handler {R}
    (handler : Request -> option RequestConfig -> ResponseConfig ->
               ServerConfig -> R)
    (response_config : ResponseConfig) (server_config : ServerConfig)
    (request : Request) : R :=
  handler request None response_config server_config.

(** What an [AllMappingRoute] holds: the values its endpoint closed
    over. *)
Record Route : Type := {
  route_requests : list RequestConfig;
  route_server : ServerConfig;
  route_responses : gmap string ResponseConfig;
}.

(** [d[k]] on a [Dict[str, _]] of the configuration. *)
Definition getitem {V} (d : gmap string V) (k : string) : result V :=
  match d !! k with Some v => Ok v | None => Raise (KeyError k) end.

(** The first loop of [create_server_routes]: per identity, the rules
    of the server in the order in which its set of ids is iterated. *)
Fixpoint servers_requests_of (env : Env) (config : Config)
    (servers : list ServerConfig) (acc : dict (list RequestConfig))
    : result (dict (list RequestConfig)) :=
  match servers with
  | [] => Ok acc
  | server_config :: servers' =>
      identity ← identity server_config;
      rules ← map_result (getitem (requests config))
                 (set_iter env (requests_ids server_config));
      servers_requests_of env config servers' (dict_set acc identity rules)
  end.

(** The second loop of [create_server_routes]. *)
Fixpoint server_routes_of (config : Config)
    (servers_requests : dict (list RequestConfig))
    (servers : list ServerConfig) (acc : dict Route) : result (dict Route) :=
  match servers with
  | [] => Ok acc
  | server_config :: servers' =>
      identity ← identity server_config;
      match dict_get servers_requests identity with
      | None => Raise (KeyError identity)
      | Some server_requests =>
          server_routes_of config servers_requests servers'
            (dict_set acc identity
               {| route_requests := server_requests;
                  route_server := server_config;
                  route_responses := responses config |})
      end
  end.

Definition create_server_routes (env : Env) (config : Config) : result (dict Route) :=
  servers_requests ← servers_requests_of env config (servers config) [];
  server_routes_of config servers_requests (servers config) [].

(** A [Starlette] application with one route and the handler of
    [HTTPException], given by what that handler closed over. *)
Record Starlette : Type := {
  app_route : Route;
  app_default_response : ResponseConfig;
  app_server : ServerConfig;
}.

(** One request through the application: the route accepts every
    path, its endpoint is [request_processor], and an [HTTPException]
    goes to [exception_handler].  The result is what the application
    makes of the request up to the call of the response function; an
    exception that this function raises itself, which Starlette turns
    into a response with status 500, is for [R] to hold. *)
Definition Starlette_call {R} (env : Env)
    (handler : Request -> option RequestConfig -> ResponseConfig ->
               ServerConfig -> R)
    (app : Starlette) (request : Request) : result R :=
  let route := app_route app in
  match request_processor env handler (route_requests route) (route_server route)
          (route_responses route) request with
  | Raise (HTTPException _ _) =>
      Ok (exception_handler handler (app_default_response app) (app_server app)
            request)
  | r => r
  end.

(** [create_processes], up to the construction of the processes: the
    application and the server of each. *)
Fixpoint create_processes (config : Config) (endpoints : dict Route)
    (servers : list ServerConfig) : result (list (Starlette * ServerConfig)) :=
  match servers with
  | [] => Ok []
  | server :: servers' =>
      identity ← identity server;
      default_response ← getitem (responses config) (default_response_id server);
      match dict_get endpoints identity with
      | None => Raise (KeyError identity)
      | Some route =>
          rest ← create_processes config endpoints servers';
          Ok (({| app_route := route;
                  app_default_response := default_response;
                  app_server := server |}, server) :: rest)
      end
  end.

Definition get_server_processes (env : Env) (config : Config)
    : result (list (Starlette * ServerConfig)) :=
  endpoints ← create_server_routes env config;
  create_processes config endpoints (servers config).

End ProcessMiddleware.
Export ProcessMiddleware.

(** ** [core/config_loader.py] *)

Module ConfigLoader.

(** Instants and the read interval are counted in microseconds. *)
Record ConfigFileLoader : Type := {
  filename : string;
  last_read : option Z;
  read_interval : Z;
  cached_value : option bytes;
  file_hash : option string;
  is_changed : bool;
}.

(** [ConfigFileLoader(filename)] *)
Definition ConfigFileLoader_new (filename : string) : ConfigFileLoader :=
  {| filename := filename; last_read := None; read_interval := 3000000;
     cached_value := None; file_hash := None; is_changed := false |}.

Definition set_last_read (t : Z) (self : ConfigFileLoader) : ConfigFileLoader :=
  {| filename := filename self; last_read := Some t;
     read_interval := read_interval self; cached_value := cached_value self;
     file_hash := file_hash self; is_changed := is_changed self |}.

(** [_read_file] at time [now]: the time of the read is stored before
    the file is opened. *)
Definition read_file_of (env : Env) (now : Z) (self : ConfigFileLoader)
    : result bytes * ConfigFileLoader :=
  let self := set_last_read now self in
  match read_file env (filename self) with
  | Some content => (Ok content, self)
  | None =>
      (Raise (IOError ("Config file '" +:+ filename self +:+ "' reading error")),
       self)
  end.

Definition calculate_hash (env : Env) (value : bytes) : string :=
  sha256_hexdigest env value.

Definition get_file_value (env : Env) (now : Z) (self : ConfigFileLoader)
    : result bytes * ConfigFileLoader :=
  match cached_value self with
  | Some value => (Ok value, self)
  | None =>
      match read_file_of env now self with
      | (Ok value, self) =>
          (Ok value,
           {| filename := filename self; last_read := last_read self;
              read_interval := read_interval self; cached_value := Some value;
              file_hash := Some (calculate_hash env value);
              is_changed := is_changed self |})
      | (Raise e, self) => (Raise e, self)
      end
  end.

Definition reset_changed (self : ConfigFileLoader) : ConfigFileLoader :=
  {| filename := filename self; last_read := last_read self;
     read_interval := read_interval self; cached_value := cached_value self;
     file_hash := file_hash self; is_changed := false |}.

(** The condition of [do_load]: [and] binds tighter than [or], and
    [None + timedelta(...)] is a TypeError. *)
Definition do_load_due (now : Z) (self : ConfigFileLoader) : result bool :=
  if negb (is_changed self) && bool_decide (last_read self = None) then Ok true
  else match last_read self with
       | None => Raise TypeError
       | Some t => Ok (t + read_interval self <=? now)
       end.

(** [do_load], with the clock reading [now] in the condition and
    [now'] in [_read_file]. *)
Definition do_load (env : Env) (now now' : Z) (self : ConfigFileLoader)
    : result unit * ConfigFileLoader :=
  match do_load_due now self with
  | Raise e => (Raise e, self)
  | Ok false => (Ok tt, self)
  | Ok true =>
      match read_file_of env now' self with
      | (Raise e, self) => (Raise e, self)
      | (Ok value, self) =>
          let hash_value := calculate_hash env value in
          let changed := negb (bool_decide (Some hash_value = file_hash self)) in
          (Ok tt,
           {| filename := filename self; last_read := last_read self;
              read_interval := read_interval self; cached_value := Some value;
              file_hash := if changed then Some hash_value else file_hash self;
              is_changed := if changed then true else is_changed self |})
      end
  end.

End ConfigLoader.
Export ConfigLoader.

(** ** [core/server_processing.py] *)

Module ServerProcessing.

(** The life of a [multiprocessing.Process]: created, started, sent
    SIGTERM and still alive for some more polls of [is_alive], gone. *)
Inductive proc_status : Type :=
| Unstarted
| Alive
| Terminating (polls : nat)
| Exited.

(** A [ServerProcess] object: what it was built from, where its
    process stands, and how many polls of [is_alive] its process
    survives a SIGTERM (decided by the process, not by the program). *)
Record ServerProcess : Type := {
  application : Starlette;
  server : ServerConfig;
  proc_state : proc_status;
  exit_delay : nat;
}.

Definition with_state (st : proc_status) (p : ServerProcess) : ServerProcess :=
  {| application := application p; server := server p; proc_state := st;
     exit_delay := exit_delay p |}.

(** [process.is_alive()] *)
Definition is_alive (p : ServerProcess) : bool :=
  match proc_state p with
  | Alive | Terminating _ => true
  | Unstarted | Exited => false
  end.

(** All process objects ever built, by index, and the earlier states
    of that table, latest first: every start, SIGTERM, construction
    and poll leaves the table it found in the history. *)
Record Sys : Type := {
  table : list ServerProcess;
  history : list (list ServerProcess);
}.

Definition Sys_empty : Sys := {| table := []; history := [] |}.

Definition sys_update (f : list ServerProcess -> list ServerProcess) (s : Sys) : Sys :=
  {| table := f (table s); history := table s :: history s |}.

(** Every state of the table so far, latest first. *)
Definition snapshots (s : Sys) : list (list ServerProcess) :=
  table s :: history s.

(** Time passing between two polls: a process that was sent SIGTERM
    comes one poll closer to its exit. *)
Definition elapse (p : ServerProcess) : ServerProcess :=
  match proc_state p with
  | Terminating (S n) => with_state (Terminating n) p
  | Terminating O => with_state Exited p
  | _ => p
  end.

Definition pid_is_alive (t : list ServerProcess) (pid : nat) : bool :=
  match t !! pid with Some p => is_alive p | None => false end.

(** [process.start()]; starting a process twice is an AssertionError. *)
Definition start (pid : nat) (s : Sys) : result unit * Sys :=
  match table s !! pid with
  | Some p =>
      match proc_state p with
      | Unstarted => (Ok tt, sys_update (alter (with_state Alive) pid) s)
      | _ => (Raise AssertionError, s)
      end
  | None => (Raise AttributeError, s)
  end.

(** [process.terminate()]: SIGTERM to a live process. *)
Definition terminate (pid : nat) (s : Sys) : Sys :=
  sys_update
    (alter (fun p => match proc_state p with
                     | Alive => with_state (Terminating (exit_delay p)) p
                     | _ => p
                     end) pid) s.

(** [ServerProcess(application, server_config, logger_adapter)] *)
Definition construct (term_delay : ServerConfig -> nat)
    (app : Starlette * ServerConfig) (s : Sys) : nat * Sys :=
  (length (table s),
   sys_update (fun t => t ++ [{| application := app.1; server := app.2;
                                 proc_state := Unstarted;
                                 exit_delay := term_delay app.2 |}]) s).

(** The controller holds its processes by identity. *)
Record ProcessesController : Type := {
  processes : list nat;
}.

Definition is_running (self : ProcessesController) (s : Sys) : bool :=
  existsb (pid_is_alive (table s)) (processes self).

(** [terminate_all], as to the processes.  What it writes to the
    application logger is [terminate_all_info]. *)
Definition terminate_all (self : ProcessesController) (s : Sys) : Sys :=
  if is_running self s then
    fold_left (fun s pid => if pid_is_alive (table s) pid then terminate pid s else s)
              (processes self) s
  else s.

(** The lines [terminate_all] writes with [logger.info]: one, when it
    finds a process running. *)
Definition terminate_all_info (self : ProcessesController) (s : Sys) : list string :=
  if is_running self s then ["Stopping server processes..."] else [].

(** The setter of [processes], as to the processes and the controller. *)
Definition set_processes (new : list nat) (self : ProcessesController) (s : Sys)
    : ProcessesController * Sys :=
  let s := if is_running self s then terminate_all self s else s in
  ({| processes := new |}, s).

(** The lines the setter writes: those of its [terminate_all]. *)
Definition set_processes_info (self : ProcessesController) (s : Sys) : list string :=
  if is_running self s then terminate_all_info self s else [].

(** [ProcessesController(processes)]: an empty list, then the setter. *)
Definition ProcessesController_new (new : list nat) (s : Sys)
    : ProcessesController * Sys :=
  set_processes new {| processes := [] |} s.

Fixpoint start_each (pids : list nat) (s : Sys) : result unit * Sys :=
  match pids with
  | [] => (Ok tt, s)
  | pid :: pids' =>
      match start pid s with
      | (Ok _, s) => start_each pids' s
      | (Raise e, s) => (Raise e, s)
      end
  end.

Definition start_all (self : ProcessesController) (s : Sys) : result unit * Sys :=
  start_each (processes self) s.

(** [while controller.is_running: pass], for at most [fuel] turns;
    time passes between two evaluations of the condition.  [None]:
    the loop is still turning when the fuel is spent. *)
Fixpoint wait_until_stopped (fuel : nat) (self : ProcessesController) (s : Sys)
    : option Sys :=
  if is_running self s then
    match fuel with
    | O => None
    | S fuel' => wait_until_stopped fuel' self (sys_update (fmap elapse) s)
    end
  else Some s.

End ServerProcessing.
Export ServerProcessing.

(** ** [main.py] *)

Module Main.

Inductive LogLevel : Type := INFO | WARNING | ERROR | CRITICAL.

(** [get_exception_error]: the arguments of the exception, joined.
    Only the message of the exceptions the sources build themselves
    is kept. *)
Definition get_exception_error (e : exn) : string :=
  match e with
  | ValueError msg | IOError msg => msg
  | KeyError key => key
  | HTTPException _ detail => detail
  | _ => ""
  end.

(** The surroundings of [main]: the YAML decoder ([None]: it raised)
    and, for each listener, the number of polls its process survives a
    SIGTERM. *)
Record Host : Type := {
  yaml_safe_load : bytes -> option RawConfig;
  term_delay : ServerConfig -> nat;
}.

Definition parse_from_yaml (h : Host) (value : bytes) : result RawConfig :=
  match yaml_safe_load h value with
  | Some tree => Ok tree
  | None => Raise (IOError "YAML parsing error: ")
  end.

(** The local variables of [main] that outlive a statement, the
    process table, and the lines written to the application logger. *)
Record State : Type := {
  config_loader : ConfigFileLoader;
  request_logger : RequestLogger;
  controller : option ProcessesController;
  sys : Sys;
  app_log : list (LogLevel * string);
}.

(** How a block of [main] ends: it falls through, it raises, its
    busy-wait has not ended when the fuel is spent, or the listeners
    are still up when the observation ends. *)
Inductive ending : Type :=
| Returned
| Raised (e : exn)
| Hangs
| StillRunning.

(** One turn of the clock and of the filesystem, as a loop iteration
    sees them. *)
Record Tick : Type := {
  tick_env : Env;
  tick_now : Z;
  tick_now' : Z;
}.

Definition logged (l : LogLevel) (msg : string) (st : State) : State :=
  {| config_loader := config_loader st; request_logger := request_logger st;
     controller := controller st; sys := sys st;
     app_log := app_log st ++ [(l, msg)] |}.

(** Lines written with [logger.info]. *)
Definition logged_infos (msgs : list string) (st : State) : State :=
  {| config_loader := config_loader st; request_logger := request_logger st;
     controller := controller st; sys := sys st;
     app_log := app_log st ++ ((fun msg => (INFO, msg)) <$> msgs) |}.

Definition with_loader (loader : ConfigFileLoader) (st : State) : State :=
  {| config_loader := loader; request_logger := request_logger st;
     controller := controller st; sys := sys st; app_log := app_log st |}.

Definition with_sys (s : Sys) (st : State) : State :=
  {| config_loader := config_loader st; request_logger := request_logger st;
     controller := controller st; sys := s; app_log := app_log st |}.

Definition with_controller (c : ProcessesController) (st : State) : State :=
  {| config_loader := config_loader st; request_logger := request_logger st;
     controller := Some c; sys := sys st; app_log := app_log st |}.

(** [request_logger.log_config = config.request_log_config] *)
Definition with_log_config (config : Config) (st : State) : State :=
  {| config_loader := config_loader st;
     request_logger :=
       {| request_id := request_id (request_logger st);
          log_config := global_request_log_config config |};
     controller := controller st; sys := sys st; app_log := app_log st |}.

(** [controller.terminate_all()] in [main]: the processes and the
    log. *)
Definition controller_terminate_all (c : ProcessesController) (st : State) : State :=
  with_sys (terminate_all c (sys st)) (logged_infos (terminate_all_info c (sys st)) st).

(** The [ServerProcess(...)] calls of [create_processes], in order. *)
Fixpoint construct_all (h : Host) (apps : list (Starlette * ServerConfig)) (s : Sys)
    : list nat * Sys :=
  match apps with
  | [] => ([], s)
  | app :: apps' =>
      let '(pid, s) := construct (term_delay h) app s in
      let '(pids, s) := construct_all h apps' s in
      (pid :: pids, s)
  end.

(** [parse_config(parse_from_yaml(config_loader.get_file_value()))] *)
Definition load_config (h : Host) (env : Env) (now : Z) (st : State)
    : result Config * State :=
  let '(value, loader) := get_file_value env now (config_loader st) in
  (value ← value; tree ← parse_from_yaml h value; parse_config env tree,
   with_loader loader st).

(** [main] from its first statement to [controller.start_all()]. *)
Definition startup (h : Host) (env : Env) (now : Z) (args_c : string)
    : State * ending :=
  let st := {| config_loader := ConfigFileLoader_new args_c;
               request_logger := RequestLogger_new;
               controller := None; sys := Sys_empty; app_log := [] |} in
  match load_config h env now st with
  | (Raise e, st) => (st, Raised e)
  | (Ok config, st) =>
      let st := with_log_config config st in
      match get_server_processes env config with
      | Raise e => (st, Raised e)
      | Ok apps =>
          let '(pids, s) := construct_all h apps (sys st) in
          let '(c, s) := ProcessesController_new pids s in
          let st := with_controller c (with_sys s st) in
          match start_all c s with
          | (Ok _, s) => (with_sys s st, Returned)
          | (Raise e, s) => (with_sys s st, Raised e)
          end
      end
  end.

(** The body of [if config_loader.is_changed:].  The test that guards
    the swap reads [config_loader is not None], which always holds. *)
Definition apply_changes (h : Host) (env : Env) (now : Z) (fuel : nat)
    (c : ProcessesController) (st : State) : State * ending :=
  let st := with_loader (reset_changed (config_loader st)) st in
  let st := logged INFO "Config file changes detected. Applying..." st in
  let '(parsed, st) := load_config h env now st in
  let next (config : option Config) (st : State) : State * ending :=
    let st := controller_terminate_all c st in
    match wait_until_stopped fuel c (sys st) with
    | None => (st, Hangs)
    | Some s =>
        let st := with_sys s st in
        match config with
        | None => (st, Raised AttributeError)
        | Some config =>
            let st := with_log_config config st in
            match get_server_processes env config with
            | Raise e => (st, Raised e)
            | Ok apps =>
                let '(pids, s) := construct_all h apps (sys st) in
                let infos := set_processes_info c s in
                let '(c, s) := set_processes pids c s in
                let st := logged_infos infos (with_controller c (with_sys s st)) in
                match start_all c s with
                | (Ok _, s) => (with_sys s st, Returned)
                | (Raise e, s) => (with_sys s st, Raised e)
                end
            end
        end
    end in
  match parsed with
  | Ok config => next (Some config) st
  | Raise (IOError msg) =>
      next None (logged WARNING (get_exception_error (IOError msg)) st)
  | Raise e => (st, Raised e)
  end.

(** [while controller.is_running:], one [Tick] per iteration. *)
Fixpoint main_loop (h : Host) (fuel : nat) (ticks : list Tick)
    (c : ProcessesController) (st : State) : State * ending :=
  if is_running c (sys st) then
    match ticks with
    | [] => (st, StillRunning)
    | tick :: ticks' =>
        match do_load (tick_env tick) (tick_now tick) (tick_now' tick)
                (config_loader st) with
        | (Raise e, loader) => (with_loader loader st, Raised e)
        | (Ok _, loader) =>
            let st := with_loader loader st in
            if is_changed loader then
              match apply_changes h (tick_env tick) (tick_now' tick) fuel c st with
              | (st, Returned) =>
                  match controller st with
                  | Some c => main_loop h fuel ticks' c st
                  | None => (st, Raised AttributeError)
                  end
              | other => other
              end
            else main_loop h fuel ticks' c st
        end
    end
  else (st, Returned).

(** [main]: the [try] block, the [except] clauses and [finally]. *)
Definition main (h : Host) (env : Env) (now : Z) (args_c : string) (fuel : nat)
    (ticks : list Tick) : State * ending :=
  let '(st, e) :=
    match startup h env now args_c with
    | (st, Returned) =>
        match controller st with
        | Some c => main_loop h fuel ticks c st
        | None => (st, Raised AttributeError)
        end
    | other => other
    end in
  match e with
  | Hangs | StillRunning => (st, e)
  | Returned | Raised _ =>
      let st := match e with
                | Raised exn => logged CRITICAL (get_exception_error exn) st
                | _ => st
                end in
      let st := match controller st with
                | Some c => controller_terminate_all c st
                | None => st
                end in
      (st, e)
  end.

End Main.
Export Main.

(** ** Concrete surroundings and configurations

    The values at which the properties below are instantiated. *)

Module Samples.

(** No codec besides UTF-8. *)
Definition utf8_only : codecs :=
  {| codec_encode := fun _ _ => None; codec_decode := fun _ _ => None |}.

(** A world with one file per entry of [files], in which sets of
    strings are iterated in the order [order]. *)
Definition env_with (files : list (string * bytes))
    (order : gset string -> list string) : Env :=
  {| read_file := fun name => snd <$> List.find (fun f => String.eqb f.1 name) files;
     env_codecs := utf8_only;
     magic_from_buffer := fun _ => "application/octet-stream";
     set_iter := order;
     sha256_hexdigest := bytes_hex;
     getcwd := "/srv";
     file_writable := fun _ => true |}.

Definition env0 : Env := env_with [] elements.

Definition body_of_str (s : string) : HttpBody :=
  {| file := None; data := DataStr (text_of_string s);
     data_encoding := Some "utf-8" |}.

Definition rule (path : string) (params : option (gmap string string))
    (b : option HttpBody) (resp : string) : RequestConfig :=
  {| mapping := path; method := GET; parameters := params; body := b;
     response_id := resp |}.

Definition respond (b : string) (hs : dict string) : ResponseConfig :=
  {| headers := hs; response_body := body_of_str b; status := 200;
     seconds_delay := None; request_log_config := RequestLogConfig_default |}.

Definition server_at (url : string) (ids : gset string) : ServerConfig :=
  {| alias := None; base_url := url; requests_ids := ids;
     default_response_id := "default"; ssl_config := None |}.

Definition api_server (ids : gset string) : ServerConfig :=
  server_at "http://0.0.0.0:8080/api" ids.

Definition get_request (path : string) (query : list (string * string))
    (b : bytes) : Request :=
  {| req_method := "GET"; req_path := path; req_query_params := query;
     req_headers := []; req_body := b |}.

(** The rule [parameters={"a": "1"}] of the specification's scenario. *)
Definition rule_a1 : RequestConfig :=
  rule "/ping" (Some {["a" := "1"]}) None "pong".

(** A rule that declares the body [hello]. *)
Definition rule_hello : RequestConfig :=
  rule "/ping" None (Some (body_of_str "hello")) "pong".

Definition hello : bytes := latin1_encode "hello".

(** The requests of the scenario: [?a=1], [?a=1&b=2], no query, [?a=2]. *)
Definition request_a1 : Request := get_request "/api/ping" [("a", "1")] [].
Definition request_a1_b2 : Request :=
  get_request "/api/ping" [("a", "1"); ("b", "2")] [].
Definition request_plain : Request := get_request "/api/ping" [] [].
Definition request_a2 : Request := get_request "/api/ping" [("a", "2")] [].

(** Requests with the bodies [hello] and [world]. *)
Definition request_hello : Request := get_request "/api/ping" [] hello.
Definition request_world : Request :=
  get_request "/api/ping" [] (latin1_encode "world").

(** Two rules for the same request, declared [first] then [second]. *)
Definition rule_first : RequestConfig := rule "/ping" None None "one".
Definition rule_second : RequestConfig := rule "/ping" None None "two".

Definition raw_two_rules : RawConfig :=
  {| raw_servers :=
       [ {| raw_alias := None; raw_base_url := "http://0.0.0.0:8080/api";
            raw_requests_ids := ["first"; "second"];
            raw_default_response_id := "default"; raw_ssl_config := None |} ];
     raw_requests := {[ "first" := rule_first; "second" := rule_second ]};
     raw_responses :=
       {[ "one" := respond "1" []; "two" := respond "2" [];
          "default" := respond "" [] ]};
     raw_request_log_config := DefaultRequestLogConfig |}.

(** What [raw_two_rules] is parsed to, and what is built from it in
    [env0], whose sets are iterated in the order of [elements]: there
    the set of the two ids hands out [second] before [first], as the
    hash table of a Python set may. *)
Definition server_two_rules : ServerConfig :=
  api_server (list_to_set ["first"; "second"]).

Definition config_two_rules : Config :=
  {| servers := [server_two_rules];
     requests := raw_requests raw_two_rules;
     responses := raw_responses raw_two_rules;
     global_request_log_config := DefaultRequestLogConfig |}.

Definition route_two_rules : Route :=
  {| route_requests := [rule_second; rule_first];
     route_server := server_two_rules;
     route_responses := raw_responses raw_two_rules |}.

Definition app_two_rules : Starlette :=
  {| app_route := route_two_rules;
     app_default_response := respond "" [];
     app_server := server_two_rules |}.

(** A configuration whose server refers to a request id that is not
    described, the file it is read from and the decoder that reads
    it. *)
Definition raw_dangling : RawConfig :=
  {| raw_servers :=
       [ {| raw_alias := None; raw_base_url := "http://0.0.0.0:8080/api";
            raw_requests_ids := ["ghost"];
            raw_default_response_id := "default"; raw_ssl_config := None |} ];
     raw_requests := ∅;
     raw_responses := {[ "default" := respond "" [] ]};
     raw_request_log_config := DefaultRequestLogConfig |}.

Definition config_dangling : Config :=
  {| servers := [api_server {["ghost"]}];
     requests := ∅;
     responses := {[ "default" := respond "" [] ]};
     global_request_log_config := DefaultRequestLogConfig |}.

Definition env_dangling : Env := env_with [("cap.yml", latin1_encode "dangling")] elements.

(** A decoder that knows three texts, and listeners that survive a
    SIGTERM for two polls. *)
Definition host0 : Host :=
  {| yaml_safe_load := fun value =>
       if bool_decide (value = latin1_encode "dangling") then Some raw_dangling
       else if bool_decide (value = latin1_encode "two rules") then Some raw_two_rules
       else if bool_decide (value = latin1_encode "two rules, again")
       then Some raw_two_rules
       else None;
     term_delay := fun _ => 2%nat |}.

End Samples.
Export Samples.

(** ** Notions the properties are stated with *)

Module Notions.

(** The same rule with its [parameters] left out. *)
Definition without_parameters (rc : RequestConfig) : RequestConfig :=
  {| mapping := mapping rc; method := method rc; parameters := None;
     body := body rc; response_id := response_id rc |}.

(** Every id a server or a request refers to is described. *)
Definition references_described (c : Config) : Prop :=
  (forall s id, s ∈ servers c -> id ∈ requests_ids s -> id ∈ dom (requests c)) /\
  (forall s, s ∈ servers c -> default_response_id s ∈ dom (responses c)) /\
  (forall k r, requests c !! k = Some r -> response_id r ∈ dom (responses c)).

(** The last server of the list whose identity is [k]: the one whose
    entries stay in the dictionaries of [create_server_routes]. *)
Fixpoint last_with_identity (k : string) (servers : list ServerConfig)
    : option ServerConfig :=
  match servers with
  | [] => None
  | s :: servers' =>
      match last_with_identity k servers' with
      | Some s' => Some s'
      | None => if bool_decide (identity s = Ok k) then Some s else None
      end
  end.

(** The handler that returns the rule and the response it is called
    with. *)
Definition selected (request : Request) (rc : option RequestConfig)
    (response : ResponseConfig) (sc : ServerConfig)
    : option RequestConfig * ResponseConfig :=
  (rc, response).

(** The calls [main] makes on its [ConfigFileLoader], with the clock
    readings they see. *)
Inductive loader_call : Type :=
| DoLoad (now now' : Z)
| ResetChanged
| GetFileValue (now : Z).

(** The loader after a call; an exception leaves it as the call left
    it when it was raised. *)
Definition perform (env : Env) (c : loader_call) (self : ConfigFileLoader)
    : ConfigFileLoader :=
  match c with
  | DoLoad now now' => (do_load env now now' self).2
  | ResetChanged => reset_changed self
  | GetFileValue now => (get_file_value env now self).2
  end.

(** How many of the calls find the dirty flag down and leave it up. *)
Fixpoint flag_raises (env : Env) (calls : list loader_call)
    (self : ConfigFileLoader) : nat :=
  match calls with
  | [] => 0
  | c :: calls' =>
      let self' := perform env c self in
      ((if negb (is_changed self) && is_changed self' then 1 else 0)
       + flag_raises env calls' self')%nat
  end.

(** A base URL by its parts: the optional scheme, the host, the
    optional digits of the port and the segments of the path. *)
Record url_parts : Type := {
  up_scheme : option string;
  up_host : string;
  up_port : option string;
  up_path : list string;
}.

Definition path_text (segments : list string) : string :=
  fold_right (fun segment rest => "/" +:+ segment +:+ rest) "" segments.

Definition port_text (digits : option string) : string :=
  match digits with Some d => ":" +:+ d | None => "" end.

Definition scheme_text (scheme : option string) : string :=
  match scheme with Some s => s +:+ "://" | None => "" end.

Definition assemble (p : url_parts) : string :=
  scheme_text (up_scheme p) +:+ up_host p +:+ port_text (up_port p)
  +:+ path_text (up_path p).

(** Every character of [s] is in the class [p]. *)
Fixpoint all_chars (p : ascii -> bool) (s : string) : bool :=
  match s with
  | EmptyString => true
  | String c s' => p c && all_chars p s'
  end.

(** [s] does not begin with a character of the class [p]. *)
Definition not_starting (p : ascii -> bool) (s : string) : bool :=
  match s with
  | EmptyString => true
  | String c _ => negb (p c)
  end.

(** The parts are what the pattern and [check_base_url] ask for: a
    scheme of word characters that is [http] or [https] in any case,
    a host of word characters and dots, one to five digits of a port
    up to 65535, segments of word characters; none of them empty. *)
Definition well_formed (p : url_parts) : Prop :=
  match up_scheme p with
  | Some s =>
      s <> "" /\ all_chars is_word s = true /\
      is_Some (Schema_get_key_by_value (str_lower s))
  | None => True
  end /\
  up_host p <> "" /\ all_chars is_word_or_dot (up_host p) = true /\
  match up_port p with
  | Some d =>
      d <> "" /\ (String.length d <= 5)%nat /\ all_chars is_digit d = true /\
      int_of_digits d <= 65535
  | None => True
  end /\
  Forall (fun segment => segment <> "" /\ all_chars is_word segment = true)
         (up_path p).

(** A server with the given base URL. *)
Definition server_with_url (url : string) : ServerConfig :=
  {| alias := None; base_url := url; requests_ids := ∅;
     default_response_id := "default"; ssl_config := None |}.

(** A string of which [s'] is what is left after some prefix. *)
Definition suffix_of (s' s : string) : Prop := exists pre, s = pre +:+ s'.

(** The group 7 after the segments [segments], one after the other. *)
Definition after_segments (segments : list string) (g : groups) : groups :=
  fold_left (fun g segment => <[7%nat := "/" +:+ segment]> g) segments g.

(** The groups 4 and 5 after the port. *)
Definition after_port (digits : option string) (g : groups) : groups :=
  match digits with
  | Some d => <[4%nat := ":" +:+ d]> (<[5%nat := d]> g)
  | None => g
  end.

(** The groups 1 and 2 after the scheme. *)
Definition after_scheme (scheme : option string) (g : groups) : groups :=
  match scheme with
  | Some s => <[1%nat := s +:+ "://"]> (<[2%nat := s]> g)
  | None => g
  end.

(** Any character but the colon. *)
Definition not_colon (c : ascii) : bool := negb (Ascii.eqb c ":").

(** No suffix of [s] begins with [://]. *)
Definition separator_free (s : string) : Prop :=
  forall s', suffix_of s' s -> String.prefix "://" s' = false.

(** The groups of the match of the URL assembled from [p]. *)
Definition groups_of (p : url_parts) : groups :=
  <[6%nat := path_text (up_path p)]>
    (after_segments (up_path p)
       (after_port (up_port p)
          (<[3%nat := up_host p]> (after_scheme (up_scheme p) ∅)))).

(** From the table [t0] to the table [t] no process object was built
    and no process came alive. *)
Definition quiet (t0 t : list ServerProcess) : Prop :=
  length t = length t0 /\
  forall pid, pid_is_alive t pid = true -> pid_is_alive t0 pid = true.

(** The tables [t0] and [t] agree on their first [n] processes. *)
Definition frozen (n : nat) (t0 t : list ServerProcess) : Prop :=
  take n t = take n t0.

(** From [s] to [s'] the history grew by tables that are each in the
    relation [R] to the table of [s]. *)
Definition steps (R : list ServerProcess -> list ServerProcess -> Prop)
    (s s' : Sys) : Prop :=
  R (table s) (table s') /\
  exists new, snapshots s' = new ++ snapshots s /\ Forall (R (table s)) new.

(** No process of the table is alive. *)
Definition all_stopped (t : list ServerProcess) : Prop :=
  forall pid, pid_is_alive t pid = false.

(** Every live process is one of the controller's. *)
Definition supervised (c : ProcessesController) (s : Sys) : Prop :=
  forall pid, pid_is_alive (table s) pid = true -> pid ∈ processes c.

(** The polls still needed before every process that was sent SIGTERM
    is gone. *)
Definition pending (t : list ServerProcess) : nat :=
  foldr (fun p m => Nat.max (match proc_state p with
                             | Terminating n => S n
                             | _ => 0%nat
                             end) m) 0%nat t.

(** The polls needed to see every process of the table gone once the
    live ones are sent SIGTERM. *)
Definition patience (t : list ServerProcess) : nat :=
  foldr (fun p m => Nat.max (match proc_state p with
                             | Terminating n => S n
                             | Alive => S (exit_delay p)
                             | _ => 0%nat
                             end) m) 0%nat t.

(** No process of the controller is running without a SIGTERM sent. *)
Definition signalled (c : ProcessesController) (t : list ServerProcess) : Prop :=
  forall pid p, pid ∈ processes c -> t !! pid = Some p -> proc_state p <> Alive.

(** [headers[name]] as Starlette reads a response's raw headers: the
    value of the first entry with that name. *)
Definition raw_header_get (name : bytes) (raw : list (bytes * bytes)) : option bytes :=
  snd <$> List.find (fun kv => bool_decide (kv.1 = name)) raw.

(** The header name [content-length], as it stands in raw headers. *)
Definition content_length : bytes := latin1_encode "content-length".

(** [str(n).encode("latin-1")] *)
Definition decimal (n : nat) : bytes := latin1_encode (str_of_nat n).

(** Only the key [content-length] itself is spelled [content-length]
    in lower case. *)
Definition one_content_length (headers : dict string) : Prop :=
  forall k v, (k, v) ∈ headers -> str_lower k = "content-length" ->
              k = "content-length".

(** The response [request_response_function] builds. *)
Definition rendered (env : Env) (now : string) (logger : RequestLogger)
    (request : Request) (request_config : option RequestConfig)
    (response_config : ResponseConfig) (server_config : ServerConfig) : Response :=
  (request_response_function env now logger request request_config
     response_config server_config).1.

(** A request as [log_request] receives it, and the instant at which
    it does. *)
Record LogCall : Type := {
  call_now : string;
  call_request : Request;
  call_rule : option RequestConfig;
  call_response : ResponseConfig;
  call_server : ServerConfig;
}.

(** The body files a logger writes over a series of requests, request
    by request ([None]: no file); each request finds the counter as
    the one before it left it. *)
Fixpoint body_files (env : Env) (calls : list LogCall) (self : RequestLogger)
    : list (option (string * bytes)) :=
  match calls with
  | [] => []
  | c :: calls' =>
      let done := log_request env (call_now c) self (call_request c) (call_rule c)
                    (call_response c) (call_server c) in
      done.1.2 :: body_files env calls' done.1.1
  end.

End Notions.
Export Notions.

(** ** More concrete values *)

Module MoreSamples.

(** The parts of [localhost/api]: no scheme, no port. *)
Definition parts_bare : url_parts :=
  {| up_scheme := None; up_host := "localhost"; up_port := None;
     up_path := ["api"] |}.

(** The parts of [HTTPS://my.host:8443/api/v1]. *)
Definition parts_full : url_parts :=
  {| up_scheme := Some "HTTPS"; up_host := "my.host"; up_port := Some "8443";
     up_path := ["api"; "v1"] |}.

(** Worlds in which [cap.yml] holds one of the three texts, the state
    of [main] after its start-up on the first, and iterations of its
    loop that find the second and the third. *)
Definition env_two_rules : Env :=
  env_with [("cap.yml", latin1_encode "two rules")] elements.
Definition env_garbage : Env :=
  env_with [("cap.yml", latin1_encode "garbage")] elements.
Definition env_again : Env :=
  env_with [("cap.yml", latin1_encode "two rules, again")] elements.

Definition running0 : State := (startup host0 env_two_rules 0 "cap.yml").1.

Definition controller0 : ProcessesController := {| processes := [0%nat] |}.

Definition tick_garbage : Tick :=
  {| tick_env := env_garbage; tick_now := 3000000; tick_now' := 3000001 |}.
Definition tick_again : Tick :=
  {| tick_env := env_again; tick_now := 3000000; tick_now' := 3000001 |}.

(** [running0] after a [do_load] that found the file changed. *)
Definition polled (tick : Tick) : State :=
  with_loader
    (do_load (tick_env tick) (tick_now tick) (tick_now' tick)
       (config_loader running0)).2
    running0.

(** The states of the processes, table by table, latest first. *)
Definition states_of (st : State) : list (list proc_status) :=
  map (map proc_state) (snapshots (sys st)).

(** [polled tick_again] after its reload. *)
Definition reloaded : State :=
  (apply_changes host0 env_again 3000001 5 controller0 (polled tick_again)).1.

(** A logger whose configuration asks for bodies as [bytes], and
    requests with a JSON body, a body of two control bytes and a body
    that is not UTF-8. *)
Definition logger_bytes : RequestLogger :=
  {| request_id := 0;
     log_config :=
       {| headers_enabled := Some false; body_enabled := Some true;
          body_as_file := Some false; body_files_folder := None;
          body_type := Some BYTES; body_encoding := Some "utf-8";
          log_file := None; log_console := Some true |} |}.

Definition logger_auto : RequestLogger :=
  {| request_id := 0; log_config := DefaultRequestLogConfig |}.

Definition post_request (content_type : string) (b : bytes) : Request :=
  {| req_method := "POST"; req_path := "/api/ping"; req_query_params := [];
     req_headers := [("content-type", content_type)]; req_body := b |}.

Definition json_body : bytes := latin1_encode "{" ++ [x22; x61; x22] ++ latin1_encode ":1}".

Definition request_json : Request := post_request "application/json" json_body.
Definition request_binary : Request :=
  post_request "application/octet-stream" [x01; x02].
Definition request_not_utf8 : Request :=
  post_request "application/octet-stream" [xff; xfe].

(** The [body] entry of what [log_request] writes, if it writes. *)
Definition logged_body (outcome : RequestLogger * option (string * bytes) * LogOutcome)
    : option (option text) :=
  match outcome.2 with
  | LogWritten message _ _ => Some (msg_body message)
  | _ => None
  end.

(** The response [pong] with a [Content-Length] header of its own. *)
Definition respond_pong_length : ResponseConfig :=
  respond "pong" [("Content-Length", "0")].

(** The text [p], e with acute accent, the euro sign and a face: one
    code point for each length of a UTF-8 sequence, its encoding, and
    a response with that text for a body. *)
Definition text_four : text := [112; 233; 8364; 128512]%N.

Definition bytes_four : bytes :=
  [x70; xc3; xa9; xe2; x82; xac; xf0; x9f; x98; x80].

Definition respond_four : ResponseConfig :=
  {| headers := []; response_body :=
       {| file := None; data := DataStr text_four;
          data_encoding := Some "utf-8" |};
     status := 200; seconds_delay := None;
     request_log_config := RequestLogConfig_default |}.

(** The response [pong] with a header that is no [Content-Length]. *)
Definition respond_pong_traced : ResponseConfig :=
  respond "pong" [("X-Trace", "on")].

(** A request no rule of [app_two_rules] is written for. *)
Definition request_other : Request := get_request "/api/other" [] [].

(** The parts of [ftp://files] and of [localhost:70000/api]. *)
Definition parts_ftp : url_parts :=
  {| up_scheme := Some "ftp"; up_host := "files"; up_port := None;
     up_path := [] |}.

Definition parts_high_port : url_parts :=
  {| up_scheme := None; up_host := "localhost"; up_port := Some "70000";
     up_path := ["api"] |}.

(** The record that [logger_auto] writes for [request_json]. *)
Definition record_json : LogMessage :=
  {| msg_time := "T"; msg_server_url := "http://0.0.0.0:8080";
     msg_server_alias := None; msg_method := "POST"; msg_mapping := "/api/ping";
     msg_parameters := ∅;
     msg_headers := Some [("content-type", "application/json")];
     msg_body_file := None;
     msg_body := Some (text_of_string "{" ++ [34; 97; 34]%N ++ text_of_string ":1}") |}.

(** [main] over its start-up and one iteration of its loop that
    finds the file changed to a text the decoder rejects. *)
Definition failed_run : State * ending :=
  main host0 env_two_rules 0 "cap.yml" 5 [tick_garbage].

(** Two servers with one URL and different rules, and the
    applications built for them. *)
Definition server_first_only : ServerConfig := api_server {["first"]}.
Definition server_second_only : ServerConfig := api_server {["second"]}.

Definition config_twins : Config :=
  {| servers := [server_first_only; server_second_only];
     requests := raw_requests raw_two_rules;
     responses := raw_responses raw_two_rules;
     global_request_log_config := DefaultRequestLogConfig |}.

Definition route_twins : Route :=
  {| route_requests := [rule_second];
     route_server := server_second_only;
     route_responses := raw_responses raw_two_rules |}.

Definition app_first_only : Starlette :=
  {| app_route := route_twins; app_default_response := respond "" [];
     app_server := server_first_only |}.

Definition app_second_only : Starlette :=
  {| app_route := route_twins; app_default_response := respond "" [];
     app_server := server_second_only |}.

(** The instant of a request, as [isoformat] writes it. *)
Definition instant : string := "2024-05-01T12:00:00.000001".

(** A logger that writes every body to a file of its folder, and two
    requests that reach it at the same instant. *)
Definition logger_files : RequestLogger :=
  {| request_id := 0;
     log_config :=
       {| headers_enabled := Some false; body_enabled := Some true;
          body_as_file := Some true; body_files_folder := Some "/var/log/cap";
          body_type := None; body_encoding := None;
          log_file := None; log_console := Some true |} |}.

Definition logged_call (request : Request) : LogCall :=
  {| call_now := instant; call_request := request; call_rule := None;
     call_response := respond "" []; call_server := api_server ∅ |}.

Definition calls_twice : list LogCall :=
  [logged_call request_json; logged_call request_json].

End MoreSamples.
Export MoreSamples.

(** ** Further notions *)

Module MoreNotions.

(** The loader after a series of calls, each in the surroundings of
    its time. *)
Definition run_calls (calls : list (Env * loader_call)) (self : ConfigFileLoader)
    : ConfigFileLoader :=
  fold_left (fun self ec => perform ec.1 ec.2 self) calls self.

(** The character is no underscore. *)
Definition not_underscore (c : ascii) : bool := negb (Ascii.eqb c "_").

(** The character is no slash. *)
Definition not_slash (c : ascii) : bool := negb (Ascii.eqb c "/").

(** A process after [terminate()]: a running one is on its way out,
    any other is as it was. *)
Definition sigterm (p : ServerProcess) : ServerProcess :=
  match proc_state p with
  | Alive => with_state (Terminating (exit_delay p)) p
  | _ => p
  end.

(** The table with [terminate()] called on the processes [pids]. *)
Definition sigterm_all (pids : list nat) (t : list ServerProcess)
    : list ServerProcess :=
  imap (fun pid p => if bool_decide (pid ∈ pids) then sigterm p else p) t.

(** The parts have the form the pattern asks for: a scheme of word
    characters, a host of word characters and dots, one to five
    digits of a port, segments of word characters; none of them
    empty. *)
Definition shaped (p : url_parts) : Prop :=
  match up_scheme p with
  | Some s => s <> "" /\ all_chars is_word s = true
  | None => True
  end /\
  up_host p <> "" /\ all_chars is_word_or_dot (up_host p) = true /\
  match up_port p with
  | Some d => d <> "" /\ (String.length d <= 5)%nat /\ all_chars is_digit d = true
  | None => True
  end /\
  Forall (fun segment => segment <> "" /\ all_chars is_word segment = true)
         (up_path p).

(** The characters a base URL is made of. *)
Definition url_char (c : ascii) : bool :=
  is_word c || bool_decide (c = "."%char) || bool_decide (c = ":"%char)
  || bool_decide (c = "/"%char).

(** Every character the pattern can consume is a [url_char]. *)
Fixpoint url_regex (r : regex) : Prop :=
  match r with
  | Eps | Bol | Eol => True
  | Chr c => url_char c = true
  | Class p => forall c, p c = true -> url_char c = true
  | Cat r1 r2 => url_regex r1 /\ url_regex r2
  | Opt r1 | Star r1 | Group _ r1 => url_regex r1
  end.

End MoreNotions.
Export MoreNotions.

(** ** Tactics *)

(** [lia] with the equations of division by a constant. *)
Ltac div_lia := zify; Z.to_euclidean_division_equations; lia.

(** Rewrites the comparisons of [N] in the goal to their values. *)
Ltac decide_ltb :=
  repeat match goal with
  | |- context [(?a <? ?b)%N] =>
      first [ rewrite (proj2 (N.ltb_lt a b)) by div_lia
            | rewrite (proj2 (N.ltb_ge a b)) by div_lia ]
  | |- context [(?a <=? ?b)%N] =>
      first [ rewrite (proj2 (N.leb_le a b)) by div_lia
            | rewrite (proj2 (N.leb_gt a b)) by div_lia ]
  end.

(* ================================================================== *)
(** * Part II -- properties                                            *)
(* ================================================================== *)

(** ** Request matching: [is_request_fit] *)

Section Matching.

Context (env : Env).

(** What a fitting request has passed. *)
Lemma is_request_fit_true_inv request request_config server_config :
  is_request_fit env request request_config server_config = Ok true ->
  req_method request = RequestMethod_value (method request_config) /\
  (exists base, base_mapping server_config = Ok base /\
                req_path request = base +:+ mapping request_config) /\
  (forall p, parameters request_config = Some p ->
             p = request_params_to_dict request) /\
  body request_config = None.
Proof.
  unfold is_request_fit. intros H.
  case_bool_decide as Hm; simpl in H; [|discriminate].
  destruct (base_mapping server_config) as [base|e]; simpl in H; [|discriminate].
  case_bool_decide as Hp; simpl in H; [|discriminate].
  split; [done|]. split; [eauto|].
  destruct (parameters request_config) as [p|].
  - case_bool_decide as Hq; simpl in H; [|discriminate].
    destruct (body request_config); simpl in H; [discriminate|].
    split; [|done]. by intros p' [= <-].
  - destruct (body request_config); simpl in H; [discriminate|].
    split; [|done]. intros p' [=].
Qed.

End Matching.

Section MatchingClaims.

Context (env : Env).

Lemma is_request_fit_without_parameters request rc sc p :
  parameters rc = Some p ->
  is_request_fit env request rc sc =
    match is_request_fit env request (without_parameters rc) sc with
    | Ok true => Ok (bool_decide (p = request_params_to_dict request))
    | other => other
    end.
Proof.
  intros Hp. unfold is_request_fit, without_parameters; simpl. rewrite Hp.
  case_bool_decide; simpl; [|done].
  destruct (base_mapping sc); simpl; [|done].
  case_bool_decide; simpl; [|done].
  case_bool_decide; simpl;
    destruct (body rc) as [b|]; simpl; try destruct (py_ne _ _); done.
Qed.

(** C2, as amended: a rule that declares [parameters] fits exactly
    when it fits with the declaration left out and the dictionary of
    the inbound query parameters is equal to the declared dictionary;
    an inbound parameter the rule does not list makes it fail. *)
Theorem C2_parameters_equal_the_query request rc sc p :
  parameters rc = Some p ->
  is_request_fit env request rc sc = Ok true <->
  is_request_fit env request (without_parameters rc) sc = Ok true /\
  request_params_to_dict request = p.
Proof.
  intros Hp. rewrite (is_request_fit_without_parameters _ _ _ _ Hp).
  destruct (is_request_fit env request (without_parameters rc) sc) as [[]|e].
  - destruct (decide (p = request_params_to_dict request)) as [->|Hne].
    + rewrite bool_decide_eq_true_2 by done. done.
    + rewrite bool_decide_eq_false_2 by done.
      split; [discriminate|]. intros [_ Heq]. by destruct Hne.
  - split; [discriminate|]. intros [[=] _].
  - split; [discriminate|]. intros [[=] _].
Qed.

(** A rule that declares a body never fits: the coroutine that
    [request.body()] returns is no [bytes] object. *)
Lemma is_request_fit_with_body request rc sc b :
  body rc = Some b -> is_request_fit env request rc sc <> Ok true.
Proof.
  intros Hb H. apply is_request_fit_true_inv in H as (_ & _ & _ & Hnone).
  congruence.
Qed.

(** C4: a rule that declares a body does not fit a request whose body
    bytes differ from the bytes of the declared body. *)
Theorem C4_different_body_does_not_fit request rc sc b :
  body rc = Some b ->
  req_body request <> HttpBody_bytes env b ->
  is_request_fit env request rc sc <> Ok true.
Proof.
  intros Hb _. by apply is_request_fit_with_body with b.
Qed.

End MatchingClaims.

Lemma C2_parameters_equal_the_query_witness :
  is_request_fit env0 request_a1 rule_a1 (api_server ∅) = Ok true <->
  is_request_fit env0 request_a1 (without_parameters rule_a1) (api_server ∅)
    = Ok true /\
  request_params_to_dict request_a1 = {["a" := "1"]}.
Proof.
  apply (C2_parameters_equal_the_query env0 request_a1 rule_a1 (api_server ∅)).
  reflexivity.
Defined.

(** C2, as stated, fails: the request [?a=1&b=2] carries the declared
    pair and passes every other test of the rule [parameters={"a":
    "1"}], and the rule does not fit it. *)
Lemma C2_extra_parameter_is_not_ignored :
  request_params_to_dict request_a1_b2 !! "a" = Some "1" /\
  is_request_fit env0 request_a1_b2 (without_parameters rule_a1) (api_server ∅)
    = Ok true /\
  is_request_fit env0 request_a1_b2 rule_a1 (api_server ∅) = Ok false.
Proof. repeat split; vm_compute; reflexivity. Qed.

(** The rest of the scenario: the rule fits [?a=1] and fits neither a
    request without [a] nor [?a=2]. *)
Example parameters_scenario :
  is_request_fit env0 request_a1 rule_a1 (api_server ∅) = Ok true /\
  is_request_fit env0 request_plain rule_a1 (api_server ∅) = Ok false /\
  is_request_fit env0 request_a2 rule_a1 (api_server ∅) = Ok false.
Proof. repeat split; vm_compute; reflexivity. Qed.

Lemma C4_different_body_does_not_fit_witness :
  is_request_fit env0 request_world rule_hello (api_server ∅) <> Ok true.
Proof.
  apply (C4_different_body_does_not_fit env0 request_world rule_hello
           (api_server ∅) (body_of_str "hello")).
  - reflexivity.
  - vm_compute. discriminate.
Defined.

(** Even the request whose body is the declared one is turned away. *)
Example declared_body_never_fits :
  req_body request_hello = HttpBody_bytes env0 (body_of_str "hello") /\
  is_request_fit env0 request_hello rule_hello (api_server ∅) = Ok false.
Proof. split; vm_compute; reflexivity. Qed.

(** ** Dictionaries and comprehensions *)

Section Containers.

Context {V : Type}.

Lemma dict_get_set (d : dict V) k v k' :
  dict_get (dict_set d k v) k' = if decide (k = k') then Some v else dict_get d k'.
Proof.
  induction d as [|[k0 v0] d IH]; simpl.
  - by repeat case_decide.
  - destruct (decide (k0 = k)) as [->|Hne]; simpl.
    + by repeat case_decide.
    + rewrite IH. repeat case_decide; congruence.
Qed.

Lemma dict_set_elem (d : dict V) k v : (k, v) ∈ dict_set d k v.
Proof.
  induction d as [|[k0 v0] d IH]; simpl.
  - apply list_elem_of_here.
  - case_decide; [apply list_elem_of_here|by apply list_elem_of_further].
Qed.

(** [dict_set] leaves the entries under other keys as they are and
    adds none under them. *)
Lemma dict_set_elem_other (d : dict V) k v k' v' :
  k' <> k -> (k', v') ∈ dict_set d k v <-> (k', v') ∈ d.
Proof.
  intros Hne. induction d as [|[k0 v0] d IH]; simpl.
  - rewrite list_elem_of_singleton. split; [intros [= -> _]; done|].
    by intros ?%elem_of_nil.
  - case_decide as Hk; subst; rewrite !elem_of_cons.
    + split; (intros [[= -> _]|?]; [done|by right]).
    + rewrite IH. done.
Qed.

Lemma map_result_Forall2 {A B} (f : A -> result B) l rs :
  map_result f l = Ok rs <-> Forall2 (fun x r => f x = Ok r) l rs.
Proof.
  revert rs. induction l as [|x l IH]; intros rs; simpl.
  - split; [intros [= <-]; constructor|by intros ->%Forall2_nil_inv_l].
  - destruct (f x) as [y|e] eqn:Hx; simpl.
    + destruct (map_result f l) as [ys|e] eqn:Hl; simpl.
      * split.
        -- intros [= <-]. constructor; [done|by apply IH].
        -- intros (y' & ys' & Hy & Hys & ->)%Forall2_cons_inv_l.
           apply IH in Hys. congruence.
      * split; [done|].
        intros (y' & ys' & Hy & Hys & ->)%Forall2_cons_inv_l.
        apply IH in Hys. congruence.
    + split; [done|].
      intros (y' & ys' & Hy & Hys & ->)%Forall2_cons_inv_l. congruence.
Qed.

End Containers.

(** ** The order in which rules are tried *)

Section RuleOrder.

Context (env : Env).



Lemma servers_requests_of_spec config servers acc d k :
  servers_requests_of env config servers acc = Ok d ->
  match last_with_identity k servers with
  | Some s =>
      exists rules,
        map_result (getitem (requests config)) (set_iter env (requests_ids s))
          = Ok rules /\
        dict_get d k = Some rules
  | None => dict_get d k = dict_get acc k
  end.
Proof.
  revert acc. induction servers as [|s servers IH]; intros acc; simpl.
  - by intros [= ->].
  - destruct (identity s) as [id|e] eqn:Hid; simpl; [|done].
    destruct (map_result _ _) as [rules|e] eqn:Hrules; simpl; [|done].
    intros Hd. specialize (IH _ Hd).
    destruct (last_with_identity k servers) as [s'|]; [done|].
    rewrite IH, dict_get_set.
    case_bool_decide as Hk.
    + injection Hk as ->. rewrite decide_True by done. eauto.
    + rewrite decide_False; [done|]. intros ->. by destruct Hk.
Qed.

Lemma server_routes_of_spec config sr servers acc routes k :
  server_routes_of config sr servers acc = Ok routes ->
  match last_with_identity k servers with
  | Some s =>
      exists server_requests,
        dict_get sr k = Some server_requests /\
        dict_get routes k =
          Some {| route_requests := server_requests; route_server := s;
                  route_responses := responses config |}
  | None => dict_get routes k = dict_get acc k
  end.
Proof.
  revert acc. induction servers as [|s servers IH]; intros acc; simpl.
  - by intros [= ->].
  - destruct (identity s) as [id|e] eqn:Hid; simpl; [|done].
    destruct (dict_get sr id) as [server_requests|] eqn:Hsr; [|done].
    intros Hd. specialize (IH _ Hd).
    destruct (last_with_identity k servers) as [s'|]; [done|].
    rewrite IH, dict_get_set.
    case_bool_decide as Hk.
    + injection Hk as ->. rewrite decide_True by done. eauto.
    + rewrite decide_False; [done|]. intros ->. by destruct Hk.
Qed.

(** The route stored under an identity belongs to the last server
    with that identity, and its rules are those of that server's ids
    in the order in which the set hands them out. *)
Lemma create_server_routes_spec config routes k route :
  create_server_routes env config = Ok routes ->
  dict_get routes k = Some route ->
  last_with_identity k (servers config) = Some (route_server route) /\
  map_result (getitem (requests config))
    (set_iter env (requests_ids (route_server route)))
    = Ok (route_requests route) /\
  route_responses route = responses config.
Proof.
  unfold create_server_routes.
  destruct (servers_requests_of _ _ _ _) as [sr|e] eqn:Hsr; simpl; [|done].
  intros Hroutes Hk.
  pose proof (servers_requests_of_spec _ _ _ _ k Hsr) as H1.
  pose proof (server_routes_of_spec _ _ _ _ _ k Hroutes) as H2.
  destruct (last_with_identity k (servers config)) as [s|].
  - destruct H1 as (rules & Hrules & Hget), H2 as (rules' & Hget' & Hroute).
    rewrite Hk in Hroute. injection Hroute as ->. simpl.
    rewrite Hget in Hget'. injection Hget' as <-. done.
  - simpl in H2. congruence.
Qed.

End RuleOrder.

Section RuleOrderOfRoutes.

Context (env : Env).


End RuleOrderOfRoutes.

(** The set cannot give back the order of declaration: two
    declarations of the same ids in different orders are parsed to
    the same set, so whatever the order in which sets are iterated,
    some declaration of a server is iterated in another order than it
    was written in. *)
Lemma set_order_forgets_declaration (env : Env) :
  exists raw server,
    ServerConfig_parse_obj raw = Ok server /\
    NoDup (raw_requests_ids raw) /\
    set_iter env (requests_ids server) <> raw_requests_ids raw.
Proof.
  pose (declare ids :=
          {| raw_alias := None; raw_base_url := "http://0.0.0.0:8080/api";
             raw_requests_ids := ids; raw_default_response_id := "default";
             raw_ssl_config := None |}).
  assert (Hparse : forall ids,
             ServerConfig_parse_obj (declare ids) = Ok (api_server (list_to_set ids))).
  { intros ids. unfold ServerConfig_parse_obj, declare. cbn [raw_base_url].
    replace (check_base_url "http://0.0.0.0:8080/api")
      with (Ok "http://0.0.0.0:8080/api" : result string)
      by (vm_compute; reflexivity).
    reflexivity. }
  assert (Hnodup : forall a b : string, a <> b -> NoDup [a; b]).
  { intros a b Hab. apply NoDup_cons. split; [|apply NoDup_singleton].
    by rewrite list_elem_of_singleton. }
  destruct (decide (set_iter env (list_to_set ["first"; "second"])
                    = ["first"; "second"])) as [Heq|Hne].
  - exists (declare ["second"; "first"]), (api_server (list_to_set ["second"; "first"])).
    split; [apply Hparse|]. split; [by apply Hnodup|].
    unfold api_server, server_at, declare. cbn [requests_ids raw_requests_ids].
    replace (list_to_set ["second"; "first"] : gset string)
      with (list_to_set ["first"; "second"] : gset string) by set_solver.
    rewrite Heq. discriminate.
  - exists (declare ["first"; "second"]), (api_server (list_to_set ["first"; "second"])).
    split; [apply Hparse|]. split; [by apply Hnodup|]. done.
Qed.


(** ** Validation of the cross references *)

Section Validation.

Context (env : Env).

(** What the loop over the servers of [validate_request_response_ids]
    collects. *)
Lemma collect_servers (servers : list ServerConfig) (sr0 rr0 sr rr : gset string) :
  fold_left (fun '(server_requests, request_responses) server =>
               (server_requests ∪ requests_ids server,
                request_responses ∪ {[default_response_id server]}))
            servers (sr0, rr0) = (sr, rr) ->
  (forall id, id ∈ sr <->
      id ∈ sr0 \/ exists s, s ∈ servers /\ id ∈ requests_ids s) /\
  (forall id, id ∈ rr <->
      id ∈ rr0 \/ exists s, s ∈ servers /\ id = default_response_id s).
Proof.
  revert sr0 rr0. induction servers as [|s servers IH]; intros sr0 rr0; simpl.
  - intros [= <- <-]. split; intros id; split; auto.
    + intros [?|(s & Hs & _)]; [done|by apply elem_of_nil in Hs].
    + intros [?|(s & Hs & _)]; [done|by apply elem_of_nil in Hs].
  - intros H. apply IH in H as [Hsr Hrr]. split; intros id.
    + rewrite Hsr, elem_of_union. split.
      * intros [[?|?]|(s' & ? & ?)]; [by left| |].
        -- right. exists s. split; [apply list_elem_of_here|done].
        -- right. exists s'. split; [by apply list_elem_of_further|done].
      * intros [?|(s' & [->|?]%elem_of_cons & ?)]; [by left; left|by left; right|].
        right. by exists s'.
    + rewrite Hrr, elem_of_union, elem_of_singleton. split.
      * intros [[?|?]|(s' & ? & ?)]; [by left| |].
        -- right. exists s. split; [apply list_elem_of_here|done].
        -- right. exists s'. split; [by apply list_elem_of_further|done].
      * intros [?|(s' & [->|?]%elem_of_cons & ?)]; [by left; left|by left; right|].
        right. by exists s'.
Qed.

(** What the loop over the requests adds. *)
Lemma collect_requests (items : list (string * RequestConfig)) (rr0 : gset string) id :
  id ∈ fold_left (fun request_responses request =>
                    request_responses ∪ {[response_id request.2]}) items rr0 <->
  id ∈ rr0 \/ exists kr, kr ∈ items /\ id = response_id kr.2.
Proof.
  revert rr0. induction items as [|kr items IH]; intros rr0; simpl.
  - split; [by left|]. intros [?|(kr & Hkr & _)]; [done|by apply elem_of_nil in Hkr].
  - rewrite IH, elem_of_union, elem_of_singleton. split.
    + intros [[?|?]|(kr' & ? & ?)]; [by left| |].
      * right. exists kr. split; [apply list_elem_of_here|done].
      * right. exists kr'. split; [by apply list_elem_of_further|done].
    + intros [?|(kr' & [->|?]%elem_of_cons & ?)]; [by left; left|by left; right|].
      right. by exists kr'.
Qed.

Lemma size_zero_subseteq (X Y : gset string) :
  Nat.eqb (size (X ∖ Y)) 0 = true <-> X ⊆ Y.
Proof.
  rewrite Nat.eqb_eq, size_empty_iff. split.
  - intros Hempty x Hx. destruct (decide (x ∈ Y)) as [|Hy]; [done|].
    exfalso. apply (not_elem_of_empty (C:=gset string) x).
    rewrite <- Hempty. by apply elem_of_difference.
  - intros Hsub x. rewrite elem_of_difference. split.
    + intros [Hx Hy]. by destruct Hy; apply Hsub.
    + by intros ?%not_elem_of_empty.
Qed.

(** The check of the ids passes exactly on the configurations whose
    references are all described. *)
Lemma validate_request_response_ids_iff config :
  validate_request_response_ids env config = Ok tt <-> references_described config.
Proof.
  unfold validate_request_response_ids, references_described.
  destruct (fold_left _ (servers config) _) as [sr rr] eqn:Hfold.
  apply collect_servers in Hfold as [Hsr Hrr].
  destruct (Nat.eqb (size (sr ∖ dom (requests config))) 0) eqn:Hreq; simpl.
  - apply size_zero_subseteq in Hreq.
    match goal with |- context [Nat.eqb (size (?X ∖ ?Y)) 0] =>
      destruct (Nat.eqb (size (X ∖ Y)) 0) eqn:Hresp end; simpl.
    + apply size_zero_subseteq in Hresp. split; [intros _|done].
      split; [|split].
      * intros s id Hs Hid. apply Hreq, Hsr. right. eauto.
      * intros s Hs. apply Hresp, collect_requests. left.
        apply Hrr. right. eauto.
      * intros k r Hk. apply Hresp, collect_requests. right.
        exists (k, r). split; [by apply elem_of_map_to_list|done].
    + split; [done|]. intros (_ & Hdef & Hrid).
      assert (Hsub : forall id,
        id ∈ fold_left (fun request_responses request =>
                          request_responses ∪ {[response_id request.2]})
               (map_to_list (requests config)) rr -> id ∈ dom (responses config)).
      { intros id [Hin|([k r] & Hkr & ->)]%collect_requests.
        - apply Hrr in Hin as [Hin|(s & Hs & ->)]; [set_solver|by apply Hdef].
        - apply elem_of_map_to_list in Hkr. by eapply Hrid. }
      apply (size_zero_subseteq _ _) in Hsub. congruence.
  - split; [done|]. intros (Hids & _).
    assert (Hsub : sr ⊆ dom (requests config)).
    { intros id [Hin|(s & Hs & Hid)]%Hsr; [set_solver|by eapply Hids]. }
    apply size_zero_subseteq in Hsub. congruence.
Qed.

Lemma validate_Ok config :
  validate env config = Ok tt -> references_described config.
Proof.
  unfold validate.
  destruct (for_each _ _) as [[]|e]; simpl; [|done].
  apply validate_request_response_ids_iff.
Qed.

Lemma validate_Raise config :
  ~ references_described config -> exists e, validate env config = Raise e.
Proof.
  intros Hnot. unfold validate.
  destruct (for_each _ _) as [[]|e]; simpl; [|eauto].
  destruct (validate_request_response_ids env config) as [[]|e] eqn:Hv; [|eauto].
  by apply validate_request_response_ids_iff in Hv.
Qed.

End Validation.

Section ValidationClaims.

Context (env : Env).

(** C5: validation succeeds only on a configuration in which every
    request id of a server is a key of [requests] and every response
    id of a request or of a server default is a key of [responses];
    on any other configuration validation raises, and [main] ends
    with that exception without a single process object built or
    started. *)
Theorem C5_undescribed_ids_are_rejected config :
  (validate env config = Ok tt -> references_described config) /\
  (forall h now args_c fuel ticks value raw,
     read_file env args_c = Some value ->
     yaml_safe_load h value = Some raw ->
     Config_parse_obj env raw = Ok config ->
     ~ references_described config ->
     (exists e, validate env config = Raise e) /\
     exists st e, main h env now args_c fuel ticks = (st, Raised e) /\
                  snapshots (sys st) = [[]]).
Proof.
  split; [apply validate_Ok|].
  intros h now args_c fuel ticks value raw Hread Hyaml Hparse Hnot.
  destruct (validate_Raise env config Hnot) as [e He].
  split; [eauto|].
  unfold main, startup, load_config, get_file_value, read_file_of,
    parse_from_yaml, parse_config; simpl.
  rewrite Hread; simpl. rewrite Hyaml; simpl. rewrite Hparse; simpl.
  rewrite He; simpl.
  destruct e; simpl; eauto.
Qed.

End ValidationClaims.

Lemma C5_undescribed_ids_are_rejected_witness :
  references_described config_two_rules /\
  exists st e, main host0 env_dangling 0 "cap.yml" 5 [] = (st, Raised e) /\
               snapshots (sys st) = [[]].
Proof.
  split.
  - apply (C5_undescribed_ids_are_rejected env0 config_two_rules).
    vm_compute. reflexivity.
  - apply (C5_undescribed_ids_are_rejected env_dangling config_dangling)
      with (value := latin1_encode "dangling") (raw := raw_dangling).
    + vm_compute. reflexivity.
    + vm_compute. reflexivity.
    + vm_compute. reflexivity.
    + intros (Hids & _).
      specialize (Hids (api_server {["ghost"]}) "ghost").
      simpl in Hids. rewrite dom_empty_L in Hids.
      apply (not_elem_of_empty (C:=gset string) "ghost"), Hids.
      * apply list_elem_of_here.
      * by apply elem_of_singleton.
Defined.

(** ** Polling the configuration file *)

Section Polling.

Context (env : Env).

Lemma perform_filename c self : filename (perform env c self) = filename self.
Proof.
  destruct c as [now now'| |now]; simpl; [| done |].
  - unfold do_load. destruct (do_load_due now self) as [[]|]; simpl; [|done..].
    unfold read_file_of. simpl. by destruct (read_file env (filename self)).
  - unfold get_file_value. destruct (cached_value self); [done|].
    unfold read_file_of. simpl. by destruct (read_file env (filename self)).
Qed.

(** While the file cannot be read no call raises the flag. *)
Lemma perform_unreadable c self :
  read_file env (filename self) = None ->
  is_changed (perform env c self) = true -> is_changed self = true.
Proof.
  intros Hread. destruct c as [now now'| |now]; simpl; [| done |].
  - unfold do_load. destruct (do_load_due now self) as [[]|]; simpl; [|done..].
    unfold read_file_of. simpl. by rewrite Hread.
  - unfold get_file_value. destruct (cached_value self); [done|].
    unfold read_file_of. simpl. by rewrite Hread.
Qed.

(** Once the stored hash is that of the file's bytes, it stays so and
    no call raises the flag. *)
Lemma perform_synced c self content :
  read_file env (filename self) = Some content ->
  file_hash self = Some (calculate_hash env content) ->
  file_hash (perform env c self) = Some (calculate_hash env content) /\
  (is_changed (perform env c self) = true -> is_changed self = true).
Proof.
  intros Hread Hhash. destruct c as [now now'| |now]; simpl; [| done |].
  - unfold do_load. destruct (do_load_due now self) as [[]|]; simpl; [|done..].
    unfold read_file_of. simpl. rewrite Hread. simpl.
    rewrite Hhash, bool_decide_eq_true_2 by done. done.
  - unfold get_file_value. destruct (cached_value self); [done|].
    unfold read_file_of. simpl. rewrite Hread. done.
Qed.

(** A call that raises the flag stores the hash of the file's bytes. *)
Lemma perform_raise_syncs c self content :
  read_file env (filename self) = Some content ->
  is_changed self = false ->
  is_changed (perform env c self) = true ->
  file_hash (perform env c self) = Some (calculate_hash env content).
Proof.
  intros Hread Hdown. destruct c as [now now'| |now]; simpl; [| done |].
  - unfold do_load. destruct (do_load_due now self) as [[]|]; simpl;
      [|intros; congruence..].
    unfold read_file_of. simpl. rewrite Hread. simpl.
    case_bool_decide; simpl; [intros; congruence|done].
  - unfold get_file_value. destruct (cached_value self); simpl;
      [intros; congruence|].
    unfold read_file_of. simpl. rewrite Hread. simpl. intros; congruence.
Qed.

Lemma flag_raises_unreadable calls self :
  read_file env (filename self) = None -> flag_raises env calls self = 0%nat.
Proof.
  revert self. induction calls as [|c calls IH]; intros self Hread; simpl; [done|].
  rewrite IH by (by rewrite perform_filename).
  destruct (is_changed self) eqn:Hc; simpl; [done|].
  destruct (is_changed (perform env c self)) eqn:Hc'; [|done].
  apply perform_unreadable in Hc'; congruence.
Qed.

Lemma flag_raises_synced calls self content :
  read_file env (filename self) = Some content ->
  file_hash self = Some (calculate_hash env content) ->
  flag_raises env calls self = 0%nat.
Proof.
  revert self. induction calls as [|c calls IH]; intros self Hread Hhash; simpl; [done|].
  destruct (perform_synced c self content Hread Hhash) as [Hhash' Hflag].
  rewrite IH by (by rewrite ?perform_filename).
  destruct (is_changed self) eqn:Hc; simpl; [done|].
  destruct (is_changed (perform env c self)) eqn:Hc'; [|done].
  by specialize (Hflag eq_refl).
Qed.

Lemma flag_raises_at_most_once calls self :
  (flag_raises env calls self <= 1)%nat.
Proof.
  destruct (read_file env (filename self)) as [content|] eqn:Hread;
    [|rewrite flag_raises_unreadable by done; lia].
  revert self Hread. induction calls as [|c calls IH]; intros self Hread; simpl; [lia|].
  destruct (negb (is_changed self) && is_changed (perform env c self)) eqn:Hup.
  - apply andb_true_iff in Hup as [Hdown%negb_true_iff Hup].
    rewrite (flag_raises_synced calls _ content); [lia|by rewrite perform_filename|].
    by apply perform_raise_syncs.
  - specialize (IH (perform env c self)). rewrite perform_filename in IH.
    specialize (IH Hread). lia.
Qed.

(** C9: over any sequence of calls on the loader during which the
    file holds the same bytes, the dirty flag goes up at most once;
    and a [do_load] that finds the hash of the file's bytes already
    stored leaves the flag as it is. *)
Theorem C9_unchanged_content_raises_flag_once :
  (forall calls self, (flag_raises env calls self <= 1)%nat) /\
  (forall now now' self content,
     read_file env (filename self) = Some content ->
     file_hash self = Some (calculate_hash env content) ->
     is_changed (do_load env now now' self).2 = is_changed self).
Proof.
  split; [apply flag_raises_at_most_once|].
  intros now now' self content Hread Hhash.
  unfold do_load. destruct (do_load_due now self) as [[]|]; simpl; [|done..].
  unfold read_file_of. simpl. rewrite Hread. simpl.
  by rewrite Hhash, bool_decide_eq_true_2.
Qed.

End Polling.

(** ** The matcher on inputs of a known shape *)

Section Matcher.

Context (input : string).

#[local] Arguments rmatch : simpl never.
#[local] Arguments star_loop : simpl never.

Lemma append_cons c (a b : string) : String c a +:+ b = String c (a +:+ b).
Proof. done. Qed.

Lemma append_nil (b : string) : "" +:+ b = b.
Proof. done. Qed.

Lemma string_length_app (a b : string) :
  String.length (a +:+ b) = (String.length a + String.length b)%nat.
Proof. induction a as [|c a IH]; simpl; [done|by rewrite IH]. Qed.

Lemma consumed_app (w s : string) : consumed (w +:+ s) s = w.
Proof.
  unfold consumed. rewrite string_length_app.
  replace (String.length w + String.length s - String.length s)%nat
    with (String.length w) by lia.
  induction w as [|c w IH]; simpl.
  - by destruct s.
  - by rewrite IH.
Qed.

Lemma rmatch_Class_cons p c s g k :
  rmatch input (Class p) (String c s) g k = if p c then k s g else None.
Proof. done. Qed.

Lemma rmatch_Chr_cons c c' s g k :
  rmatch input (Chr c) (String c' s) g k = if decide (c = c') then k s g else None.
Proof. done. Qed.

Lemma rmatch_Cat r1 r2 s g k :
  rmatch input (Cat r1 r2) s g k
  = rmatch input r1 s g (fun s' g' => rmatch input r2 s' g' k).
Proof. done. Qed.

Lemma rmatch_Opt r s g k :
  rmatch input (Opt r) s g k
  = match rmatch input r s g k with Some found => Some found | None => k s g end.
Proof. done. Qed.

Lemma rmatch_Star r s g k :
  rmatch input (Star r) s g k = star_loop (rmatch input r) k (String.length s) s g.
Proof. done. Qed.

Lemma rmatch_Group n r s g k :
  rmatch input (Group n r) s g k
  = rmatch input r s g (fun s' g' => k s' (<[n := consumed s s']> g')).
Proof. done. Qed.

Lemma star_loop_S m k fuel s g :
  star_loop m k (S fuel) s g
  = match m s g (fun s' g' =>
            if Nat.ltb (String.length s') (String.length s)
            then star_loop m k fuel s' g' else None) with
    | Some found => Some found
    | None => k s g
    end.
Proof. done. Qed.

Lemma rmatch_Lit w s g k :
  rmatch input (Lit w) (w +:+ s) g k = k s g.
Proof.
  induction w as [|c w IH]; [done|].
  cbn [Lit]. rewrite append_cons, rmatch_Cat, rmatch_Chr_cons.
  by rewrite decide_True.
Qed.

(** A literal fails where the input does not begin with it. *)
Lemma rmatch_Lit_None w s g k :
  String.prefix w s = false -> rmatch input (Lit w) s g k = None.
Proof.
  revert s. induction w as [|c w IH]; intros [|c' s]; try done.
  cbn [Lit String.prefix]. rewrite rmatch_Cat, rmatch_Chr_cons.
  destruct (Ascii.ascii_dec c c') as [->|Hne].
  - intros ?. rewrite decide_True by done. by apply IH.
  - intros _. by rewrite decide_False.
Qed.

Lemma rmatch_Class_not_starting p s g k :
  not_starting p s = true -> rmatch input (Class p) s g k = None.
Proof.
  destruct s as [|c s]; [done|].
  rewrite rmatch_Class_cons. simpl. by intros ->%negb_true_iff.
Qed.

(** The loop of [[p]*] takes the whole run of class characters when
    the continuation accepts what follows it. *)
Lemma star_class_greedy p k w s g fuel :
  all_chars p w = true ->
  not_starting p s = true ->
  (String.length (w +:+ s) <= fuel)%nat ->
  is_Some (k s g) ->
  star_loop (rmatch input (Class p)) k fuel (w +:+ s) g = k s g.
Proof.
  intros Hw Hs. revert fuel.
  induction w as [|c w IH]; intros fuel Hfuel Hk;
    rewrite ?append_nil, ?append_cons in *.
  - destruct fuel as [|fuel]; [done|]. rewrite star_loop_S.
    by rewrite rmatch_Class_not_starting.
  - simpl in Hw. apply andb_true_iff in Hw as [Hc Hw].
    destruct fuel as [|fuel]; [simpl in Hfuel; lia|].
    rewrite star_loop_S, rmatch_Class_cons, Hc.
    assert (Hlt : Nat.ltb (String.length (w +:+ s))
                    (String.length (String c (w +:+ s))) = true)
      by (apply Nat.ltb_lt; simpl; lia).
    rewrite Hlt. rewrite IH by (done || simpl in Hfuel; lia).
    by destruct Hk as [x ->].
Qed.

Lemma rmatch_Plus_class p k w s g :
  w <> "" ->
  all_chars p w = true ->
  not_starting p s = true ->
  is_Some (k s g) ->
  rmatch input (Plus (Class p)) (w +:+ s) g k = k s g.
Proof.
  intros Hne Hw Hs Hk. destruct w as [|c w]; [done|]. simpl in Hw.
  apply andb_true_iff in Hw as [Hc Hw].
  unfold Plus.
  rewrite append_cons, rmatch_Cat, rmatch_Class_cons, Hc, rmatch_Star.
  by apply star_class_greedy.
Qed.

Lemma suffix_of_refl s : suffix_of s s.
Proof. by exists "". Qed.

Lemma suffix_of_tail c s' s : suffix_of s' s -> suffix_of s' (String c s).
Proof. intros [pre ->]. by exists (String c pre). Qed.

(** The loop of [[p]*] fails when the continuation fails at every
    suffix of the input. *)
Lemma star_class_fail p k fuel s g :
  (forall s', suffix_of s' s -> k s' g = None) ->
  star_loop (rmatch input (Class p)) k fuel s g = None.
Proof.
  revert s. induction fuel as [|fuel IH]; intros s Hk.
  - apply Hk, suffix_of_refl.
  - rewrite star_loop_S, (Hk s) by apply suffix_of_refl.
    destruct s as [|c s]; [done|]. rewrite rmatch_Class_cons.
    destruct (p c); [|done].
    destruct (Nat.ltb _ _); [|done].
    rewrite IH; [done|]. intros s' Hs'. by apply Hk, suffix_of_tail.
Qed.

Lemma rmatch_Plus_class_fail p k s g :
  (forall s', suffix_of s' s -> k s' g = None) ->
  rmatch input (Plus (Class p)) s g k = None.
Proof.
  intros Hk. unfold Plus. rewrite rmatch_Cat.
  destruct s as [|c s]; [done|]. rewrite rmatch_Class_cons.
  destruct (p c); [|done]. rewrite rmatch_Star.
  apply star_class_fail. intros s' Hs'. by apply Hk, suffix_of_tail.
Qed.

(** [[p]{0,n}] takes a run of at most [n] class characters whole. *)
Lemma rmatch_UpTo_class p k n w s g :
  all_chars p w = true ->
  (String.length w <= n)%nat ->
  not_starting p s = true ->
  is_Some (k s g) ->
  rmatch input (UpTo n (Class p)) (w +:+ s) g k = k s g.
Proof.
  intros Hw Hn Hs Hk. revert w Hw Hn.
  induction n as [|n IH]; intros w Hw Hn.
  - destruct w; simpl in Hn; [done|lia].
  - cbn [UpTo]. rewrite rmatch_Opt, rmatch_Cat.
    destruct w as [|c w]; simpl in Hw, Hn; rewrite ?append_nil, ?append_cons.
    + by rewrite rmatch_Class_not_starting.
    + apply andb_true_iff in Hw as [Hc Hw]. rewrite rmatch_Class_cons, Hc.
      rewrite IH by (done || lia). by destruct Hk as [x ->].
Qed.

Lemma append_assoc (a b c : string) : (a +:+ b) +:+ c = a +:+ (b +:+ c).
Proof. induction a as [|x a IH]; [done|]. by rewrite !append_cons, IH. Qed.

Lemma append_empty_r (a : string) : a +:+ "" = a.
Proof. induction a as [|x a IH]; [done|]. by rewrite append_cons, IH. Qed.

Lemma consumed_all (s : string) : consumed s "" = s.
Proof.
  rewrite <- (append_empty_r s) at 1. apply consumed_app.
Qed.

Lemma after_segments_lookup segments g n :
  n <> 7%nat -> after_segments segments g !! n = g !! n.
Proof.
  intros Hn. revert g. induction segments as [|seg segments IH]; intros g; [done|].
  simpl. rewrite IH. by rewrite lookup_insert_ne.
Qed.

Lemma not_starting_path p segments :
  p "/"%char = false -> not_starting p (path_text segments) = true.
Proof. intros Hp. destruct segments; simpl; [done|]. by rewrite Hp. Qed.

Lemma path_star k segments g fuel :
  Forall (fun segment => segment <> "" /\ all_chars is_word segment = true) segments ->
  (String.length (path_text segments) <= fuel)%nat ->
  is_Some (k "" (after_segments segments g)) ->
  star_loop (rmatch input re_segment) k fuel (path_text segments) g
  = k "" (after_segments segments g).
Proof.
  intros Hsegs. revert g fuel.
  induction Hsegs as [|seg segments [Hne Hword] _ IH]; intros g fuel Hfuel Hk.
  - simpl. destruct fuel as [|fuel]; [done|]. by rewrite star_loop_S.
  - cbn [path_text fold_right] in *. fold (path_text segments) in *.
    rewrite append_cons, append_nil in *.
    destruct fuel as [|fuel]; [simpl in Hfuel; lia|].
    rewrite star_loop_S. unfold re_segment at 1.
    rewrite rmatch_Group, rmatch_Cat, rmatch_Chr_cons, decide_True by done.
    assert (Hcons : consumed (String "/" (seg +:+ path_text segments))
                      (path_text segments) = "/" +:+ seg).
    { exact (consumed_app ("/" +:+ seg) (path_text segments)). }
    assert (Hlt : Nat.ltb (String.length (path_text segments))
                    (String.length (String "/" (seg +:+ path_text segments))) = true).
    { apply Nat.ltb_lt. simpl. rewrite string_length_app. lia. }
    assert (Hfuel' : (String.length (path_text segments) <= fuel)%nat).
    { simpl in Hfuel. rewrite string_length_app in Hfuel. lia. }
    assert (Hstep :
      star_loop (rmatch input re_segment) k fuel (path_text segments)
        (<[7%nat := "/" +:+ seg]> g)
      = k "" (after_segments (seg :: segments) g)) by (by apply IH).
    rewrite rmatch_Plus_class; [| done | done | by apply not_starting_path |].
    + rewrite Hcons, Hlt, Hstep. by destruct Hk as [x ->].
    + by rewrite Hcons, Hlt, Hstep.
Qed.

Lemma rmatch_re_path k segments g :
  Forall (fun segment => segment <> "" /\ all_chars is_word segment = true) segments ->
  is_Some (k "" (<[6%nat := path_text segments]> (after_segments segments g))) ->
  rmatch input re_path (path_text segments) g k
  = k "" (<[6%nat := path_text segments]> (after_segments segments g)).
Proof.
  intros Hsegs Hk. unfold re_path. rewrite rmatch_Group, rmatch_Star.
  rewrite path_star; [| done | done |]; by rewrite consumed_all.
Qed.

Lemma rmatch_re_port k digits rest g :
  match digits with
  | Some d => d <> "" /\ (String.length d <= 5)%nat /\ all_chars is_digit d = true
  | None => True
  end ->
  not_starting is_digit rest = true ->
  not_starting (fun c => bool_decide (c = ":"%char)) rest = true ->
  is_Some (k rest (after_port digits g)) ->
  rmatch input re_port (port_text digits +:+ rest) g k
  = k rest (after_port digits g).
Proof.
  intros Hd Hrest Hcolon Hk. unfold re_port. rewrite rmatch_Opt.
  destruct digits as [d|]; unfold port_text, after_port in *.
  - destruct Hd as (Hne & Hlen & Hdigits).
    destruct d as [|c d]; [done|]. simpl in Hdigits, Hlen.
    apply andb_true_iff in Hdigits as [Hc Hdigits].
    change ((":" +:+ String c d) +:+ rest)
      with (String ":" (String c (d +:+ rest))).
    change (":" +:+ String c d) with (String ":" (String c d)) in *.
    rewrite rmatch_Group, rmatch_Cat, rmatch_Chr_cons, decide_True by done.
    rewrite rmatch_Group. unfold Repeat1.
    rewrite rmatch_Cat, rmatch_Class_cons, Hc.
    assert (H5 : consumed (String c (d +:+ rest)) rest = String c d)
      by exact (consumed_app (String c d) rest).
    assert (H4 : consumed (String ":" (String c (d +:+ rest))) rest
                 = String ":" (String c d))
      by exact (consumed_app (String ":" (String c d)) rest).
    rewrite rmatch_UpTo_class; [| done | lia | done |]; rewrite H5, H4; [|done].
    by destruct Hk as [x ->].
  - rewrite append_nil, rmatch_Group, rmatch_Cat.
    destruct rest as [|c rest]; [done|]. rewrite rmatch_Chr_cons.
    simpl in Hcolon. apply negb_true_iff, bool_decide_eq_false in Hcolon.
    by rewrite decide_False by congruence.
Qed.

Lemma rmatch_re_host k host rest g :
  host <> "" ->
  all_chars is_word_or_dot host = true ->
  not_starting is_word_or_dot rest = true ->
  is_Some (k rest (<[3%nat := host]> g)) ->
  rmatch input re_host (host +:+ rest) g k = k rest (<[3%nat := host]> g).
Proof.
  intros Hne Hhost Hrest Hk. unfold re_host. rewrite rmatch_Group.
  rewrite rmatch_Plus_class; rewrite ?consumed_app; done.
Qed.

Lemma rmatch_re_scheme_Some k s rest g :
  s <> "" ->
  all_chars is_word s = true ->
  is_Some (k rest (after_scheme (Some s) g)) ->
  rmatch input re_scheme (scheme_text (Some s) +:+ rest) g k
  = k rest (after_scheme (Some s) g).
Proof.
  intros Hne Hs Hk. unfold re_scheme, scheme_text, after_scheme in *.
  rewrite rmatch_Opt, rmatch_Group, rmatch_Cat, rmatch_Group.
  rewrite !append_assoc.
  assert (H2 : consumed (s +:+ "://" +:+ rest) ("://" +:+ rest) = s)
    by apply consumed_app.
  assert (H1 : consumed (s +:+ "://" +:+ rest) rest = s +:+ "://").
  { rewrite <- append_assoc. apply consumed_app. }
  rewrite rmatch_Plus_class; [| done | done | done |];
    rewrite H2, rmatch_Lit, H1; [|done].
  by destruct Hk as [x ->].
Qed.

(** Without [://] anywhere in the input the scheme is left out. *)
Lemma rmatch_re_scheme_None k s g :
  (forall s', suffix_of s' s -> String.prefix "://" s' = false) ->
  rmatch input re_scheme s g k = k s g.
Proof.
  intros Hfree. unfold re_scheme.
  rewrite rmatch_Opt, rmatch_Group, rmatch_Cat, rmatch_Group.
  rewrite rmatch_Plus_class_fail; [done|].
  intros s' Hs'. apply rmatch_Lit_None. by apply Hfree.
Qed.

Lemma rmatch_Bol s g k :
  String.length s = String.length input -> rmatch input Bol s g k = k s g.
Proof.
  intros Hlen. change (rmatch input Bol s g k)
    with (if Nat.eqb (String.length s) (String.length input) then k s g else None).
  by rewrite Hlen, Nat.eqb_refl.
Qed.

Lemma rmatch_Eol_empty g k : rmatch input Eol "" g k = k "" g.
Proof. done. Qed.

End Matcher.

(** ** Inputs without [://] *)

Section Separator.

Lemma all_chars_impl (p q : ascii -> bool) s :
  (forall c, p c = true -> q c = true) -> all_chars p s = true -> all_chars q s = true.
Proof.
  intros Hpq. induction s as [|c s IH]; simpl; [done|].
  intros [Hc Hs]%andb_true_iff. rewrite (Hpq c Hc). by apply IH.
Qed.

Lemma all_chars_app p a b :
  all_chars p (a +:+ b) = all_chars p a && all_chars p b.
Proof.
  induction a as [|c a IH]; [done|].
  rewrite append_cons. simpl. by rewrite IH, andb_assoc.
Qed.

Lemma word_or_dot_not_colon c : is_word_or_dot c = true -> not_colon c = true.
Proof.
  unfold not_colon. destruct (Ascii.eqb_spec c ":") as [->|]; [|done].
  by vm_compute.
Qed.

Lemma word_not_colon c : is_word c = true -> not_colon c = true.
Proof.
  intros Hc. apply word_or_dot_not_colon. unfold is_word_or_dot. by rewrite Hc.
Qed.

Lemma digit_not_colon c : is_digit c = true -> not_colon c = true.
Proof.
  unfold not_colon. destruct (Ascii.eqb_spec c ":") as [->|]; [|done].
  by vm_compute.
Qed.

Lemma prefix_cons a s1 b s2 :
  String.prefix (String a s1) (String b s2)
  = if ascii_dec a b then String.prefix s1 s2 else false.
Proof. done. Qed.

Lemma suffix_of_cons_inv s' c s :
  suffix_of s' (String c s) -> s' = String c s \/ suffix_of s' s.
Proof.
  intros [[|c' pre] Heq].
  - left. by rewrite append_nil in Heq.
  - right. rewrite append_cons in Heq. injection Heq as _ ->. by exists pre.
Qed.

Lemma separator_free_empty : separator_free "".
Proof.
  intros s' [pre Heq]. destruct pre, s'; try done.
Qed.

Lemma separator_free_app w r :
  all_chars not_colon w = true -> separator_free r -> separator_free (w +:+ r).
Proof.
  intros Hw Hr. induction w as [|c w IH]; [done|].
  simpl in Hw. apply andb_true_iff in Hw as [Hc Hw].
  rewrite append_cons. intros s' [->|Hs']%suffix_of_cons_inv.
  - rewrite prefix_cons. destruct (ascii_dec ":" c) as [<-|]; [|done].
    by vm_compute in Hc.
  - by apply IH.
Qed.

Lemma separator_free_path segments :
  Forall (fun segment => segment <> "" /\ all_chars is_word segment = true) segments ->
  separator_free (path_text segments).
Proof.
  intros Hsegs. rewrite <- (append_empty_r (path_text segments)).
  apply separator_free_app; [|apply separator_free_empty].
  induction Hsegs as [|seg segments [_ Hword] _ IH]; [done|].
  cbn [path_text fold_right]. fold (path_text segments).
  rewrite append_cons, append_nil. simpl. rewrite all_chars_app, IH, andb_true_r.
  by apply (all_chars_impl is_word), Hword; apply word_not_colon.
Qed.

Lemma separator_free_port d r :
  d <> "" -> all_chars is_digit d = true -> separator_free r ->
  separator_free (port_text (Some d) +:+ r).
Proof.
  intros Hne Hd Hr. destruct d as [|c d]; [done|].
  change (port_text (Some (String c d)) +:+ r)
    with (String ":" (String c d +:+ r)).
  intros s' [->|Hs']%suffix_of_cons_inv.
  - simpl in Hd. apply andb_true_iff in Hd as [Hc _].
    rewrite append_cons, prefix_cons.
    destruct (ascii_dec ":" ":") as [_|]; [|done]. rewrite prefix_cons.
    destruct (ascii_dec "/" c) as [<-|]; [|done]. by vm_compute in Hc.
  - revert s' Hs'. apply separator_free_app; [|done].
    by apply (all_chars_impl is_digit), Hd; apply digit_not_colon.
Qed.

End Separator.

(** ** [get_base_url_pattern] on a URL given by its parts *)

Section BaseUrl.

Lemma not_starting_port_path p digits segments :
  p ":"%char = false -> p "/"%char = false ->
  not_starting p (port_text digits +:+ path_text segments) = true.
Proof.
  intros Hcolon Hslash. destruct digits as [d|].
  - change (port_text (Some d) +:+ path_text segments)
      with (String ":" (d +:+ path_text segments)).
    simpl. by rewrite Hcolon.
  - rewrite append_nil. by apply not_starting_path.
Qed.

Lemma separator_free_rest p :
  well_formed p -> up_scheme p = None ->
  separator_free (up_host p +:+ port_text (up_port p) +:+ path_text (up_path p)).
Proof.
  intros (_ & _ & Hhost & Hport & Hpath) _.
  apply separator_free_app.
  - by apply (all_chars_impl is_word_or_dot), Hhost; apply word_or_dot_not_colon.
  - destruct (up_port p) as [d|].
    + destruct Hport as (Hne & _ & Hd & _).
      by apply separator_free_port, separator_free_path.
    + rewrite append_nil. by apply separator_free_path.
Qed.

Theorem base_url_match p :
  well_formed p ->
  re_match get_base_url_pattern (assemble p) = Some (groups_of p).
Proof.
  intros Hwf. pose proof Hwf as (Hscheme & Hne & Hhost & Hport & Hpath).
  set (k0 := fun (_ : string) (g : groups) => Some g).
  assert (E5 : forall input g,
    rmatch input (Cat re_path Eol) (path_text (up_path p)) g k0
    = Some (<[6%nat := path_text (up_path p)]> (after_segments (up_path p) g))).
  { intros input g. rewrite rmatch_Cat. by rewrite rmatch_re_path. }
  assert (E4 : forall input g,
    rmatch input (Cat re_port (Cat re_path Eol))
      (port_text (up_port p) +:+ path_text (up_path p)) g k0
    = Some (<[6%nat := path_text (up_path p)]>
              (after_segments (up_path p) (after_port (up_port p) g)))).
  { intros input g. rewrite rmatch_Cat.
    rewrite rmatch_re_port; rewrite ?E5; try done.
    - destruct (up_port p) as [d|]; [|done]. by destruct Hport as (? & ? & ? & _).
    - by apply not_starting_path.
    - by apply not_starting_path. }
  assert (E3 : forall input g,
    rmatch input (Cat re_host (Cat re_port (Cat re_path Eol)))
      (up_host p +:+ port_text (up_port p) +:+ path_text (up_path p)) g k0
    = Some (<[6%nat := path_text (up_path p)]>
              (after_segments (up_path p)
                 (after_port (up_port p) (<[3%nat := up_host p]> g))))).
  { intros input g. rewrite rmatch_Cat.
    rewrite rmatch_re_host; rewrite ?E4; try done.
    by apply not_starting_port_path. }
  unfold re_match, get_base_url_pattern.
  rewrite rmatch_Cat, rmatch_Bol by done. rewrite rmatch_Cat.
  unfold groups_of, assemble.
  destruct (up_scheme p) as [s|] eqn:Hs.
  - destruct Hscheme as (Hsne & Hword & _).
    rewrite rmatch_re_scheme_Some; rewrite ?E3; done.
  - unfold scheme_text. rewrite append_nil.
    rewrite rmatch_re_scheme_None; [by rewrite E3|].
    by apply separator_free_rest.
Qed.

End BaseUrl.

Section BaseUrlGroups.

Lemma groups_of_scheme p : groups_of p !! 2%nat = up_scheme p.
Proof.
  unfold groups_of. rewrite lookup_insert_ne, after_segments_lookup by done.
  destruct (up_port p), (up_scheme p); simpl;
    rewrite ?lookup_insert_ne by done; by rewrite ?lookup_insert_eq.
Qed.

Lemma groups_of_host p : groups_of p !! 3%nat = Some (up_host p).
Proof.
  unfold groups_of. rewrite lookup_insert_ne, after_segments_lookup by done.
  destruct (up_port p); simpl;
    rewrite ?lookup_insert_ne by done; by rewrite lookup_insert_eq.
Qed.

Lemma groups_of_colon_port p :
  groups_of p !! 4%nat = String.append ":" <$> up_port p.
Proof.
  unfold groups_of. rewrite lookup_insert_ne, after_segments_lookup by done.
  destruct (up_port p), (up_scheme p); simpl;
    rewrite ?lookup_insert_eq; try done;
    by rewrite ?lookup_insert_ne by done.
Qed.

Lemma groups_of_port p : groups_of p !! 5%nat = up_port p.
Proof.
  unfold groups_of. rewrite lookup_insert_ne, after_segments_lookup by done.
  destruct (up_port p), (up_scheme p); simpl;
    rewrite ?lookup_insert_ne by done; rewrite ?lookup_insert_eq; try done;
    by rewrite ?lookup_insert_ne by done.
Qed.

Lemma groups_of_path p : groups_of p !! 6%nat = Some (path_text (up_path p)).
Proof. unfold groups_of. by rewrite lookup_insert_eq. Qed.

Lemma fold_digits_nonneg d acc :
  0 <= acc -> all_chars is_digit d = true ->
  0 <= fold_left (fun acc c => 10 * acc + (Z.of_N (N_of_ascii c) - 48))
         (list_ascii_of_string d) acc.
Proof.
  revert acc. induction d as [|c d IH]; intros acc Hacc Hd; simpl; [done|].
  simpl in Hd. apply andb_true_iff in Hd as [Hc Hd].
  apply IH; [|done].
  unfold is_digit in Hc. apply andb_true_iff in Hc as [Hc _].
  apply N.leb_le in Hc. lia.
Qed.

Lemma int_of_digits_nonneg d : all_chars is_digit d = true -> 0 <= int_of_digits d.
Proof. by apply fold_digits_nonneg. Qed.

Lemma check_base_url_assemble p :
  well_formed p -> check_base_url (assemble p) = Ok (assemble p).
Proof.
  intros Hwf. unfold check_base_url. rewrite (base_url_match p Hwf).
  rewrite groups_of_scheme, groups_of_port.
  destruct Hwf as (Hscheme & _ & _ & Hport & _).
  destruct (up_scheme p) as [s|].
  - destruct Hscheme as (_ & _ & [key ->]). simpl.
    destruct (up_port p) as [d|]; [|done].
    destruct Hport as (_ & _ & Hd & Hmax).
    pose proof (int_of_digits_nonneg d Hd).
    rewrite (proj2 (Z.leb_le _ _)), (proj2 (Z.leb_le _ _)) by done. done.
  - simpl. destruct (up_port p) as [d|]; [|done].
    destruct Hport as (_ & _ & Hd & Hmax).
    pose proof (int_of_digits_nonneg d Hd).
    rewrite (proj2 (Z.leb_le _ _)), (proj2 (Z.leb_le _ _)) by done. done.
Qed.

(** C10: a URL assembled from well-formed parts passes
    [check_base_url] whether or not it has a scheme and a port; the
    [schema] of a server without a scheme is HTTP and the [port] of a
    server without a port is 80. *)
Theorem C10_scheme_and_port_are_optional p :
  well_formed p ->
  check_base_url (assemble p) = Ok (assemble p) /\
  (up_scheme p = None ->
   schema (server_with_url (assemble p)) = Ok (Some HTTP)) /\
  (up_port p = None ->
   port (server_with_url (assemble p)) = Ok 80).
Proof.
  intros Hwf. split; [by apply check_base_url_assemble|].
  unfold schema, port, base_url_group. simpl.
  rewrite (base_url_match p Hwf). simpl.
  rewrite groups_of_scheme, groups_of_port.
  by split; intros ->.
Qed.

End BaseUrlGroups.

Lemma C10_scheme_and_port_are_optional_witness :
  check_base_url "localhost/api" = Ok "localhost/api" /\
  (up_scheme parts_bare = None ->
   schema (server_with_url "localhost/api") = Ok (Some HTTP)) /\
  (up_port parts_bare = None ->
   port (server_with_url "localhost/api") = Ok 80).
Proof.
  apply (C10_scheme_and_port_are_optional parts_bare).
  repeat split; try done.
  constructor; [|constructor]. by split.
Defined.

(** With both parts present, in any case of the scheme. *)
Example full_url_accepted :
  check_base_url "HTTPS://my.host:8443/api/v1" = Ok "HTTPS://my.host:8443/api/v1" /\
  schema (server_with_url "HTTPS://my.host:8443/api/v1") = Ok (Some HTTPS) /\
  port (server_with_url "HTTPS://my.host:8443/api/v1") = Ok 8443.
Proof. repeat split; vm_compute; reflexivity. Qed.

(** ** The process table under the supervisor *)

Section Supervisor.

Lemma quiet_refl t : quiet t t.
Proof. by split. Qed.

Lemma quiet_trans t0 t1 t2 : quiet t0 t1 -> quiet t1 t2 -> quiet t0 t2.
Proof. intros [Hl1 Ha1] [Hl2 Ha2]. split; [congruence|auto]. Qed.

Lemma frozen_refl n t : frozen n t t.
Proof. done. Qed.

Lemma frozen_trans n t0 t1 t2 : frozen n t0 t1 -> frozen n t1 t2 -> frozen n t0 t2.
Proof. unfold frozen. congruence. Qed.

Section Steps.

Context (R : list ServerProcess -> list ServerProcess -> Prop).
Context (R_refl : forall t, R t t).
Context (R_trans : forall t0 t1 t2, R t0 t1 -> R t1 t2 -> R t0 t2).

Lemma steps_refl s : steps R s s.
Proof. split; [done|]. by exists []. Qed.

Lemma steps_update f s : R (table s) (f (table s)) -> steps R s (sys_update f s).
Proof.
  intros Hf. split; [done|]. exists [f (table s)]. split; [done|].
  by constructor.
Qed.

Lemma steps_trans s0 s1 s2 : steps R s0 s1 -> steps R s1 s2 -> steps R s0 s2.
Proof.
  intros [H01 (new1 & E1 & F1)] [H12 (new2 & E2 & F2)].
  split; [eauto|]. exists (new2 ++ new1). split.
  - by rewrite E2, E1, app_assoc.
  - apply Forall_app. split; [|done].
    eapply Forall_impl; [exact F2|]. intros t Ht. eauto.
Qed.

End Steps.

Lemma pid_is_alive_alter f pid t pid' :
  (forall p, is_alive (f p) = is_alive p) ->
  pid_is_alive (alter f pid t) pid' = pid_is_alive t pid'.
Proof.
  intros Hf. unfold pid_is_alive.
  destruct (decide (pid = pid')) as [->|Hne].
  - rewrite list_lookup_alter_eq. destruct (t !! pid'); simpl; [apply Hf|done].
  - by rewrite list_lookup_alter_ne.
Qed.

Lemma terminate_steps pid s : steps quiet s (terminate pid s).
Proof.
  apply steps_update. split; [by rewrite length_alter|].
  intros pid'. rewrite pid_is_alive_alter; [auto|].
  intros p. unfold is_alive. destruct (proc_state p) eqn:E; simpl; by rewrite ?E.
Qed.

Lemma terminate_all_steps c s : steps quiet s (terminate_all c s).
Proof.
  unfold terminate_all. destruct (is_running c s); [|apply steps_refl, quiet_refl].
  generalize (processes c). intros pids. revert s.
  induction pids as [|pid pids IH]; intros s; simpl.
  - apply steps_refl, quiet_refl.
  - eapply (steps_trans quiet quiet_trans); [|apply IH].
    destruct (pid_is_alive (table s) pid).
    + apply terminate_steps.
    + apply steps_refl, quiet_refl.
Qed.

Lemma elapse_steps s : steps quiet s (sys_update (fmap elapse) s).
Proof.
  apply steps_update. split; [by rewrite length_fmap|].
  intros pid. unfold pid_is_alive. rewrite list_lookup_fmap.
  destruct (table s !! pid) as [p|]; simpl; [|done].
  unfold elapse, is_alive.
  destruct (proc_state p) as [| |[|n]|] eqn:E; simpl; by rewrite ?E.
Qed.

Lemma wait_until_stopped_steps fuel c s s' :
  wait_until_stopped fuel c s = Some s' ->
  steps quiet s s' /\ is_running c s' = false.
Proof.
  revert s. induction fuel as [|fuel IH]; intros s; simpl.
  - destruct (is_running c s) eqn:Hrun; [done|]. intros [= <-].
    split; [apply steps_refl, quiet_refl|done].
  - destruct (is_running c s) eqn:Hrun.
    + intros [Hsteps Hstop]%IH. split; [|done].
      eapply (steps_trans quiet quiet_trans); [apply elapse_steps|done].
    + intros [= <-]. split; [apply steps_refl, quiet_refl|done].
Qed.

Lemma construct_all_spec h apps s pids s' n0 :
  construct_all h apps s = (pids, s') ->
  (n0 <= length (table s))%nat ->
  pids = seq (length (table s)) (length apps) /\
  length (table s') = (length (table s) + length apps)%nat /\
  steps (frozen n0) s s' /\
  (all_stopped (table s) -> all_stopped (table s')).
Proof.
  revert s pids s'. induction apps as [|app apps IH]; intros s pids s'; simpl.
  - intros [= <- <-] Hn0. repeat split; [lia|apply steps_refl, frozen_refl|..]; done.
  - destruct (construct_all h apps _) as [pids' s''] eqn:Hrest.
    intros [= <- <-] Hn0.
    apply (IH _ _ _) in Hrest as (-> & Hlen & Hsteps & Hstopped);
      [|simpl; rewrite length_app; lia].
    simpl in Hlen |- *. rewrite length_app in Hlen |- *. simpl in Hlen |- *.
    repeat split.
    + f_equal. f_equal. lia.
    + lia.
    + eapply (steps_trans _ (frozen_trans n0)); [|exact Hsteps].
      apply steps_update. unfold frozen. by rewrite take_app_le.
    + eapply (steps_trans _ (frozen_trans n0)); [|exact Hsteps].
      apply steps_update. unfold frozen. by rewrite take_app_le.
    + intros Hall. apply Hstopped. simpl. intros pid. unfold pid_is_alive.
      destruct (decide (pid < length (table s))%nat) as [Hlt|Hge].
      * rewrite lookup_app_l by done. apply Hall.
      * rewrite lookup_app_r by lia.
        by destruct (pid - length (table s))%nat as [|[|?]].
Qed.

Lemma start_steps pid s r s' n0 :
  start pid s = (r, s') -> (n0 <= pid)%nat ->
  steps (frozen n0) s s' /\ length (table s') = length (table s).
Proof.
  unfold start. intros Hstart Hn0.
  destruct (table s !! pid) as [p|];
    [|injection Hstart as <- <-; split; [apply steps_refl, frozen_refl|done]].
  destruct (proc_state p);
    injection Hstart as <- <-; try (split; [apply steps_refl, frozen_refl|done]).
  split; [|simpl; by rewrite length_alter].
  apply steps_update. unfold frozen. by rewrite take_alter_ge.
Qed.

Lemma start_each_steps pids s r s' n0 :
  start_each pids s = (r, s') -> Forall (fun pid => n0 <= pid)%nat pids ->
  steps (frozen n0) s s' /\ length (table s') = length (table s).
Proof.
  revert s. induction pids as [|pid pids IH]; intros s; simpl.
  - intros [= <- <-] _. split; [apply steps_refl, frozen_refl|done].
  - destruct (start pid s) as [[[]|e] s1] eqn:Hstart.
    + intros Hrest [Hpid Hpids]%Forall_cons.
      apply (start_steps _ _ _ _ n0) in Hstart as [Hs1 Hl1]; [|done].
      apply IH in Hrest as [Hs2 Hl2]; [|done].
      split; [|congruence].
      by eapply (steps_trans _ (frozen_trans n0)).
    + intros [= <- <-] [Hpid _]%Forall_cons.
      by apply (start_steps _ _ _ _ n0) in Hstart.
Qed.

(** A table frozen on a part in which nothing is alive has nothing
    alive in that part. *)
Lemma frozen_stopped n t0 t pid :
  frozen n t0 t -> all_stopped t0 -> (pid < n)%nat -> pid_is_alive t pid = false.
Proof.
  unfold frozen, all_stopped, pid_is_alive. intros Hfrozen Hall Hpid.
  specialize (Hall pid).
  by rewrite <- (lookup_take_lt t n pid), Hfrozen, lookup_take_lt.
Qed.

Lemma not_running_stopped c s0 s :
  supervised c s0 -> quiet (table s0) (table s) -> is_running c s = false ->
  all_stopped (table s).
Proof.
  intros Hsup [_ Hquiet] Hrun pid.
  destruct (pid_is_alive (table s) pid) eqn:Halive; [|done].
  unfold is_running in Hrun.
  assert (Hin : pid ∈ processes c) by by apply Hsup, Hquiet.
  assert (existsb (pid_is_alive (table s)) (processes c) = true); [|congruence].
  apply existsb_exists. exists pid. split; [by apply list_elem_of_In|done].
Qed.

Lemma all_stopped_not_running c s : all_stopped (table s) -> is_running c s = false.
Proof.
  intros Hall. unfold is_running.
  induction (processes c) as [|pid pids IH]; simpl; [done|].
  by rewrite Hall, IH.
Qed.

End Supervisor.

Section Patience.

Lemma pending_elapse t : pending (elapse <$> t) = Nat.pred (pending t).
Proof.
  induction t as [|p t IH]; [done|]. rewrite fmap_cons.
  unfold pending in *. cbn [foldr]. rewrite IH.
  unfold elapse. destruct (proc_state p) as [| |[|n]|] eqn:E; simpl; rewrite ?E; lia.
Qed.

Lemma pending_le_patience t : (pending t <= patience t)%nat.
Proof.
  induction t as [|p t IH]; simpl; [done|].
  destruct (proc_state p); lia.
Qed.

Lemma pending_zero (t : list ServerProcess) (pid : nat) p :
  pending t = 0%nat -> t !! pid = Some p ->
  forall n, proc_state p <> Terminating n.
Proof.
  revert pid. induction t as [|q t IH]; intros pid Hzero Hlookup n; [done|].
  simpl in Hzero. destruct pid as [|pid]; simpl in Hlookup.
  - injection Hlookup as ->. intros Hst. rewrite Hst in Hzero. lia.
  - eapply IH; [lia|done].
Qed.

Lemma patience_alter_terminate (pid : nat) (t : list ServerProcess) :
  patience (alter (fun p => match proc_state p with
                            | Alive => with_state (Terminating (exit_delay p)) p
                            | _ => p
                            end) pid t) = patience t.
Proof.
  unfold alter. revert pid. induction t as [|q t IH]; intros pid; [done|].
  destruct pid as [|pid]; simpl.
  - destruct (proc_state q) eqn:E; simpl; by rewrite ?E.
  - unfold patience in IH. by rewrite IH.
Qed.

Lemma terminate_all_patience c s :
  patience (table (terminate_all c s)) = patience (table s).
Proof.
  unfold terminate_all. destruct (is_running c s); [|done].
  generalize (processes c). intros pids. revert s.
  induction pids as [|pid pids IH]; intros s; simpl; [done|].
  rewrite IH. destruct (pid_is_alive (table s) pid); [|done].
  apply patience_alter_terminate.
Qed.

Lemma signalled_elapse c t : signalled c t -> signalled c (elapse <$> t).
Proof.
  intros Hsig pid p Hin. rewrite list_lookup_fmap.
  destruct (t !! pid) as [q|] eqn:Hq; [|done]. intros [= <-].
  specialize (Hsig pid q Hin Hq). unfold elapse.
  destruct (proc_state q) as [| |[|n]|] eqn:E; simpl; by rewrite ?E.
Qed.

(** With as much fuel as polls are pending the busy-wait ends. *)
Lemma wait_until_stopped_enough fuel c s :
  signalled c (table s) -> (pending (table s) <= fuel)%nat ->
  is_Some (wait_until_stopped fuel c s).
Proof.
  revert s. induction fuel as [|fuel IH]; intros s Hsig Hpending; simpl.
  - destruct (is_running c s) eqn:Hrun; [|eauto]. exfalso.
    unfold is_running in Hrun. apply existsb_exists in Hrun as (pid & Hin & Halive).
    apply list_elem_of_In in Hin. unfold pid_is_alive in Halive.
    destruct (table s !! pid) as [p|] eqn:Hp; [|done].
    specialize (Hsig pid p Hin Hp).
    assert (Hzero : pending (table s) = 0%nat) by lia.
    pose proof (pending_zero _ _ _ Hzero Hp) as Hnot.
    unfold is_alive in Halive. destruct (proc_state p); try done. by eapply Hnot.
  - destruct (is_running c s); [|eauto].
    apply IH; simpl.
    + by apply signalled_elapse.
    + rewrite pending_elapse. lia.
Qed.

Lemma terminate_keeps_signal (pid pid' : nat) (t : list ServerProcess) p :
  (forall q, t !! pid' = Some q -> proc_state q <> Alive) ->
  alter (fun p => match proc_state p with
                  | Alive => with_state (Terminating (exit_delay p)) p
                  | _ => p
                  end) pid t !! pid' = Some p ->
  proc_state p <> Alive.
Proof.
  intros Hbefore. destruct (decide (pid = pid')) as [->|Hne].
  - rewrite list_lookup_alter_eq. destruct (t !! pid') as [q|] eqn:Hq; [|done].
    simpl. intros [= <-]. specialize (Hbefore q eq_refl).
    by destruct (proc_state q) eqn:E; simpl; rewrite ?E.
  - rewrite list_lookup_alter_ne by done. apply Hbefore.
Qed.

Lemma terminate_loop_signalled pids s pid p :
  (pid ∈ pids \/ forall q, table s !! pid = Some q -> proc_state q <> Alive) ->
  table (fold_left (fun s pid => if pid_is_alive (table s) pid
                                 then terminate pid s else s) pids s) !! pid
    = Some p ->
  proc_state p <> Alive.
Proof.
  revert s. induction pids as [|pid0 pids IH]; intros s Hpid; simpl.
  - destruct Hpid as [Hin|Hnot]; [by apply elem_of_nil in Hin|apply Hnot].
  - apply IH.
    destruct (decide (pid = pid0)) as [->|Hne].
    + right. unfold pid_is_alive.
      destruct (table s !! pid0) as [q0|] eqn:Hq0.
      * destruct (is_alive q0) eqn:Halive; simpl.
        -- rewrite list_lookup_alter_eq, Hq0. simpl. intros q [= <-].
           by destruct (proc_state q0) eqn:E; simpl; rewrite ?E.
        -- rewrite Hq0. intros q [= <-]. unfold is_alive in Halive.
           by destruct (proc_state q0).
      * by rewrite Hq0.
    + destruct Hpid as [[->|Hin]%elem_of_cons|Hnot]; [done|by left|right].
      destruct (pid_is_alive (table s) pid0); [|done].
      intros q. simpl. by apply terminate_keeps_signal.
Qed.

Lemma terminate_all_signalled c s : signalled c (table (terminate_all c s)).
Proof.
  intros pid p Hin. unfold terminate_all.
  destruct (is_running c s) eqn:Hrun.
  - apply terminate_loop_signalled. by left.
  - intros Hp Halive. unfold is_running in Hrun.
    assert (existsb (pid_is_alive (table s)) (processes c) = true); [|congruence].
    apply existsb_exists. exists pid. split; [by apply list_elem_of_In|].
    unfold pid_is_alive, is_alive. by rewrite Hp, Halive.
Qed.

(** A reload whose fuel covers the patience of the table does not
    hang in its busy-wait. *)
Lemma stop_enough fuel c s :
  (patience (table s) <= fuel)%nat ->
  is_Some (wait_until_stopped fuel c (terminate_all c s)).
Proof.
  intros Hfuel. apply wait_until_stopped_enough.
  - apply terminate_all_signalled.
  - pose proof (pending_le_patience (table (terminate_all c s))).
    rewrite terminate_all_patience in *. lia.
Qed.

End Patience.

Section Reload.

Context (h : Host) (env : Env).

Lemma load_config_sys now st r st' :
  load_config h env now st = (r, st') ->
  sys st' = sys st /\ controller st' = controller st.
Proof.
  unfold load_config. destruct (get_file_value _ _ _) as [value loader].
  by intros [= <- <-].
Qed.

(** What a reload does to the process table once the new
    configuration is known: the old processes are sent SIGTERM and
    waited for while nothing is built; the wait ends on a table with
    no live process; the new processes are built and started while
    the old part of the table stays as the wait left it. *)
Lemma swap_spec fuel c st s2 apps pids s3 s4 :
  supervised c (sys st) ->
  wait_until_stopped fuel c (terminate_all c (sys st)) = Some s2 ->
  construct_all h apps s2 = (pids, s3) ->
  start_each pids s3 = (Ok tt, s4) ->
  let n0 := length (table (sys st)) in
  exists after during,
    snapshots s4 = after ++ during ++ history (sys st) /\
    last during = Some (table (sys st)) /\
    Forall (fun t => length t = n0) during /\
    (exists stopped, head during = Some stopped /\ all_stopped stopped) /\
    Forall (fun t => forall pid, (pid < n0)%nat -> pid_is_alive t pid = false) after /\
    supervised {| processes := pids |} s4 /\
    Forall (fun pid => n0 <= pid)%nat pids.
Proof.
  intros Hsup Hwait Hbuild Hstart n0.
  pose proof (terminate_all_steps c (sys st)) as Hterm.
  apply wait_until_stopped_steps in Hwait as [Hwait Hrun].
  pose proof (steps_trans _ quiet_trans _ _ _ Hterm Hwait)
    as [Hquiet (during & Eduring & Fduring)].
  pose proof (not_running_stopped _ _ _ Hsup Hquiet Hrun) as Hstopped.
  assert (Hlen2 : length (table s2) = n0) by apply Hquiet.
  destruct (construct_all_spec _ _ _ _ _ n0 Hbuild) as (-> & Hlen3 & Hsteps3 & Hall3);
    [lia|].
  rewrite Hlen2 in *.
  assert (Hpids : Forall (fun pid => n0 <= pid)%nat (seq n0 (length apps))).
  { apply Forall_forall. intros pid Hin%elem_of_seq. lia. }
  destruct (start_each_steps _ _ _ _ n0 Hstart Hpids) as [Hsteps4 Hlen4].
  pose proof (steps_trans _ (frozen_trans n0) _ _ _ Hsteps3 Hsteps4)
    as [Hfrozen (after & Eafter & Fafter)].
  exists after, (during ++ [table (sys st)]). repeat split.
  - rewrite Eafter, Eduring. unfold snapshots. by rewrite <- app_assoc.
  - by rewrite last_snoc.
  - apply Forall_app. split; [|by constructor].
    eapply Forall_impl; [exact Fduring|]. by intros t [? _].
  - exists (table s2). split; [|done].
    unfold snapshots in Eduring. destruct during as [|t during]; simpl in *.
    + by injection Eduring as -> _.
    + by injection Eduring as -> _.
  - eapply Forall_impl; [exact Fafter|]. intros t Ht pid Hpid.
    by eapply frozen_stopped.
  - intros pid Halive. apply elem_of_seq.
    destruct (decide (pid < n0)%nat) as [Hlt|Hge].
    + by rewrite (frozen_stopped n0 (table s2) (table s4) pid) in Halive.
    + split; [lia|]. unfold pid_is_alive in Halive.
      destruct (table s4 !! pid) eqn:Hlookup; [|done].
      apply lookup_lt_Some in Hlookup. lia.
  - done.
Qed.

Lemma stop_spec fuel c s s2 :
  supervised c s ->
  wait_until_stopped fuel c (terminate_all c s) = Some s2 ->
  all_stopped (table s2) /\ length (table s2) = length (table s).
Proof.
  intros Hsup Hwait.
  pose proof (terminate_all_steps c s) as Hterm.
  apply wait_until_stopped_steps in Hwait as [Hwait Hrun].
  pose proof (steps_trans _ quiet_trans _ _ _ Hterm Hwait) as [Hquiet _].
  split; [by eapply not_running_stopped|apply Hquiet].
Qed.

Lemma set_processes_stopped new c s :
  all_stopped (table s) -> set_processes new c s = ({| processes := new |}, s).
Proof.
  intros Hall. unfold set_processes. by rewrite all_stopped_not_running.
Qed.

(** C6: in a reload that succeeds, the history of the process table
    splits in two.  In the first part, which ends on a table with no
    live process, the table keeps its length: the old processes are
    stopped and no new process object exists.  In the second part no
    process of the old table is alive.  At the end the controller
    holds the new processes only, and they are the only ones that can
    be alive. *)
Theorem C6_old_generation_stopped_before_new_one now fuel c st st' :
  supervised c (sys st) ->
  apply_changes h env now fuel c st = (st', Returned) ->
  exists after during c',
    snapshots (sys st') = after ++ during ++ history (sys st) /\
    last during = Some (table (sys st)) /\
    Forall (fun t => length t = length (table (sys st))) during /\
    (exists stopped, head during = Some stopped /\ all_stopped stopped) /\
    Forall (fun t => forall pid, (pid < length (table (sys st)))%nat ->
                     pid_is_alive t pid = false) after /\
    controller st' = Some c' /\
    supervised c' (sys st') /\
    Forall (fun pid => length (table (sys st)) <= pid)%nat (processes c').
Proof.
  intros Hsup. unfold apply_changes.
  destruct (load_config _ _ _ _) as [parsed st1] eqn:Hload.
  apply load_config_sys in Hload as [Hsys _]. simpl in Hsys.
  destruct parsed as [config|e]; cycle 1.
  { destruct e; try done. simpl. rewrite Hsys.
    by destruct (wait_until_stopped _ _ _). }
  simpl. rewrite Hsys.
  destruct (wait_until_stopped _ _ _) as [s2|] eqn:Hwait; [|done]. simpl.
  destruct (get_server_processes env config) as [apps|e]; [|done].
  destruct (construct_all h apps s2) as [pids s3] eqn:Hbuild.
  destruct (stop_spec _ _ _ _ Hsup Hwait) as [Hstopped Hlen2].
  destruct (construct_all_spec _ _ _ _ _ 0%nat Hbuild) as (_ & _ & _ & Hall3); [lia|].
  rewrite (all_stopped_not_running c s3 (Hall3 Hstopped)).
  unfold start_all. simpl.
  destruct (start_each pids s3) as [[[]|e] s4] eqn:Hstart; [|done].
  intros [= <-]. simpl.
  destruct (swap_spec _ _ _ _ _ _ _ _ Hsup Hwait Hbuild Hstart)
    as (after & during & H1 & H2 & H3 & H4 & H5 & H6 & H7).
  exists after, during, {| processes := pids |}. done.
Qed.

(** The process object [ServerProcess(...)] builds. *)
Lemma construct_all_table apps s pids s' :
  construct_all h apps s = (pids, s') ->
  table s' = table s ++
    ((fun app => {| application := app.1; server := app.2;
                    proc_state := Unstarted;
                    exit_delay := term_delay h app.2 |}) <$> apps).
Proof.
  revert s pids s'. induction apps as [|app apps IH]; intros s pids s'; simpl.
  - intros [= <- <-]. by rewrite app_nil_r.
  - destruct (construct_all h apps _) as [pids' s''] eqn:Hrest.
    intros [= <- <-]. apply IH in Hrest. rewrite Hrest. simpl.
    by rewrite <- app_assoc.
Qed.

Lemma start_each_fresh pids s :
  NoDup pids ->
  (forall pid, pid ∈ pids ->
     exists p, table s !! pid = Some p /\ proc_state p = Unstarted) ->
  exists s', start_each pids s = (Ok tt, s').
Proof.
  revert s. induction pids as [|pid pids IH]; intros s Hnodup Hfresh; simpl; [eauto|].
  apply NoDup_cons in Hnodup as [Hnotin Hnodup].
  destruct (Hfresh pid) as (p & Hp & Hstate); [apply list_elem_of_here|].
  unfold start. rewrite Hp, Hstate.
  apply IH; [done|]. intros pid' Hin. simpl.
  rewrite list_lookup_alter_ne by (intros ->; done).
  apply Hfresh. by apply list_elem_of_further.
Qed.

(** A reload succeeds when the new configuration parses, its
    processes can be described, and the fuel covers the patience of
    the table. *)
Lemma reload_succeeds now fuel c st value config apps :
  supervised c (sys st) ->
  cached_value (config_loader st) = Some value ->
  (tree ← parse_from_yaml h value; parse_config env tree) = Ok config ->
  get_server_processes env config = Ok apps ->
  (patience (table (sys st)) <= fuel)%nat ->
  exists st', apply_changes h env now fuel c st = (st', Returned).
Proof.
  intros Hsup Hcached Hparse Happs Hfuel.
  unfold apply_changes, load_config, get_file_value. simpl.
  rewrite Hcached. simpl. rewrite Hparse. simpl.
  destruct (stop_enough fuel c (sys st) Hfuel) as [s2 Hwait].
  rewrite Hwait. simpl. rewrite Happs.
  destruct (construct_all h apps s2) as [pids s3] eqn:Hbuild.
  destruct (stop_spec _ _ _ _ Hsup Hwait) as [Hstopped Hlen2].
  destruct (construct_all_spec _ _ _ _ _ 0%nat Hbuild) as (-> & _ & _ & Hall3); [lia|].
  rewrite (all_stopped_not_running c s3 (Hall3 Hstopped)).
  unfold start_all. simpl.
  destruct (start_each_fresh (seq (length (table s2)) (length apps)) s3)
    as [s4 ->]; [apply NoDup_seq| |eauto].
  intros pid [Hge Hlt]%elem_of_seq.
  rewrite (construct_all_table _ _ _ _ Hbuild), lookup_app_r by done.
  rewrite list_lookup_fmap.
  destruct (apps !! (pid - length (table s2))%nat) as [app|] eqn:Happ; simpl; [eauto|].
  apply lookup_ge_None in Happ. lia.
Qed.

(** C3, as the code has it: when the new configuration cannot be
    decoded or validated, the reload logs the warning, sends SIGTERM
    to its listeners, which the controller logs when one of them is
    running, waits until none is alive and then fails with an
    AttributeError on the configuration it does not have. *)
Theorem C3_failed_reload_stops_the_listeners now fuel c st value msg :
  supervised c (sys st) ->
  cached_value (config_loader st) = Some value ->
  (tree ← parse_from_yaml h value; parse_config env tree) = Raise (IOError msg) ->
  (patience (table (sys st)) <= fuel)%nat ->
  exists st',
    apply_changes h env now fuel c st = (st', Raised AttributeError) /\
    all_stopped (table (sys st')) /\
    app_log st'
    = app_log st
      ++ [(INFO, "Config file changes detected. Applying..."); (WARNING, msg)]
      ++ (if is_running c (sys st)
          then [(INFO, "Stopping server processes...")] else []).
Proof.
  intros Hsup Hcached Hparse Hfuel.
  unfold apply_changes, load_config, get_file_value. simpl.
  rewrite Hcached. simpl. rewrite Hparse. simpl.
  destruct (stop_enough fuel c (sys st) Hfuel) as [s2 Hwait].
  rewrite Hwait. simpl.
  destruct (stop_spec _ _ _ _ Hsup Hwait) as [Hstopped _].
  eexists. split; [done|]. simpl. split; [done|].
  unfold terminate_all_info. rewrite <- !app_assoc.
  by destruct (is_running c (sys st)).
Qed.

(** After a start-up that succeeds every live process is one of the
    controller's. *)
Lemma startup_supervised now args_c st :
  startup h env now args_c = (st, Returned) ->
  exists c, controller st = Some c /\ supervised c (sys st).
Proof.
  unfold startup. destruct (load_config _ _ _ _) as [[config|e] st0] eqn:Hload; [|done].
  apply load_config_sys in Hload as [Hsys _]. simpl in Hsys. simpl.
  destruct (get_server_processes env config) as [apps|e]; [|done].
  rewrite Hsys.
  destruct (construct_all h apps Sys_empty) as [pids s1] eqn:Hbuild.
  destruct (construct_all_spec _ _ _ _ _ 0%nat Hbuild) as (-> & Hlen & _ & Hall); [simpl; lia|].
  unfold ProcessesController_new, set_processes. simpl.
  unfold start_all. simpl.
  destruct (start_each _ s1) as [[[]|e] s2] eqn:Hstart; [|done].
  intros [= <-]. simpl. eexists. split; [done|].
  intros pid Halive. simpl. apply elem_of_seq.
  destruct (start_each_steps _ _ _ _ 0%nat Hstart) as [_ Hlen2].
  { apply Forall_forall. intros; lia. }
  unfold pid_is_alive in Halive.
  destruct (table s2 !! pid) eqn:Hlookup; [|done].
  apply lookup_lt_Some in Hlookup. simpl in *. lia.
Qed.

End Reload.

(** ** The supervisor loop on concrete runs *)

Lemma supervised_running0 (st : State) :
  sys st = sys running0 -> supervised controller0 (sys st).
Proof.
  intros -> pid Halive. destruct pid as [|pid]; [apply list_elem_of_here|].
  vm_compute in Halive. by destruct pid.
Qed.

Lemma C6_old_generation_stopped_before_new_one_witness :
  exists after during c',
    snapshots (sys reloaded) = after ++ during ++ history (sys (polled tick_again)) /\
    last during = Some (table (sys (polled tick_again))) /\
    Forall (fun t => length t = length (table (sys (polled tick_again)))) during /\
    (exists stopped, head during = Some stopped /\ all_stopped stopped) /\
    Forall (fun t => forall pid,
              (pid < length (table (sys (polled tick_again))))%nat ->
              pid_is_alive t pid = false) after /\
    controller reloaded = Some c' /\
    supervised c' (sys reloaded) /\
    Forall (fun pid => length (table (sys (polled tick_again))) <= pid)%nat
           (processes c').
Proof.
  apply (C6_old_generation_stopped_before_new_one host0 env_again 3000001 5
           controller0 (polled tick_again) reloaded).
  - by apply supervised_running0.
  - vm_compute. reflexivity.
Defined.

(** The run behind the witness: the listener of the first
    configuration is started, sent SIGTERM and polled until it is
    gone; only then the listener of the new configuration is built and
    started. *)
Example reload_run :
  let run := main host0 env_two_rules 0 "cap.yml" 5 [tick_again] in
  run.2 = StillRunning /\
  states_of run.1
  = [ [Exited; Alive]; [Exited; Unstarted]; [Exited]; [Terminating 0];
      [Terminating 1]; [Terminating 2]; [Alive]; [Unstarted]; [] ] /\
  controller run.1 = Some {| processes := [1%nat] |}.
Proof. repeat split; vm_compute; reflexivity. Qed.

Lemma C3_failed_reload_stops_the_listeners_witness :
  exists st',
    apply_changes host0 env_garbage 3000001 5 controller0 (polled tick_garbage)
      = (st', Raised AttributeError) /\
    all_stopped (table (sys st')) /\
    app_log st'
    = app_log (polled tick_garbage)
      ++ [(INFO, "Config file changes detected. Applying...");
          (WARNING, "YAML parsing error: ")]
      ++ (if is_running controller0 (sys (polled tick_garbage))
          then [(INFO, "Stopping server processes...")] else []).
Proof.
  apply (C3_failed_reload_stops_the_listeners host0 env_garbage 3000001 5
           controller0 (polled tick_garbage) (latin1_encode "garbage")).
  - by apply supervised_running0.
  - vm_compute. reflexivity.
  - vm_compute. reflexivity.
  - vm_compute. lia.
Defined.

(** The whole of [main] on that run: the warning of the failed
    reload is followed by the line of the controller that stops the
    listener and by the critical line of the crash, the one listener
    is gone, and [main] has ended. *)
Example failed_reload_run :
  let run := main host0 env_two_rules 0 "cap.yml" 5 [tick_garbage] in
  run.2 = Raised AttributeError /\
  states_of run.1
  = [ [Exited]; [Terminating 0]; [Terminating 1]; [Terminating 2]; [Alive];
      [Unstarted]; [] ] /\
  app_log run.1
  = [ (INFO, "Config file changes detected. Applying...");
      (WARNING, "YAML parsing error: ");
      (INFO, "Stopping server processes..."); (CRITICAL, "") ].
Proof. repeat split; vm_compute; reflexivity. Qed.

(** ** The body entry of the request log *)

Section LoggedBody.

Context (env : Env).

(** The encoding [log_request] decodes with. *)
Lemma inline_body_decodes self request_log_config request body_bytes :
  inline_body env self request_log_config request body_bytes
  = match bytes_decode (env_codecs env)
            (default "utf-8"
               (overridden (body_encoding (log_config self))
                           (body_encoding request_log_config)))
            body_bytes with
    | Some t => Ok t
    | None => Raise UnicodeError
    end.
Proof.
  unfold inline_body, BodyType_dot_TEXT, BodyType_truthy. simpl.
  by destruct (overridden _ _).
Qed.

(** C7, as the code has it: whatever the classification, the body
    entry is the body decoded with the effective encoding, or the
    record is given up on a decoding error; the hexadecimal branch is
    never taken, since the test [body_type.TEXT] is the member
    [TEXT], which is true. *)
Theorem C7_body_is_decoded_whatever_its_type self request_log_config request
    body_bytes body :
  inline_body env self request_log_config request body_bytes = Ok body <->
  bytes_decode (env_codecs env)
    (default "utf-8"
       (overridden (body_encoding (log_config self))
                   (body_encoding request_log_config)))
    body_bytes = Some body.
Proof.
  rewrite inline_body_decodes. destruct (bytes_decode _ _ _); naive_solver.
Qed.

End LoggedBody.

(** The classification itself: the media types a JSON or a plain text
    body comes with are classified [BYTES], since the first two
    literals of the set are one element. *)
Example json_is_classified_bytes :
  mime_type_to_body_type "application/json" = BYTES /\
  mime_type_to_body_type "text/plain" = BYTES /\
  mime_type_to_body_type "application/x-www-form-urlencoded" = TEXT.
Proof. repeat split; vm_compute; reflexivity. Qed.

(** The scenario of the specification: the JSON body is logged as its
    text. *)
Example json_body_logged_as_text :
  logged_body (log_request env0 "T" logger_auto request_json None
                 (respond "" []) (api_server ∅))
  = Some (Some (text_of_string "{" ++ [34; 97; 34]%N ++ text_of_string ":1}")).
Proof. vm_compute. reflexivity. Qed.

(** A body configured as [bytes] is logged as text where the claim
    has its hexadecimal form, and a body that is not UTF-8 costs the
    record. *)
Example bytes_body_logged_as_text :
  logged_body (log_request env0 "T" logger_bytes request_binary None
                 (respond "" []) (api_server ∅))
  = Some (Some [1; 2]%N) /\
  text_of_string (bytes_hex (req_body request_binary)) = text_of_string "0102" /\
  (log_request env0 "T" logger_bytes request_not_utf8 None
     (respond "" []) (api_server ∅)).2 = LogError UnicodeError.
Proof. repeat split; vm_compute; reflexivity. Qed.

(** ** The rendered response *)

Section Rendering.

Context (env : Env).

Lemma rendered_body now logger request request_config response_config server_config :
  body_of (rendered env now logger request request_config response_config
             server_config)
  = HttpBody_bytes env (response_body response_config).
Proof. done. Qed.

Lemma rendered_raw_headers now logger request request_config response_config
    server_config :
  raw_headers (rendered env now logger request request_config response_config
                 server_config)
  = (init_headers (HttpBody_bytes env (response_body response_config))
       (Some (headers response_config))).1.
Proof. done. Qed.

(** A literal string with the encoding [utf-8] is rendered as its
    UTF-8 bytes. *)
Lemma literal_utf8_bytes b s bs :
  file b = None -> data b = DataStr s -> data_encoding b = Some "utf-8" ->
  utf8_encode s = Some bs ->
  HttpBody_bytes env b = bs.
Proof.
  intros Hfile Hdata Henc Hbs. unfold HttpBody_bytes, str_encode.
  by rewrite Hfile, Hdata, Henc, decide_True, Hbs.
Qed.

Lemma latin1_encode_inj s1 s2 : latin1_encode s1 = latin1_encode s2 -> s1 = s2.
Proof.
  unfold latin1_encode. revert s2.
  induction s1 as [|c1 s1 IH]; intros [|c2 s2]; simpl; try done.
  intros [= Hc Hs]. f_equal; [|by apply IH].
  by rewrite <- (ascii_of_byte_of_ascii c1), Hc, ascii_of_byte_of_ascii.
Qed.

(** The header list names the length of the body under
    [content-length]. *)
Lemma init_headers_content_length self_body headers :
  (content_length, decimal (length self_body))
    ∈ (init_headers self_body headers).1.
Proof.
  unfold init_headers. simpl.
  apply (list_elem_of_fmap_2
           (fun kv : string * string =>
              (latin1_encode (str_lower kv.1), latin1_encode kv.2))
           _ ("content-length", str_of_nat (length self_body))).
  apply dict_set_elem.
Qed.

Lemma dict_set_value (d : dict string) k v v' :
  NoDup d.*1 -> (k, v') ∈ dict_set d k v -> v' = v.
Proof.
  induction d as [|[k0 v0] d IH]; simpl.
  - intros _ [= ->]%list_elem_of_singleton. done.
  - intros [Hnotin Hnodup]%NoDup_cons. case_decide as Hk.
    + subst k0. intros [[= ->]|Hin]%elem_of_cons; [done|].
      destruct Hnotin. apply list_elem_of_fmap. by exists (k, v').
    + intros [[= -> _]|Hin]%elem_of_cons; [done|]. by apply IH.
Qed.

(** It names nothing else under [content-length] when the configured
    header names leave that spelling alone. *)
Lemma init_headers_content_length_only self_body headers value :
  NoDup headers.*1 -> one_content_length headers ->
  (content_length, value) ∈ (init_headers self_body (Some headers)).1 ->
  value = decimal (length self_body).
Proof.
  intros Hnodup Hone. unfold init_headers. simpl.
  intros ([k v] & [= Hk ->] & Hin)%list_elem_of_fmap. simpl in *.
  apply latin1_encode_inj in Hk. unfold decimal. f_equal.
  destruct (decide (k = "content-length")) as [->|Hne].
  - by apply dict_set_value in Hin.
  - apply dict_set_elem_other in Hin; [|done].
    destruct Hne. by eapply Hone.
Qed.

End Rendering.

(** C8, as the code has it: a configured header [Content-Length]
    stays in the header list, ahead of the computed one, so the value
    read under [content-length] is the configured [0] while the body
    has four bytes. *)
Theorem C8_configured_content_length_is_kept :
  body_of (rendered env0 "T" RequestLogger_new request_plain None
             respond_pong_length (api_server ∅)) = latin1_encode "pong" /\
  raw_headers (rendered env0 "T" RequestLogger_new request_plain None
                 respond_pong_length (api_server ∅))
  = [ (content_length, decimal 0); (content_length, decimal 4) ] /\
  raw_header_get content_length
    (raw_headers (rendered env0 "T" RequestLogger_new request_plain None
                    respond_pong_length (api_server ∅)))
  = Some (decimal 0).
Proof. repeat split; vm_compute; reflexivity. Qed.

(** ** UTF-8 *)

Section Utf8.

Lemma to_N_byte_of_N n : (n < 256)%N -> Byte.to_N (byte_of_N n) = n.
Proof.
  intros Hn. unfold byte_of_N. destruct (Byte.of_N n) as [b|] eqn:Hb.
  - by apply Byte.to_of_N.
  - apply Byte.of_N_None_iff in Hb. lia.
Qed.

Lemma utf8_cont_byte n :
  (n < 64)%N -> utf8_cont (byte_of_N (128 + n)) = Some n.
Proof.
  intros Hn. unfold utf8_cont. rewrite to_N_byte_of_N by lia.
  replace ((128 <=? 128 + n) && (128 + n <? 192))%N with true.
  - f_equal. lia.
  - symmetry. apply andb_true_iff. split; [apply N.leb_le|apply N.ltb_lt]; lia.
Qed.

(** Decoding reads back the character that was encoded. *)
Lemma utf8_decode_char c b rest fuel :
  utf8_encode_char c = Some b ->
  utf8_decode_fuel (S fuel) (b ++ rest) = cons c <$> utf8_decode_fuel fuel rest.
Proof.
  unfold utf8_encode_char.
  destruct (c <? 128)%N eqn:H1; [|destruct (c <? 2048)%N eqn:H2;
    [|destruct (c <? 65536)%N eqn:H3;
      [destruct ((55296 <=? c) && (c <=? 57343))%N eqn:Hs|
       destruct (c <=? 1114111)%N eqn:H4]]]; intros [= <-]; try done.
  - apply N.ltb_lt in H1. cbn [app utf8_decode_fuel].
    rewrite to_N_byte_of_N by lia. by decide_ltb.
  - apply N.ltb_ge in H1. apply N.ltb_lt in H2. cbn [app utf8_decode_fuel].
    rewrite to_N_byte_of_N, utf8_cont_byte by div_lia. cbv zeta.
    decide_ltb. do 2 f_equal. div_lia.
  - apply N.ltb_ge in H2. apply N.ltb_lt in H3. cbn [app utf8_decode_fuel].
    rewrite to_N_byte_of_N, !utf8_cont_byte by div_lia. cbv zeta.
    replace ((224 + c / 4096 - 224) * 4096 + (c / 64) mod 64 * 64 + c mod 64)%N
      with c by div_lia.
    rewrite Hs. decide_ltb. done.
  - apply N.ltb_ge in H3. apply N.leb_le in H4. cbn [app utf8_decode_fuel].
    rewrite to_N_byte_of_N, !utf8_cont_byte by div_lia. cbv zeta.
    replace ((240 + c / 262144 - 240) * 262144 + (c / 4096) mod 64 * 4096
             + (c / 64) mod 64 * 64 + c mod 64)%N
      with c by div_lia.
    decide_ltb. done.
Qed.

Lemma utf8_encode_char_length c b :
  utf8_encode_char c = Some b -> (1 <= length b)%nat.
Proof.
  unfold utf8_encode_char. repeat case_match; intros [= <-]; simpl; lia.
Qed.

Lemma utf8_decode_encode_fuel s bs fuel :
  utf8_encode s = Some bs -> (length bs <= fuel)%nat ->
  utf8_decode_fuel fuel bs = Some s.
Proof.
  revert bs fuel. induction s as [|c s IH]; intros bs fuel; simpl.
  - intros [= <-] _. by destruct fuel.
  - destruct (utf8_encode_char c) as [b|] eqn:Hc; [|done].
    destruct (utf8_encode s) as [bs'|] eqn:Hs; [|done].
    intros [= <-] Hfuel. rewrite length_app in Hfuel.
    pose proof (utf8_encode_char_length c b Hc).
    destruct fuel as [|fuel]; [lia|].
    rewrite (utf8_decode_char c b bs' fuel Hc), (IH bs' fuel) by (done || lia).
    done.
Qed.

(** Decoding the UTF-8 encoding of a text gives the text back. *)
Lemma utf8_decode_encode s bs : utf8_encode s = Some bs -> utf8_decode bs = Some s.
Proof. intros Hs. by apply utf8_decode_encode_fuel. Qed.

End Utf8.

(** ** Further properties of the code *)

Section Further.

Context (env : Env).

(** The body of a response configured from a literal string with the
    encoding [utf-8] is the UTF-8 encoding of the string, and decoding
    it gives the string back. *)
Theorem literal_body_round_trip now logger request request_config response_config
    server_config s bs :
  file (response_body response_config) = None ->
  data (response_body response_config) = DataStr s ->
  data_encoding (response_body response_config) = Some "utf-8" ->
  utf8_encode s = Some bs ->
  body_of (rendered env now logger request request_config response_config
             server_config) = bs /\
  utf8_decode (body_of (rendered env now logger request request_config
                          response_config server_config)) = Some s.
Proof.
  intros Hfile Hdata Henc Hbs. rewrite rendered_body.
  rewrite (literal_utf8_bytes env _ s bs Hfile Hdata Henc Hbs).
  split; [done|]. by apply utf8_decode_encode.
Qed.

(** When no configured header is a differently spelled
    [content-length], the header read under that name is the length
    of the body. *)
Theorem content_length_is_the_body_length now logger request request_config
    response_config server_config :
  NoDup (headers response_config).*1 ->
  one_content_length (headers response_config) ->
  raw_header_get content_length
    (raw_headers (rendered env now logger request request_config response_config
                    server_config))
  = Some (decimal (length (body_of (rendered env now logger request request_config
                                      response_config server_config)))).
Proof.
  intros Hnodup Hone. rewrite rendered_raw_headers, rendered_body.
  set (b := HttpBody_bytes env (response_body response_config)).
  unfold raw_header_get.
  destruct (List.find _ _) as [[k v]|] eqn:Hfind; simpl.
  - apply find_some in Hfind as [Hin Hk]. simpl in Hk.
    apply bool_decide_eq_true in Hk as ->. f_equal.
    apply (init_headers_content_length_only b (headers response_config));
      [done|done|]. by apply list_elem_of_In.
  - pose proof (init_headers_content_length b (Some (headers response_config)))
      as Hin.
    apply list_elem_of_In in Hin.
    apply (find_none _ _ Hfind) in Hin.
    apply bool_decide_eq_false in Hin. by destruct Hin.
Qed.

(** A rule that declares a body fits no request, not even one whose
    body is the declared one: [request.body()] is compared without
    being awaited. *)
Theorem rule_with_body_fits_no_request request rc sc b :
  body rc = Some b ->
  req_body request = HttpBody_bytes env b ->
  is_request_fit env request rc sc <> Ok true.
Proof. intros Hb _. by apply is_request_fit_with_body with b. Qed.


End Further.

(** The [identity] of a server is its host, port and path; a server
    whose URL has no port has none, the [None] of the missing group
    cannot be added to a string. *)
Theorem identity_needs_a_port p :
  well_formed p ->
  identity (server_with_url (assemble p))
  = match up_port p with
    | Some d => Ok (up_host p +:+ (":" +:+ d) +:+ path_text (up_path p))
    | None => Raise TypeError
    end.
Proof.
  intros Hwf. unfold identity, base_url_group. simpl.
  rewrite (base_url_match p Hwf). simpl.
  rewrite groups_of_host, groups_of_colon_port, groups_of_path.
  by destruct (up_port p).
Qed.

Lemma literal_body_round_trip_witness :
  body_of (rendered env0 "T" RequestLogger_new request_plain None respond_four
             (api_server ∅)) = bytes_four /\
  utf8_decode (body_of (rendered env0 "T" RequestLogger_new request_plain None
                          respond_four (api_server ∅))) = Some text_four.
Proof.
  apply (literal_body_round_trip env0 "T" RequestLogger_new request_plain None
           respond_four (api_server ∅) text_four bytes_four);
    vm_compute; reflexivity.
Defined.

Lemma content_length_is_the_body_length_witness :
  raw_header_get content_length
    (raw_headers (rendered env0 "T" RequestLogger_new request_plain None
                    respond_pong_traced (api_server ∅)))
  = Some (decimal (length (body_of (rendered env0 "T" RequestLogger_new
                                      request_plain None respond_pong_traced
                                      (api_server ∅))))).
Proof.
  apply (content_length_is_the_body_length env0 "T" RequestLogger_new
           request_plain None respond_pong_traced (api_server ∅)).
  - apply NoDup_singleton.
  - intros k v [= -> ->]%list_elem_of_singleton. vm_compute. discriminate.
Defined.

Lemma rule_with_body_fits_no_request_witness :
  is_request_fit env0 request_hello rule_hello (api_server ∅) <> Ok true.
Proof.
  apply (rule_with_body_fits_no_request env0 request_hello rule_hello
           (api_server ∅) (body_of_str "hello")); reflexivity.
Defined.


Lemma identity_needs_a_port_witness :
  identity (server_with_url "localhost/api") = Raise TypeError /\
  identity (server_with_url "HTTPS://my.host:8443/api/v1")
  = Ok "my.host:8443/api/v1".
Proof.
  split.
  - apply (identity_needs_a_port parts_bare).
    repeat split; try done.
    constructor; [|constructor]. by split.
  - apply (identity_needs_a_port parts_full).
    unfold well_formed. simpl.
    split; [split; [done|split; [done|by exists HTTPS]]|].
    split; [done|]. split; [done|].
    split; [split; [done|split; [lia|split; [done|vm_compute; discriminate]]]|].
    repeat (constructor; [by split|]). constructor.
Defined.

Lemma reload_succeeds_witness :
  exists st',
    apply_changes host0 env_again 3000001 5 controller0 (polled tick_again)
    = (st', Returned).
Proof.
  apply (reload_succeeds host0 env_again 3000001 5 controller0 (polled tick_again)
           (latin1_encode "two rules, again") config_two_rules
           [(app_two_rules, server_two_rules)]).
  - by apply supervised_running0.
  - vm_compute. reflexivity.
  - vm_compute. reflexivity.
  - vm_compute. reflexivity.
  - vm_compute. lia.
Defined.

Lemma startup_supervised_witness :
  exists c, controller running0 = Some c /\ supervised c (sys running0).
Proof.
  apply (startup_supervised host0 env_two_rules 0 "cap.yml" running0).
  vm_compute. reflexivity.
Defined.

(** ** The loader between its calls *)

Section Loader.

(** The flag is up only after a read. *)
Lemma perform_read_before_flag env c self :
  (is_changed self = true -> last_read self <> None) ->
  is_changed (perform env c self) = true -> last_read (perform env c self) <> None.
Proof.
  intros Hinv. destruct c as [now now'| |now]; simpl; [|done|].
  - unfold do_load. destruct (do_load_due now self) as [[]|]; simpl; [|done..].
    unfold read_file_of. simpl. by destruct (read_file env (filename self)).
  - unfold get_file_value. destruct (cached_value self); [done|].
    unfold read_file_of. simpl. by destruct (read_file env (filename self)).
Qed.

Lemma run_calls_read_before_flag calls self :
  (is_changed self = true -> last_read self <> None) ->
  is_changed (run_calls calls self) = true -> last_read (run_calls calls self) <> None.
Proof.
  revert self. induction calls as [|[env c] calls IH]; intros self Hinv; [done|].
  apply IH. by apply perform_read_before_flag.
Qed.

Lemma run_calls_filename calls self :
  filename (run_calls calls self) = filename self.
Proof.
  revert self. induction calls as [|[env c] calls IH]; intros self; [done|].
  simpl. fold (run_calls calls (perform env c self)).
  by rewrite IH, perform_filename.
Qed.

(** Whatever was called on a loader since it was made, [do_load]
    returns or raises the IOError of a file that cannot be read; the
    sum of [None] and a time span is never evaluated. *)
Theorem do_load_raises_only_for_an_unreadable_file calls name env now now' :
  (do_load env now now' (run_calls calls (ConfigFileLoader_new name))).1 = Ok tt \/
  read_file env name = None /\
  (do_load env now now' (run_calls calls (ConfigFileLoader_new name))).1
  = Raise (IOError ("Config file '" +:+ name +:+ "' reading error")).
Proof.
  pose proof (run_calls_read_before_flag calls (ConfigFileLoader_new name)) as Hinv.
  pose proof (run_calls_filename calls (ConfigFileLoader_new name)) as Hname.
  simpl in Hname.
  destruct (run_calls calls (ConfigFileLoader_new name)) as [f lr ri cv fh ch].
  simpl in *. subst f. unfold do_load, do_load_due, read_file_of. simpl.
  destruct ch, lr as [t|]; simpl.
  - destruct (t + ri <=? now); simpl; [|by left].
    destruct (read_file env name); simpl; [by left|by right].
  - by destruct Hinv.
  - destruct (t + ri <=? now); simpl; [|by left].
    destruct (read_file env name); simpl; [by left|by right].
  - destruct (read_file env name); simpl; [by left|by right].
Qed.

(** A [do_load] that is due and finds bytes with another hash raises
    the flag and keeps the bytes: [get_file_value] then returns them
    without a look at the file. *)
Theorem do_load_detects_change env env' now now' now'' self t content :
  last_read self = Some t ->
  t + read_interval self <= now ->
  read_file env (filename self) = Some content ->
  file_hash self <> Some (calculate_hash env content) ->
  exists self',
    do_load env now now' self = (Ok tt, self') /\
    is_changed self' = true /\
    last_read self' = Some now' /\
    file_hash self' = Some (calculate_hash env content) /\
    get_file_value env' now'' self' = (Ok content, self').
Proof.
  intros Hlast Hdue Hread Hhash.
  unfold do_load, do_load_due, read_file_of. simpl.
  rewrite Hlast, Hread. simpl.
  rewrite andb_false_r, (proj2 (Z.leb_le _ _) Hdue).
  rewrite bool_decide_eq_false_2 by congruence. simpl.
  eexists. split; [done|]. by repeat split.
Qed.

End Loader.

(** ** The headers of a response *)

Section Headers.

Lemma dict_set_dict_set {V} (d : dict V) k v v' :
  dict_set (dict_set d k v) k v' = dict_set d k v'.
Proof.
  induction d as [|[k0 v0] d IH]; simpl.
  - by rewrite decide_True.
  - destruct (decide (k0 = k)) as [->|Hne]; simpl.
    + by rewrite decide_True.
    + by rewrite decide_False, IH.
Qed.

(** [RawResponse] writes the length into the header dictionary of the
    configuration itself.  The next response built from that
    dictionary has the headers a first one would have: the length
    left there is replaced in its place, whatever the length of the
    new body. *)
Theorem init_headers_replaces_its_own_length b b' h :
  init_headers b' (Some (init_headers b h).2) = init_headers b' h.
Proof.
  unfold init_headers. simpl. rewrite dict_set_dict_set.
  by destruct h.
Qed.

Lemma lower_char_idemp c : lower_char (lower_char c) = lower_char c.
Proof. destruct c as [[] [] [] [] [] [] [] []]; vm_compute; reflexivity. Qed.

Lemma str_lower_idemp s : str_lower (str_lower s) = str_lower s.
Proof. induction s as [|c s IH]; simpl; [done|]. by rewrite lower_char_idemp, IH. Qed.

Lemma dict_set_keeps {V} (d : dict V) k v k' v' :
  (k', v') ∈ d -> k' <> k -> (k', v') ∈ dict_set d k v.
Proof.
  intros Hin Hne. induction d as [|[k0 v0] d IH]; simpl; [by apply elem_of_nil in Hin|].
  apply elem_of_cons in Hin as [[= <- <-]|Hin].
  - rewrite decide_False by done. apply list_elem_of_here.
  - case_decide; apply list_elem_of_further; [|by apply IH].
    done.
Qed.

End Headers.

Section BodyFiles.

Lemma to_uint_not_Nil n : Nat.to_uint n <> Decimal.Nil.
Proof.
  intros Hnil. pose proof (Unsigned.of_to n) as Hn. rewrite Hnil in Hn.
  simpl in Hn. subst n. discriminate.
Qed.

Lemma str_of_nat_inj n m : str_of_nat n = str_of_nat m -> n = m.
Proof.
  unfold str_of_nat. intros Heq.
  pose proof (NilZero.usu _ (to_uint_not_Nil n)) as Hn.
  pose proof (NilZero.usu _ (to_uint_not_Nil m)) as Hm.
  rewrite Heq, Hm in Hn. injection Hn as Hn.
  by rewrite <- (Unsigned.of_to n), <- (Unsigned.of_to m), Hn.
Qed.

Lemma underscore_split a b x y :
  all_chars not_underscore a = true -> all_chars not_underscore b = true ->
  a +:+ String "_" x = b +:+ String "_" y -> a = b /\ x = y.
Proof.
  revert b. induction a as [|c a IH]; intros [|c' b] Ha Hb.
  - rewrite !append_nil. by intros [= ->].
  - rewrite append_nil, append_cons. intros [= <- _].
    simpl in Hb. by vm_compute in Hb.
  - rewrite append_nil, append_cons. intros [= -> _].
    simpl in Ha. by vm_compute in Ha.
  - rewrite !append_cons. intros [= -> Heq].
    simpl in Ha, Hb. apply andb_true_iff in Ha as [_ Ha].
    apply andb_true_iff in Hb as [_ Hb].
    destruct (IH b Ha Hb Heq) as [-> ->]. done.
Qed.

Context (env : Env).

Lemma string_of_uint_chars (p : ascii -> bool) d :
  (forall c, is_digit c = true -> p c = true) ->
  all_chars p (NilZero.string_of_uint d) = true.
Proof.
  intros Hp.
  assert (Hd : forall d, all_chars p (NilEmpty.string_of_uint d) = true).
  { clear d. induction d as [|d IH|d IH|d IH|d IH|d IH|d IH|d IH|d IH|d IH|d IH];
      simpl; [done|..]; rewrite IH, andb_true_r; by apply Hp. }
  destruct d; try apply Hd. simpl. rewrite andb_true_r. by apply Hp.
Qed.

Lemma slash_split a b x y :
  all_chars not_slash x = true -> all_chars not_slash y = true ->
  a +:+ String "/" x = b +:+ String "/" y -> x = y.
Proof.
  intros Hx Hy. revert b. induction a as [|c a IH]; intros [|c' b].
  - rewrite !append_nil. by intros [= ->].
  - rewrite append_nil, append_cons. intros [= <- ->].
    by rewrite all_chars_app, andb_false_r in Hx.
  - rewrite append_nil, append_cons. intros [= -> <-].
    by rewrite all_chars_app, andb_false_r in Hy.
  - rewrite !append_cons. intros [= -> Heq]. by apply (IH b).
Qed.

(** The name of a body file determines the counter it was built
    from. *)
Lemma body_file_path_inj base base' now now' n n' :
  all_chars not_underscore now = true -> all_chars not_slash now = true ->
  all_chars not_underscore now' = true -> all_chars not_slash now' = true ->
  base +:+ "/" +:+ now +:+ "_" +:+ str_of_nat n
  = base' +:+ "/" +:+ now' +:+ "_" +:+ str_of_nat n' ->
  n = n'.
Proof.
  intros Hu Hs Hu' Hs'.
  assert (Hname : forall t m, all_chars not_slash t = true ->
            all_chars not_slash (t +:+ "_" +:+ str_of_nat m) = true).
  { intros t m Ht. rewrite all_chars_app, Ht. simpl.
    apply string_of_uint_chars. intros c Hc.
    unfold not_slash. destruct (Ascii.eqb_spec c "/") as [->|]; [|done].
    by vm_compute in Hc. }
  change ("/" +:+ ?t) with (String "/" t).
  intros Heq%slash_split; [|by apply Hname..].
  revert Heq. change ("_" +:+ ?t) with (String "_" t).
  intros [_ Heq]%underscore_split; [|done..].
  by apply str_of_nat_inj.
Qed.

(** What a call of [log_request] does to the counter, and the name of
    the file it writes. *)
Lemma log_request_file now self request rule response server :
  (request_id self
   <= request_id (log_request env now self request rule response server).1.1)%nat /\
  forall path b,
    (log_request env now self request rule response server).1.2 = Some (path, b) ->
    (exists base, path = base +:+ "/" +:+ now +:+ "_" +:+ str_of_nat (request_id self)) /\
    request_id (log_request env now self request rule response server).1.1
    = S (request_id self).
Proof.
  unfold log_request.
  destruct (truthy_str _ || truthy_bool _); [|by split; [simpl; lia|]].
  destruct (server_url server) as [url|]; [|by split; [simpl; lia|]].
  destruct (truthy_bool (overridden (body_enabled _) _));
    [|by split; [simpl; lia|]].
  destruct (truthy_bool (overridden (body_as_file _) _)).
  - unfold create_body_file_name. cbn [str_join].
    destruct (file_writable env _); simpl.
    + split; [lia|]. intros path b [= <- _]. split; [|done]. eauto.
    + split; [lia|done].
  - destruct (inline_body _ _ _ _ _); by split; [simpl; lia|].
Qed.

Lemma body_files_counter calls self j path b :
  Forall (fun c => all_chars not_underscore (call_now c) = true /\
                   all_chars not_slash (call_now c) = true) calls ->
  body_files env calls self !! j = Some (Some (path, b)) ->
  exists base now n,
    all_chars not_underscore now = true /\ all_chars not_slash now = true /\
    path = base +:+ "/" +:+ now +:+ "_" +:+ str_of_nat n /\
    (request_id self <= n)%nat.
Proof.
  intros Hcalls. revert self j.
  induction Hcalls as [|c calls [Hu Hs] _ IH]; intros self j; [done|].
  pose proof (log_request_file (call_now c) self (call_request c) (call_rule c)
                (call_response c) (call_server c)) as [Hle Hfile].
  destruct j as [|j]; cbn [body_files lookup list_lookup].
  - intros [= Hpath]. destruct (Hfile _ _ Hpath) as [[base ->] _].
    exists base, (call_now c), (request_id self). by repeat split.
  - intros (base & now & n & ? & ? & -> & Hn)%IH.
    exists base, now, n. repeat split; [done..|lia].
Qed.

Lemma body_files_are_distinct_lt calls self i j f g :
  Forall (fun c => all_chars not_underscore (call_now c) = true /\
                   all_chars not_slash (call_now c) = true) calls ->
  (i < j)%nat ->
  body_files env calls self !! i = Some (Some f) ->
  body_files env calls self !! j = Some (Some g) ->
  f.1 <> g.1.
Proof.
  intros Hcalls. revert self i j.
  induction Hcalls as [|c calls [Hu Hs] Hrest IH]; intros self i j Hij; [done|].
  pose proof (log_request_file (call_now c) self (call_request c) (call_rule c)
                (call_response c) (call_server c)) as [Hle Hfile].
  destruct j as [|j]; [lia|]. destruct i as [|i]; cbn [body_files lookup list_lookup].
  - destruct f as [path b], g as [path' b']. intros [= Hpath] Hg. simpl.
    destruct (Hfile _ _ Hpath) as [[base ->] Hnext].
    apply body_files_counter in Hg as (base' & now' & n' & Hu' & Hs' & -> & Hn');
      [|done].
    intros Heq%body_file_path_inj; [|done..]. lia.
  - apply IH. lia.
Qed.

(** Over the requests that one logger handles one after the other, no
    two body files have the same path, whatever the instants of the
    requests and the folders of the files: every request finds the
    counter above the one in every earlier name.  The instants are
    what [isoformat] writes, digits with [-], [T], [:] and [.] between
    them, so they hold no underscore and no slash. *)
Theorem body_files_are_distinct calls self i j f g :
  Forall (fun c => all_chars not_underscore (call_now c) = true /\
                   all_chars not_slash (call_now c) = true) calls ->
  i <> j ->
  body_files env calls self !! i = Some (Some f) ->
  body_files env calls self !! j = Some (Some g) ->
  f.1 <> g.1.
Proof.
  intros Hcalls Hij Hf Hg.
  destruct (decide (i < j)%nat) as [Hlt|Hge].
  - by eapply body_files_are_distinct_lt.
  - intros Heq. symmetry in Heq. revert Heq.
    eapply (body_files_are_distinct_lt calls self j i); [done|lia|done..].
Qed.

End BodyFiles.

Section Utf8Strict.

Lemma byte_of_to_N b : byte_of_N (Byte.to_N b) = b.
Proof. unfold byte_of_N. by rewrite Byte.of_to_N. Qed.

Lemma utf8_cont_inv b c :
  utf8_cont b = Some c -> Byte.to_N b = (128 + c)%N /\ (c < 64)%N.
Proof.
  unfold utf8_cont.
  destruct (_ && _) eqn:Hb; [|done]. intros [= <-].
  apply andb_true_iff in Hb as [H1%N.leb_le H2%N.ltb_lt]. lia.
Qed.

Lemma byte_eq_of_N b n : Byte.to_N b = n -> byte_of_N n = b.
Proof. intros <-. apply byte_of_to_N. Qed.

(** What decodes is the encoding of what it decodes to. *)
Lemma utf8_encode_decode_fuel fuel bs s :
  utf8_decode_fuel fuel bs = Some s -> utf8_encode s = Some bs.
Proof.
  revert bs s. induction fuel as [|fuel IH]; intros [|b0 r0] s; simpl;
    try (by intros [= <-]).
  pose proof (Byte.to_N_bounded b0) as Hb0.
  destruct (Byte.to_N b0 <? 128)%N eqn:H1.
  { apply N.ltb_lt in H1.
    destruct (utf8_decode_fuel fuel r0) as [s'|] eqn:Hs'; [|done].
    intros [= <-]. simpl. unfold utf8_encode_char.
    rewrite (proj2 (N.ltb_lt _ _) H1), (IH _ _ Hs'), byte_of_to_N. done. }
  apply N.ltb_ge in H1.
  destruct (Byte.to_N b0 <? 192)%N eqn:H2; [done|]. apply N.ltb_ge in H2.
  destruct (Byte.to_N b0 <? 224)%N eqn:H3.
  { apply N.ltb_lt in H3. destruct r0 as [|b1 r1]; [done|].
    destruct (utf8_cont b1) as [c1|] eqn:Hc1; [|done].
    apply utf8_cont_inv in Hc1 as [Hb1 Hc1]. cbv zeta.
    destruct (_ <? 128)%N eqn:Hlow; [done|]. apply N.ltb_ge in Hlow.
    destruct (utf8_decode_fuel fuel r1) as [s'|] eqn:Hs'; [|done].
    intros [= <-]. simpl. rewrite (IH _ _ Hs'). unfold utf8_encode_char.
    decide_ltb. simpl. do 3 f_equal; apply byte_eq_of_N; div_lia. }
  apply N.ltb_ge in H3.
  destruct (Byte.to_N b0 <? 240)%N eqn:H4.
  { apply N.ltb_lt in H4. destruct r0 as [|b1 [|b2 r2]]; [done..|].
    destruct (utf8_cont b1) as [c1|] eqn:Hc1; [|done].
    destruct (utf8_cont b2) as [c2|] eqn:Hc2; [|done].
    apply utf8_cont_inv in Hc1 as [Hb1 Hc1].
    apply utf8_cont_inv in Hc2 as [Hb2 Hc2]. cbv zeta.
    destruct (_ <? 2048)%N eqn:Hlow; [done|]. apply N.ltb_ge in Hlow.
    destruct (_ && _) eqn:Hsur; [done|].
    destruct (utf8_decode_fuel fuel r2) as [s'|] eqn:Hs'; [|done].
    intros [= <-]. simpl. rewrite (IH _ _ Hs'). unfold utf8_encode_char.
    rewrite Hsur. decide_ltb. simpl.
    do 2 f_equal; [|f_equal; [|f_equal]]; apply byte_eq_of_N; div_lia. }
  apply N.ltb_ge in H4.
  destruct (Byte.to_N b0 <? 248)%N eqn:H5; [|done].
  apply N.ltb_lt in H5. destruct r0 as [|b1 [|b2 [|b3 r3]]]; [done..|].
  destruct (utf8_cont b1) as [c1|] eqn:Hc1; [|done].
  destruct (utf8_cont b2) as [c2|] eqn:Hc2; [|done].
  destruct (utf8_cont b3) as [c3|] eqn:Hc3; [|done].
  apply utf8_cont_inv in Hc1 as [Hb1 Hc1].
  apply utf8_cont_inv in Hc2 as [Hb2 Hc2].
  apply utf8_cont_inv in Hc3 as [Hb3 Hc3]. cbv zeta.
  destruct (_ <? 65536)%N eqn:Hlow; [done|]. apply N.ltb_ge in Hlow.
  destruct (1114111 <? _)%N eqn:Hhigh; [done|]. apply N.ltb_ge in Hhigh.
  destruct (utf8_decode_fuel fuel r3) as [s'|] eqn:Hs'; [|done].
  intros [= <-]. simpl. rewrite (IH _ _ Hs'). unfold utf8_encode_char.
  decide_ltb. simpl.
  do 2 f_equal; [|f_equal; [|f_equal; [|f_equal]]]; apply byte_eq_of_N; div_lia.
Qed.

End Utf8Strict.

(** ** What a parsed configuration is known to satisfy *)

Section Parsed.

Context (env : Env).

Lemma check_base_url_Ok_inv url u :
  check_base_url url = Ok u ->
  u = url /\
  exists m, re_match get_base_url_pattern url = Some m /\
    (forall raw, m !! 2%nat = Some raw ->
                 is_Some (Schema_get_key_by_value (str_lower raw))) /\
    (forall raw, m !! 5%nat = Some raw -> 0 <= int_of_digits raw <= 65535).
Proof.
  unfold check_base_url.
  destruct (re_match get_base_url_pattern url) as [m|]; [|done].
  intros Hcheck. assert (u = url) as ->.
  { destruct (m !! 2%nat) as [raw_schema|]; simpl in Hcheck.
    - destruct (Schema_get_key_by_value _); simpl in Hcheck; [|done].
      destruct (m !! 5%nat); [destruct (negb _)|]; congruence.
    - destruct (m !! 5%nat); [destruct (negb _)|]; congruence. }
  split; [done|]. exists m. split; [done|]. split.
  - intros raw Hraw. rewrite Hraw in Hcheck.
    by destruct (Schema_get_key_by_value (str_lower raw)).
  - intros raw Hraw. rewrite Hraw in Hcheck.
    destruct (match m !! 2%nat with Some _ => _ | None => _ end); simpl in Hcheck;
      [|done].
    destruct (negb _) eqn:Hrange; [done|].
    apply negb_false_iff, andb_true_iff in Hrange as [?%Z.leb_le ?%Z.leb_le].
    done.
Qed.

Lemma check_base_url_Raise url e :
  check_base_url url = Raise e -> exists msg, e = ValueError msg.
Proof.
  unfold check_base_url.
  destruct (re_match get_base_url_pattern url) as [m|]; [|intros [= <-]; eauto].
  destruct (m !! 2%nat) as [raw_schema|]; simpl.
  - destruct (Schema_get_key_by_value (str_lower raw_schema)); simpl;
      [|intros [= <-]; eauto].
    destruct (m !! 5%nat) as [raw_port|]; [|done].
    destruct (_ && _); simpl; [done|]. intros [= <-]; eauto.
  - destruct (m !! 5%nat) as [raw_port|]; [|done].
    destruct (_ && _); simpl; [done|]. intros [= <-]; eauto.
Qed.

Lemma accepted_url_derived sc :
  check_base_url (base_url sc) = Ok (base_url sc) ->
  (exists s, schema sc = Ok (Some s)) /\
  (exists p, port sc = Ok p /\ 0 <= p <= 65535) /\
  (exists mapping, base_mapping sc = Ok mapping).
Proof.
  intros (_ & m & Hm & Hschema & Hport)%check_base_url_Ok_inv.
  unfold schema, port, base_mapping, base_url_group. rewrite Hm. simpl.
  split; [|split].
  - destruct (m !! 2%nat) as [raw|]; [|by exists HTTP].
    destruct (Hschema raw eq_refl) as [s ->]. by exists s.
  - destruct (m !! 5%nat) as [raw|]; [|exists 80; split; [done|lia]].
    exists (int_of_digits raw). split; [done|]. by apply Hport.
  - destruct (m !! 6%nat) as [mapping|]; eauto.
Qed.

(** On a server whose URL passes [check_base_url] the properties
    derived from the URL are defined: [schema] is a member of
    [Schema], [port] is a number from 0 to 65535, [base_mapping] is a
    string. *)
Theorem accepted_url_has_schema_and_port sc :
  check_base_url (base_url sc) = Ok (base_url sc) ->
  (exists s, schema sc = Ok (Some s)) /\
  (exists p, port sc = Ok p /\ 0 <= p <= 65535) /\
  (exists mapping, base_mapping sc = Ok mapping).
Proof. apply accepted_url_derived. Qed.

Lemma for_each_Ok {A} (f : A -> result unit) l :
  for_each f l = Ok tt <-> Forall (fun x => f x = Ok tt) l.
Proof.
  induction l as [|x l IH]; simpl; [by split; [constructor|]|].
  destruct (f x) as [[]|e] eqn:Hx; simpl.
  - rewrite IH. split; [by constructor|]. by intros [_ ?]%Forall_cons.
  - split; [done|]. intros [? _]%Forall_cons. congruence.
Qed.

Lemma for_each_Raise {A} (f : A -> result unit) l e :
  for_each f l = Raise e -> exists x, x ∈ l /\ f x = Raise e.
Proof.
  induction l as [|x l IH]; simpl; [done|].
  destruct (f x) as [[]|e'] eqn:Hx; simpl.
  - intros (y & Hy & Hf)%IH. exists y. split; [by apply list_elem_of_further|done].
  - intros [= ->]. exists x. split; [apply list_elem_of_here|done].
Qed.

Lemma map_result_Raise {A B} (f : A -> result B) l e :
  map_result f l = Raise e -> exists x, x ∈ l /\ f x = Raise e.
Proof.
  induction l as [|x l IH]; simpl; [done|].
  destruct (f x) as [y|e'] eqn:Hx; simpl.
  - destruct (map_result f l) as [ys|e'']; simpl; [done|].
    intros [= ->]. destruct (IH eq_refl) as (z & Hz & Hf).
    exists z. split; [by apply list_elem_of_further|done].
  - intros [= ->]. exists x. split; [apply list_elem_of_here|done].
Qed.

Lemma ServerConfig_parse_obj_Ok raw s :
  ServerConfig_parse_obj raw = Ok s ->
  check_base_url (base_url s) = Ok (base_url s) /\
  requests_ids s = list_to_set (raw_requests_ids raw) /\
  default_response_id s = raw_default_response_id raw /\
  ssl_config s = raw_ssl_config raw /\ alias s = raw_alias raw.
Proof.
  unfold ServerConfig_parse_obj.
  destruct (check_base_url (raw_base_url raw)) as [url|e] eqn:Hurl; simpl; [|done].
  intros [= <-]. simpl.
  destruct (check_base_url_Ok_inv _ _ Hurl) as [-> _]. done.
Qed.

Lemma RequestLogConfig_parse_obj_Ok raw c :
  RequestLogConfig_parse_obj (env_codecs env) raw = Ok c ->
  c = raw /\
  forall encoding, body_encoding c = Some encoding ->
                   is_Some (str_encode (env_codecs env) encoding []).
Proof.
  unfold RequestLogConfig_parse_obj, check_encoding.
  destruct (body_encoding raw) as [encoding|] eqn:Henc; simpl.
  - destruct (str_encode _ encoding []) eqn:Hcodec; simpl; [|done].
    intros [= <-]. split; [done|]. intros encoding' Heq.
    rewrite Henc in Heq. injection Heq as <-. by rewrite Hcodec.
  - intros [= <-]. split; [done|]. intros encoding' Heq. congruence.
Qed.

Lemma RequestLogConfig_parse_obj_Raise raw e :
  RequestLogConfig_parse_obj (env_codecs env) raw = Raise e ->
  exists msg, e = ValueError msg.
Proof.
  unfold RequestLogConfig_parse_obj, check_encoding.
  destruct (body_encoding raw) as [encoding|]; simpl; [|done].
  destruct (str_encode _ encoding []); simpl; [done|]. intros [= <-]. eauto.
Qed.

Lemma Config_parse_obj_Raise raw e :
  Config_parse_obj env raw = Raise e -> exists msg, e = ValueError msg.
Proof.
  unfold Config_parse_obj. destruct (Nat.ltb _ _); [intros [= <-]; eauto|].
  destruct (map_result _ _) as [servers|e'] eqn:Hservers; simpl.
  - destruct (for_each _ _) as [[]|e''] eqn:Hresponses; simpl.
    + destruct (RequestLogConfig_parse_obj _ _) as [c|e'''] eqn:Hlog; simpl; [done|].
      intros [= <-]. by eapply RequestLogConfig_parse_obj_Raise.
    + intros [= <-].
      apply for_each_Raise in Hresponses as ([k r] & _ & Hr). simpl in Hr.
      unfold ResponseConfig_parse_obj in Hr.
      destruct (negb _); [injection Hr as <-; eauto|].
      destruct (RequestLogConfig_parse_obj _ _) as [c|e'''] eqn:Hlog; simpl in Hr;
        [done|].
      injection Hr as <-. by eapply RequestLogConfig_parse_obj_Raise.
  - intros [= <-].
    apply map_result_Raise in Hservers as (s & _ & Hs).
    unfold ServerConfig_parse_obj in Hs.
    destruct (check_base_url (raw_base_url s)) as [url|e''] eqn:Hurl; simpl in Hs;
      [done|].
    injection Hs as <-. by eapply check_base_url_Raise.
Qed.

Lemma Config_parse_obj_Ok raw config :
  Config_parse_obj env raw = Ok config ->
  servers config <> [] /\
  Forall2 (fun r s => ServerConfig_parse_obj r = Ok s) (raw_servers raw)
          (servers config) /\
  requests config = raw_requests raw /\
  responses config = raw_responses raw /\
  (forall k r, responses config !! k = Some r ->
     ResponseConfig_parse_obj (env_codecs env) r = Ok r) /\
  RequestLogConfig_parse_obj (env_codecs env) (global_request_log_config config)
  = Ok (global_request_log_config config).
Proof.
  unfold Config_parse_obj. destruct (Nat.ltb _ _) eqn:Hlen; [done|].
  apply Nat.ltb_ge in Hlen.
  destruct (map_result _ _) as [servers|e'] eqn:Hservers; simpl; [|done].
  destruct (for_each _ _) as [[]|e''] eqn:Hresponses; simpl; [|done].
  destruct (RequestLogConfig_parse_obj _ _) as [c|e'''] eqn:Hlog; simpl; [|done].
  intros [= <-]. simpl. apply map_result_Forall2 in Hservers.
  split; [|split; [done|split; [done|split; [done|split]]]].
  - intros ->. apply Forall2_nil_inv_r in Hservers. rewrite Hservers in Hlen.
    simpl in Hlen. lia.
  - intros k r Hk. apply for_each_Ok in Hresponses.
    apply elem_of_map_to_list in Hk.
    apply (proj1 (Forall_forall _ _) Hresponses) in Hk. simpl in Hk.
    unfold ResponseConfig_parse_obj in *.
    destruct (negb _); [done|].
    destruct (RequestLogConfig_parse_obj _ (request_log_config r)); simpl in *; done.
  - destruct (RequestLogConfig_parse_obj_Ok _ _ Hlog) as [-> _]. done.
Qed.

Lemma parsed_servers raw config s :
  Config_parse_obj env raw = Ok config -> s ∈ servers config ->
  check_base_url (base_url s) = Ok (base_url s).
Proof.
  intros (_ & Hservers & _)%Config_parse_obj_Ok Hs.
  apply list_elem_of_lookup in Hs as [i Hi].
  destruct (Forall2_lookup_r _ _ _ _ _ Hservers Hi) as (r & _ & Hr).
  by apply ServerConfig_parse_obj_Ok in Hr as [? _].
Qed.

Lemma validate_protocol_configured_Raise s e :
  check_base_url (base_url s) = Ok (base_url s) ->
  validate_protocol_configured s = Raise e -> exists msg, e = ValueError msg.
Proof.
  intros ([k Hk] & _)%accepted_url_derived.
  unfold validate_protocol_configured. rewrite Hk. simpl.
  destruct (_ && _); [intros [= <-]; eauto|].
  destruct (ssl_config s) as [c|]; [|done].
  unfold SslConfig_validate_config. destruct (_ && _); [|done].
  intros [= <-]. eauto.
Qed.

Lemma validate_Raise_ValueError raw config e :
  Config_parse_obj env raw = Ok config ->
  validate env config = Raise e -> exists msg, e = ValueError msg.
Proof.
  intros Hparse. unfold validate.
  destruct (for_each _ _) as [[]|e'] eqn:Hprotocol; simpl.
  - unfold validate_request_response_ids.
    destruct (fold_left _ (servers config) _) as [sr rr].
    destruct (negb _); [intros [= <-]; eauto|].
    destruct (negb _); [intros [= <-]; eauto|done].
  - intros [= <-]. apply for_each_Raise in Hprotocol as (s & Hs & Hraise).
    eapply validate_protocol_configured_Raise; [|done].
    by eapply parsed_servers.
Qed.

(** On a tree in which every value has the type of its field,
    [parse_config] raises nothing but IOError: every error of the
    field constraints, of the field validators and of [validate] is a
    ValueError, which it wraps. *)
Theorem parse_config_raises_only_IOError raw e :
  parse_config env raw = Raise e -> exists msg, e = IOError msg.
Proof.
  unfold parse_config.
  destruct (Config_parse_obj env raw) as [config|e'] eqn:Hparse; simpl.
  - destruct (validate env config) as [[]|e''] eqn:Hvalid; simpl; [done|].
    destruct (validate_Raise_ValueError _ _ _ Hparse Hvalid) as [msg ->].
    intros [= <-]. eauto.
  - destruct (Config_parse_obj_Raise _ _ Hparse) as [msg ->].
    intros [= <-]. eauto.
Qed.

Lemma parse_config_Ok raw config :
  parse_config env raw = Ok config ->
  Config_parse_obj env raw = Ok config /\ validate env config = Ok tt.
Proof.
  unfold parse_config.
  destruct (Config_parse_obj env raw) as [config'|e'] eqn:Hparse; simpl.
  - destruct (validate env config') as [[]|e''] eqn:Hvalid; simpl.
    + by intros [= <-].
    + by destruct e''.
  - by destruct e'.
Qed.

(** What [parse_config] returns is a configuration with at least one
    server, in which every server has a URL that [check_base_url]
    accepts, an SSL configuration when its scheme is [https], and a
    certificate in every SSL configuration; every response has a
    status from 100 to 599, and every encoding named for the log is
    one the codecs know. *)
Theorem parse_config_Ok_inv raw config :
  parse_config env raw = Ok config ->
  servers config <> [] /\
  (forall s, s ∈ servers config ->
     check_base_url (base_url s) = Ok (base_url s) /\
     (schema s = Ok (Some HTTPS) -> ssl_config s <> None) /\
     (forall c, ssl_config s = Some c -> certfile c <> None \/ ca_certs c <> None)) /\
  (forall k r, responses config !! k = Some r ->
     100 <= status r <= 599 /\
     forall encoding, body_encoding (request_log_config r) = Some encoding ->
       is_Some (str_encode (env_codecs env) encoding [])) /\
  (forall encoding,
     body_encoding (global_request_log_config config) = Some encoding ->
     is_Some (str_encode (env_codecs env) encoding [])).
Proof.
  intros [Hparse Hvalid]%parse_config_Ok.
  pose proof (Config_parse_obj_Ok _ _ Hparse)
    as (Hne & Hservers & _ & _ & Hresponses & Hlog).
  split; [done|]. split; [|split].
  - intros s Hs. pose proof (parsed_servers _ _ _ Hparse Hs) as Hurl.
    split; [done|]. unfold validate in Hvalid.
    destruct (for_each _ _) as [[]|e] eqn:Hprotocol; [|done].
    apply for_each_Ok in Hprotocol.
    apply (proj1 (Forall_forall _ _) Hprotocol) in Hs as Hp.
    unfold validate_protocol_configured in Hp.
    destruct (schema s) as [k|e] eqn:Hk; simpl in Hp; [|done].
    split.
    + intros [= ->] Hnone. rewrite Hnone in Hp.
      by rewrite !bool_decide_eq_true_2 in Hp by done.
    + intros c Hc. rewrite Hc in Hp.
      rewrite (bool_decide_eq_false_2 (Some c = None)), andb_false_r in Hp by done.
      unfold SslConfig_validate_config in Hp.
      destruct (certfile c), (ca_certs c); simpl in Hp; try done; eauto.
  - intros k r Hk. specialize (Hresponses k r Hk).
    unfold ResponseConfig_parse_obj in Hresponses.
    destruct (negb _) eqn:Hstatus; [done|].
    apply negb_false_iff, andb_true_iff in Hstatus as [?%Z.leb_le ?%Z.leb_le].
    split; [lia|].
    destruct (RequestLogConfig_parse_obj _ _) as [c|] eqn:Hc; [|done].
    destruct (RequestLogConfig_parse_obj_Ok _ _ Hc) as [-> Henc]. done.
  - by apply RequestLogConfig_parse_obj_Ok in Hlog as [_ ?].
Qed.

End Parsed.

(** ** From a parsed configuration to its applications *)

Section Applications.

Context (env : Env).

Lemma last_with_identity_Some k servers s :
  last_with_identity k servers = Some s -> s ∈ servers /\ identity s = Ok k.
Proof.
  induction servers as [|s0 servers IH]; simpl; [done|].
  destruct (last_with_identity k servers) as [s'|].
  - intros [= <-]. destruct (IH eq_refl) as [Hin Hid].
    split; [by apply list_elem_of_further|done].
  - case_bool_decide as Hid; [|done]. intros [= <-].
    split; [apply list_elem_of_here|done].
Qed.

Lemma last_with_identity_is_Some k servers s :
  s ∈ servers -> identity s = Ok k -> is_Some (last_with_identity k servers).
Proof.
  intros Hin Hid. induction servers as [|s0 servers IH]; simpl;
    [by apply elem_of_nil in Hin|].
  apply elem_of_cons in Hin as [->|Hin].
  - destruct (last_with_identity k servers); [done|].
    by rewrite bool_decide_eq_true_2.
  - destruct (IH Hin) as [s' ->]. done.
Qed.

(** What [create_processes] returns: one application per server, in
    the order of the servers, each with the route stored under the
    identity of its server and the response its server names as the
    default. *)
Lemma create_processes_spec config endpoints servers apps :
  create_processes config endpoints servers = Ok apps ->
  snd <$> apps = servers /\
  forall app s, (app, s) ∈ apps ->
    app_server app = s /\
    responses config !! default_response_id s = Some (app_default_response app) /\
    exists k, identity s = Ok k /\ dict_get endpoints k = Some (app_route app).
Proof.
  revert apps. induction servers as [|s servers IH]; intros apps; simpl.
  - intros [= <-]. split; [done|]. by intros app s ?%elem_of_nil.
  - destruct (identity s) as [k|e] eqn:Hk; simpl; [|done].
    unfold getitem.
    destruct (responses config !! default_response_id s) as [d|] eqn:Hd; simpl;
      [|done].
    destruct (dict_get endpoints k) as [route|] eqn:Hroute; [|done].
    destruct (create_processes config endpoints servers) as [rest|e] eqn:Hrest;
      simpl; [|done].
    intros [= <-]. destruct (IH rest eq_refl) as [Hsnd Hrest'].
    split; [by rewrite fmap_cons, Hsnd|].
    intros app s' [[= -> ->]|Hin]%elem_of_cons; [|by apply Hrest'].
    simpl. split; [done|]. split; [done|]. eauto.
Qed.

Lemma getitems_Ok {V} (d : gmap string V) ids :
  Forall (fun id => id ∈ dom d) ids ->
  exists values, map_result (getitem d) ids = Ok values.
Proof.
  induction 1 as [|id ids [v Hv]%elem_of_dom _ [values IH]]; cbn [map_result];
    [eauto|].
  rewrite IH. unfold getitem. rewrite Hv. simpl. eauto.
Qed.

Lemma servers_requests_of_Ok config servers acc :
  set_iter_sound env ->
  Forall (fun s => is_ok (identity s) = true /\
                   forall id, id ∈ requests_ids s -> id ∈ dom (requests config))
         servers ->
  exists d, servers_requests_of env config servers acc = Ok d.
Proof.
  intros Hiter Hservers. revert acc.
  induction Hservers as [|s servers [Hid Hids] _ IH]; intros acc; simpl; [eauto|].
  destruct (identity s) as [k|]; [|done]. simpl.
  destruct (getitems_Ok (requests config) (set_iter env (requests_ids s)))
    as [rules ->].
  { apply Forall_forall. intros id Hid'. apply Hids.
    rewrite (Hiter (requests_ids s)) in Hid'. by apply elem_of_elements. }
  simpl. apply IH.
Qed.

Lemma server_routes_of_Ok config sr servers acc :
  Forall (fun s => exists k, identity s = Ok k /\ is_Some (dict_get sr k)) servers ->
  exists routes, server_routes_of config sr servers acc = Ok routes.
Proof.
  intros Hservers. revert acc.
  induction Hservers as [|s servers (k & Hk & [rules Hrules]) _ IH]; intros acc;
    simpl; [eauto|].
  rewrite Hk. simpl. rewrite Hrules. apply IH.
Qed.

Lemma create_processes_Ok config endpoints servers :
  Forall (fun s => (exists k, identity s = Ok k /\ is_Some (dict_get endpoints k)) /\
                   default_response_id s ∈ dom (responses config)) servers ->
  exists apps, create_processes config endpoints servers = Ok apps.
Proof.
  induction 1 as [|s servers [(k & Hk & [route Hroute]) [d Hd]%elem_of_dom] _
                    [apps IH]]; simpl; [eauto|].
  rewrite Hk. simpl. unfold getitem. rewrite Hd. simpl. rewrite Hroute, IH.
  simpl. eauto.
Qed.

(** The processes of a parsed configuration can be described as soon
    as every server has an identity, that is a URL with a port: one
    application per server, in the order of the servers. *)
Theorem processes_of_a_parsed_configuration raw config :
  set_iter_sound env ->
  parse_config env raw = Ok config ->
  Forall (fun s => is_ok (identity s) = true) (servers config) ->
  exists apps,
    get_server_processes env config = Ok apps /\ snd <$> apps = servers config.
Proof.
  intros Hiter [Hparse Hvalid]%parse_config_Ok Hids.
  apply validate_Ok in Hvalid as (Hreq & Hdef & _).
  unfold get_server_processes, create_server_routes.
  destruct (servers_requests_of_Ok config (servers config) [] Hiter) as [sr Hsr].
  { apply Forall_forall. intros s Hs. split.
    - by apply (proj1 (Forall_forall _ _) Hids).
    - intros id. by apply Hreq. }
  rewrite Hsr. simpl.
  destruct (server_routes_of_Ok config sr (servers config) []) as [routes Hroutes].
  { apply Forall_forall. intros s Hs.
    generalize (proj1 (Forall_forall _ _) Hids s Hs).
    destruct (identity s) as [k|] eqn:Hk; [intros _|done]. exists k. split; [done|].
    pose proof (servers_requests_of_spec env _ _ _ _ k Hsr) as Hspec.
    destruct (last_with_identity_is_Some k _ s Hs Hk) as [s' Hlast].
    rewrite Hlast in Hspec. destruct Hspec as (rules & _ & ->). done. }
  rewrite Hroutes. simpl.
  destruct (create_processes_Ok config routes (servers config)) as [apps Happs].
  { apply Forall_forall. intros s Hs. split; [|by apply Hdef].
    generalize (proj1 (Forall_forall _ _) Hids s Hs).
    destruct (identity s) as [k|] eqn:Hk; [intros _|done]. exists k. split; [done|].
    pose proof (server_routes_of_spec _ _ _ _ _ k Hroutes) as Hspec.
    destruct (last_with_identity_is_Some k _ s Hs Hk) as [s' Hlast].
    rewrite Hlast in Hspec. destruct Hspec as (rules & _ & ->). done. }
  exists apps. split; [done|]. by apply create_processes_spec in Happs as [? _].
Qed.

Lemma request_processor_outcome {R}
    (handler : Request -> option RequestConfig -> ResponseConfig -> ServerConfig -> R)
    rules sc responses request :
  is_ok (base_mapping sc) = true ->
  Forall (fun r => response_id r ∈ dom responses) rules ->
  (exists before r after response,
      rules = before ++ r :: after /\
      Forall (fun r' => is_request_fit env request r' sc = Ok false) before /\
      is_request_fit env request r sc = Ok true /\
      responses !! response_id r = Some response /\
      request_processor env handler rules sc responses request
      = Ok (handler request (Some r) response sc)) \/
  (Forall (fun r' => is_request_fit env request r' sc = Ok false) rules /\
   exists detail, request_processor env handler rules sc responses request
                  = Raise (HTTPException 400 detail)).
Proof.
  intros Hbase.
  assert (Hfit : forall r, exists b, is_request_fit env request r sc = Ok b).
  { intros r. unfold is_request_fit.
    destruct (negb (bool_decide (req_method request = _))); [eauto|].
    destruct (base_mapping sc) as [base|]; [|done]. simpl.
    destruct (negb (bool_decide (req_path request = _))); [eauto|].
    destruct (match parameters r with Some _ => _ | None => _ end); [eauto|].
    destruct (match body r with Some _ => _ | None => _ end); eauto. }
  induction 1 as [|r rules [response Hr]%elem_of_dom _ IH];
    cbn [request_processor]; [right; eauto|].
  destruct (Hfit r) as [[] Hb]; rewrite Hb.
  - left. exists [], r, rules, response. rewrite Hr. by repeat split.
  - destruct IH as [(before & r' & after & response' & -> & Hbefore & Hr' & Hresp & ->)
                   |[Hnone [detail ->]]].
    + left. exists (r :: before), r', after, response'.
      repeat split; [by constructor|done..].
    + right. split; [by constructor|eauto].
Qed.

(** Every application of a parsed configuration dispatches every
    request: no lookup fails and no predicate raises on the way.  The
    rules it tries are those of the last server declared with the
    identity of its own server, in the iteration order of that
    server's [requests_ids]; it calls the response function on the
    first rule that fits, with the response of that rule and that
    server, or, when no rule fits, with no rule, the default response
    of its own server and its own server.  What the response function
    then makes of them, an exception of its own included, is a value
    of [R]. *)
Theorem every_request_is_dispatched {R}
    (handler : Request -> option RequestConfig -> ResponseConfig -> ServerConfig -> R)
    raw config apps app s request :
  parse_config env raw = Ok config ->
  get_server_processes env config = Ok apps ->
  (app, s) ∈ apps ->
  exists k s_last rules,
    identity s = Ok k /\
    last_with_identity k (servers config) = Some s_last /\
    map_result (getitem (requests config)) (set_iter env (requests_ids s_last))
    = Ok rules /\
    ((exists before r after response,
         rules = before ++ r :: after /\
         Forall (fun r' => is_request_fit env request r' s_last = Ok false) before /\
         is_request_fit env request r s_last = Ok true /\
         responses config !! response_id r = Some response /\
         Starlette_call env handler app request
         = Ok (handler request (Some r) response s_last)) \/
     (Forall (fun r' => is_request_fit env request r' s_last = Ok false) rules /\
      exists response,
        responses config !! default_response_id s = Some response /\
        Starlette_call env handler app request
        = Ok (handler request None response s))).
Proof.
  intros [Hparse Hvalid]%parse_config_Ok Happs Hin.
  apply validate_Ok in Hvalid as (_ & _ & Hresp).
  unfold get_server_processes in Happs.
  destruct (create_server_routes env config) as [routes|] eqn:Hroutes; [|done].
  simpl in Happs.
  apply create_processes_spec in Happs as [_ Happs].
  destruct (Happs app s Hin) as (Hserver & Hdefault & k & Hk & Hroute).
  destruct (create_server_routes_spec env _ _ _ _ Hroutes Hroute)
    as (Hlast & Hrules & Hresponses).
  exists k, (route_server (app_route app)), (route_requests (app_route app)).
  split; [done|]. split; [done|]. split; [done|].
  apply last_with_identity_Some in Hlast as [Hmember _].
  unfold Starlette_call. rewrite Hresponses.
  destruct (request_processor_outcome handler (route_requests (app_route app))
              (route_server (app_route app)) (responses config) request)
    as [(before & r & after & response & Hsplit & Hbefore & Hr & Hresponse & ->)
       |[Hnone [detail ->]]].
  - pose proof (parsed_servers env _ _ _ Hparse Hmember) as Hurl.
    by apply accepted_url_derived in Hurl as (_ & _ & [mapping ->]).
  - apply map_result_Forall2 in Hrules. apply Forall_forall. intros r Hr.
    apply list_elem_of_lookup in Hr as [i Hi].
    destruct (Forall2_lookup_r _ _ _ _ _ Hrules Hi) as (id & _ & Hid).
    unfold getitem in Hid.
    destruct (requests config !! id) as [r'|] eqn:Hget; [|done].
    injection Hid as ->. by eapply Hresp.
  - left. exists before, r, after, response. by repeat split.
  - right. split; [done|]. exists (app_default_response app).
    split; [done|]. unfold exception_handler. by rewrite Hserver.
Qed.

End Applications.

(** ** The order of the rules, application by application *)

Section RuleOrderOfApplications.

Context (env : Env).


End RuleOrderOfApplications.


(** ** What [terminate_all] does to the table *)

Section Terminate.

Lemma sigterm_idemp p : sigterm (sigterm p) = sigterm p.
Proof. unfold sigterm. by destruct p as [a s [] d]. Qed.

Lemma sigterm_not_alive p : is_alive p = false -> sigterm p = p.
Proof. unfold sigterm, is_alive. by destruct (proc_state p). Qed.

Lemma terminate_table pid s : table (terminate pid s) = alter sigterm pid (table s).
Proof. done. Qed.

Lemma terminate_loop_table pids s :
  table (fold_left (fun s pid => if pid_is_alive (table s) pid
                                 then terminate pid s else s) pids s)
  = sigterm_all pids (table s).
Proof.
  revert s. induction pids as [|pid pids IH]; intros s; simpl.
  - unfold sigterm_all. apply list_eq. intros i.
    rewrite list_lookup_imap. by destruct (table s !! i).
  - rewrite IH.
    assert (Hstep : table (if pid_is_alive (table s) pid then terminate pid s else s)
                    = alter sigterm pid (table s)).
    { unfold pid_is_alive. destruct (table s !! pid) as [p|] eqn:Hp.
      - destruct (is_alive p) eqn:Halive; [done|].
        apply list_eq. intros i. destruct (decide (i = pid)) as [->|Hne].
        + rewrite list_lookup_alter_eq, Hp. simpl. f_equal. symmetry.
          by apply sigterm_not_alive.
        + by rewrite list_lookup_alter_ne.
      - apply list_eq. intros i. destruct (decide (i = pid)) as [->|Hne].
        + by rewrite list_lookup_alter_eq, Hp.
        + by rewrite list_lookup_alter_ne. }
    rewrite Hstep. unfold sigterm_all. apply list_eq. intros i.
    rewrite !list_lookup_imap. destruct (decide (i = pid)) as [->|Hne].
    + rewrite list_lookup_alter_eq. destruct (table s !! pid) as [p|]; [|done]. simpl.
      rewrite (bool_decide_eq_true_2 (pid ∈ pid :: pids)) by apply list_elem_of_here.
      case_bool_decide; by rewrite ?sigterm_idemp.
    + rewrite list_lookup_alter_ne by done.
      destruct (table s !! i) as [p|]; [|done]. simpl.
      destruct (decide (i ∈ pids)) as [Hin|Hnotin].
      * rewrite !bool_decide_eq_true_2; [done|by apply list_elem_of_further|done].
      * rewrite !bool_decide_eq_false_2; [done| |done].
        by intros [?|?]%elem_of_cons.
Qed.

Lemma terminate_all_table c s :
  table (terminate_all c s) = sigterm_all (processes c) (table s).
Proof.
  unfold terminate_all. destruct (is_running c s) eqn:Hrun.
  - apply terminate_loop_table.
  - unfold sigterm_all. apply list_eq. intros i. rewrite list_lookup_imap.
    destruct (table s !! i) as [p|] eqn:Hp; [|done]. simpl.
    case_bool_decide as Hin; [|done]. rewrite sigterm_not_alive; [done|].
    unfold is_running in Hrun.
    destruct (is_alive p) eqn:Halive; [|done].
    assert (existsb (pid_is_alive (table s)) (processes c) = true); [|congruence].
    apply existsb_exists. exists i. split; [by apply list_elem_of_In|].
    unfold pid_is_alive. by rewrite Hp.
Qed.

(** [terminate_all] calls [terminate()] on the running processes the
    controller holds and on no other: each of them is on its way out
    afterwards, every other process of the table is as it was; and a
    second [terminate_all] changes nothing more. *)
Theorem terminate_all_signals_its_own_processes c s :
  table (terminate_all c s) = sigterm_all (processes c) (table s) /\
  table (terminate_all c (terminate_all c s)) = table (terminate_all c s).
Proof.
  split; [apply terminate_all_table|].
  rewrite !terminate_all_table. unfold sigterm_all.
  apply list_eq. intros i. rewrite !list_lookup_imap.
  destruct (table s !! i) as [p|]; [|done]. simpl.
  case_bool_decide; by rewrite ?sigterm_idemp.
Qed.

End Terminate.

(** ** The listeners at the end of [main] *)

Section Cleanup.

Context (h : Host).

Lemma supervised_quiet c s s' :
  supervised c s -> quiet (table s) (table s') -> supervised c s'.
Proof. intros Hsup [_ Hquiet] pid Halive. by apply Hsup, Hquiet. Qed.

(** Processes built on a table with no live process and then started,
    all or some, are the only ones that can be alive. *)
Lemma built_supervised apps s2 pids s3 r s4 :
  all_stopped (table s2) ->
  construct_all h apps s2 = (pids, s3) ->
  start_each pids s3 = (r, s4) ->
  supervised {| processes := pids |} s4.
Proof.
  intros Hstopped Hbuild Hstart. set (n0 := length (table s2)).
  destruct (construct_all_spec _ _ _ _ _ n0 Hbuild) as (-> & Hlen3 & Hsteps3 & _);
    [done|].
  assert (Hpids : Forall (fun pid => n0 <= pid)%nat (seq n0 (length apps))).
  { apply Forall_forall. intros pid Hin%elem_of_seq. lia. }
  destruct (start_each_steps _ _ _ _ n0 Hstart Hpids) as [Hsteps4 Hlen4].
  pose proof (steps_trans _ (frozen_trans n0) _ _ _ Hsteps3 Hsteps4) as [Hfrozen _].
  intros pid Halive. simpl. apply elem_of_seq. fold n0.
  destruct (decide (pid < n0)%nat) as [Hlt|Hge].
  - by rewrite (frozen_stopped n0 (table s2) (table s4) pid) in Halive.
  - split; [lia|]. unfold pid_is_alive in Halive.
    destruct (table s4 !! pid) eqn:Hlookup; [|done].
    apply lookup_lt_Some in Hlookup. lia.
Qed.

(** However a reload ends, the controller that [main] holds
    afterwards holds every live process. *)
Lemma apply_changes_supervised env now fuel c st st' e :
  controller st = Some c -> supervised c (sys st) ->
  apply_changes h env now fuel c st = (st', e) ->
  exists c', controller st' = Some c' /\ supervised c' (sys st').
Proof.
  intros Hc Hsup. unfold apply_changes.
  destruct (load_config h env now _) as [parsed st1] eqn:Hload.
  apply load_config_sys in Hload as [Hsys1 Hc1]. simpl in Hsys1, Hc1.
  assert (Hnext : forall (config : option Config) (st1 : State),
    sys st1 = sys st -> controller st1 = Some c ->
    forall st' e,
    (let st := controller_terminate_all c st1 in
     match wait_until_stopped fuel c (sys st) with
     | None => (st, Hangs)
     | Some s =>
         let st := with_sys s st in
         match config with
         | None => (st, Raised AttributeError)
         | Some config =>
             let st := with_log_config config st in
             match get_server_processes env config with
             | Raise e => (st, Raised e)
             | Ok apps =>
                 let '(pids, s) := construct_all h apps (sys st) in
                 let infos := set_processes_info c s in
                 let '(c, s) := set_processes pids c s in
                 let st := logged_infos infos (with_controller c (with_sys s st)) in
                 match start_all c s with
                 | (Ok _, s) => (with_sys s st, Returned)
                 | (Raise e, s) => (with_sys s st, Raised e)
                 end
             end
         end
     end) = (st', e) ->
    exists c', controller st' = Some c' /\ supervised c' (sys st')).
  { clear st1 Hsys1 Hc1 parsed. intros config st1 Hsys1 Hc1 st'' e'. simpl.
    rewrite Hsys1.
    pose proof (terminate_all_steps c (sys st)) as Hterm.
    destruct (wait_until_stopped fuel c (terminate_all c (sys st))) as [s2|] eqn:Hwait.
    - pose proof (stop_spec _ _ _ _ Hsup Hwait) as [Hstopped _].
      assert (Hsup2 : supervised c s2).
      { intros pid Halive. by rewrite Hstopped in Halive. }
      destruct config as [config|]; [|intros [= <- <-]; eauto].
      destruct (get_server_processes env config) as [apps|e0];
        [|intros [= <- <-]; simpl; eauto].
      simpl. destruct (construct_all h apps s2) as [pids s3] eqn:Hbuild.
      destruct (construct_all_spec _ _ _ _ _ 0%nat Hbuild) as (_ & _ & _ & Hall3);
        [lia|].
      rewrite (all_stopped_not_running c s3 (Hall3 Hstopped)).
      unfold start_all. simpl.
      destruct (start_each pids s3) as [r s4] eqn:Hstart.
      pose proof (built_supervised _ _ _ _ _ _ Hstopped Hbuild Hstart) as Hsup4.
      destruct r; intros [= <- <-]; simpl; eauto.
    - intros [= <- <-]. simpl. exists c. split; [done|]. rewrite Hsys1.
      eapply supervised_quiet; [done|apply Hterm]. }
  assert (Hc1' : controller st1 = Some c) by congruence.
  destruct parsed as [config|e0].
  - intros Happly. by apply (Hnext (Some config) st1 Hsys1 Hc1' _ _ Happly).
  - destruct e0;
      try (intros [= <- <-]; exists c; split; [done|by rewrite Hsys1]).
    intros Happly.
    by apply (Hnext None (logged WARNING (get_exception_error (IOError msg)) st1)
                Hsys1 Hc1' _ _ Happly).
Qed.

Lemma main_loop_supervised fuel ticks c st st' e :
  controller st = Some c -> supervised c (sys st) ->
  main_loop h fuel ticks c st = (st', e) ->
  exists c', controller st' = Some c' /\ supervised c' (sys st').
Proof.
  revert c st. induction ticks as [|tick ticks IH]; intros c st Hc Hsup; simpl.
  - destruct (is_running c (sys st)); intros [= <- <-]; eauto.
  - destruct (is_running c (sys st)); [|intros [= <- <-]; eauto].
    destruct (do_load _ _ _ _) as [[[]|e0] loader]; [|intros [= <- <-]; eauto].
    destruct (is_changed loader).
    + destruct (apply_changes _ _ _ _ _ _) as [st1 e1] eqn:Happly.
      apply apply_changes_supervised in Happly as (c1 & Hc1 & Hsup1); [|done..].
      destruct e1; try (intros [= <- <-]; eauto).
      rewrite Hc1. by apply IH.
    + by apply IH.
Qed.

Lemma startup_settled env now args_c st e :
  startup h env now args_c = (st, e) ->
  match controller st with
  | Some c => supervised c (sys st)
  | None => table (sys st) = []
  end.
Proof.
  unfold startup.
  destruct (load_config _ _ _ _) as [[config|e0] st0] eqn:Hload;
    apply load_config_sys in Hload as [Hsys Hc]; simpl in Hsys, Hc.
  - destruct (get_server_processes env config) as [apps|e1].
    + simpl. rewrite Hsys.
      destruct (construct_all h apps Sys_empty) as [pids s1] eqn:Hbuild.
      destruct (construct_all_spec _ _ _ _ _ 0%nat Hbuild) as (_ & _ & _ & Hall);
        [simpl; lia|].
      unfold ProcessesController_new, set_processes. simpl.
      unfold start_all. simpl.
      destruct (start_each pids s1) as [r s2] eqn:Hstart.
      assert (Hsup : supervised {| processes := pids |} s2).
      { by eapply (built_supervised apps Sys_empty). }
      destruct r; intros [= <- <-]; done.
    + intros [= <- <-]. simpl. by rewrite Hc, Hsys.
  - intros [= <- <-]. by rewrite Hc, Hsys.
Qed.

(** When [main] ends, by its return or by an exception, no process is
    left running without a SIGTERM sent to it: every process of the
    table was never started, is on its way out or is gone. *)
Theorem main_leaves_no_listener_running env now args_c fuel ticks st e :
  main h env now args_c fuel ticks = (st, e) ->
  e <> Hangs -> e <> StillRunning ->
  Forall (fun p => proc_state p <> Alive) (table (sys st)).
Proof.
  assert (Hend : forall st2,
    match controller st2 with
    | Some c => supervised c (sys st2)
    | None => table (sys st2) = []
    end ->
    Forall (fun p => proc_state p <> Alive)
      (table (sys match controller st2 with
                  | Some c => controller_terminate_all c st2
                  | None => st2
                  end))).
  { intros st2. destruct (controller st2) as [c|]; [|by intros ->].
    intros Hsup. simpl. apply Forall_forall. intros p Hp Halive.
    apply list_elem_of_lookup in Hp as [pid Hpid].
    apply (terminate_all_signalled c (sys st2) pid p); [|done..].
    apply (supervised_quiet c _ (terminate_all c (sys st2)) Hsup).
    - apply terminate_all_steps.
    - unfold pid_is_alive, is_alive. by rewrite Hpid, Halive. }
  unfold main.
  destruct (startup h env now args_c) as [st0 e0] eqn:Hstart.
  apply startup_settled in Hstart.
  destruct e0.
  - destruct (controller st0) as [c|] eqn:Hc.
    + destruct (main_loop h fuel ticks c st0) as [st1 e1] eqn:Hloop.
      apply main_loop_supervised in Hloop as (c' & Hc' & Hsup'); [|done..].
      destruct e1; intros [= <- <-] Hhangs Hstill; try done.
      * apply Hend. by rewrite Hc'.
      * apply (Hend (logged CRITICAL (get_exception_error e0) st1)).
        simpl. by rewrite Hc'.
    + intros [= <- <-] _ _.
      apply (Hend (logged CRITICAL (get_exception_error AttributeError) st0)).
      simpl. by rewrite Hc.
  - intros [= <- <-] _ _.
    by apply (Hend (logged CRITICAL (get_exception_error e0) st0)).
  - by intros [= <- <-].
  - by intros [= <- <-].
Qed.

End Cleanup.

Section Shaped.

Lemma separator_free_shaped p :
  shaped p ->
  separator_free (up_host p +:+ port_text (up_port p) +:+ path_text (up_path p)).
Proof.
  intros (_ & _ & Hhost & Hport & Hpath).
  apply separator_free_app.
  - by apply (all_chars_impl is_word_or_dot), Hhost; apply word_or_dot_not_colon.
  - destruct (up_port p) as [d|].
    + destruct Hport as (Hne & _ & Hd).
      by apply separator_free_port, separator_free_path.
    + rewrite append_nil. by apply separator_free_path.
Qed.

(** The pattern matches every URL of the right form, whatever its
    scheme and the number of its port. *)
Lemma shaped_match p :
  shaped p -> re_match get_base_url_pattern (assemble p) = Some (groups_of p).
Proof.
  intros Hshaped. pose proof Hshaped as (Hscheme & Hne & Hhost & Hport & Hpath).
  set (k0 := fun (_ : string) (g : groups) => Some g).
  assert (E5 : forall input g,
    rmatch input (Cat re_path Eol) (path_text (up_path p)) g k0
    = Some (<[6%nat := path_text (up_path p)]> (after_segments (up_path p) g))).
  { intros input g. rewrite rmatch_Cat. by rewrite rmatch_re_path. }
  assert (E4 : forall input g,
    rmatch input (Cat re_port (Cat re_path Eol))
      (port_text (up_port p) +:+ path_text (up_path p)) g k0
    = Some (<[6%nat := path_text (up_path p)]>
              (after_segments (up_path p) (after_port (up_port p) g)))).
  { intros input g. rewrite rmatch_Cat.
    rewrite rmatch_re_port; rewrite ?E5; try done.
    - by apply not_starting_path.
    - by apply not_starting_path. }
  assert (E3 : forall input g,
    rmatch input (Cat re_host (Cat re_port (Cat re_path Eol)))
      (up_host p +:+ port_text (up_port p) +:+ path_text (up_path p)) g k0
    = Some (<[6%nat := path_text (up_path p)]>
              (after_segments (up_path p)
                 (after_port (up_port p) (<[3%nat := up_host p]> g))))).
  { intros input g. rewrite rmatch_Cat.
    rewrite rmatch_re_host; rewrite ?E4; try done.
    by apply not_starting_port_path. }
  unfold re_match, get_base_url_pattern.
  rewrite rmatch_Cat, rmatch_Bol by done. rewrite rmatch_Cat.
  unfold groups_of, assemble.
  destruct (up_scheme p) as [s|] eqn:Hs.
  - destruct Hscheme as (Hsne & Hword).
    rewrite rmatch_re_scheme_Some; rewrite ?E3; done.
  - unfold scheme_text. rewrite append_nil.
    rewrite rmatch_re_scheme_None; [by rewrite E3|].
    by apply separator_free_shaped.
Qed.

(** A URL of the right form whose scheme is neither [http] nor
    [https], in any case, is turned down for its scheme. *)
Theorem unknown_scheme_is_rejected p s :
  shaped p -> up_scheme p = Some s ->
  Schema_get_key_by_value (str_lower s) = None ->
  check_base_url (assemble p)
  = Raise (ValueError ("Invalid schema value '" +:+ s
                       +:+ "'. Allowed values: 'http', 'https'")).
Proof.
  intros Hshaped Hs Hkey. unfold check_base_url.
  rewrite (shaped_match p Hshaped), groups_of_scheme, Hs, Hkey. done.
Qed.

(** A URL of the right form and with a known scheme whose port is a
    number above 65535 is turned down for its port. *)
Theorem port_out_of_range_is_rejected p d :
  shaped p -> up_port p = Some d ->
  (forall s, up_scheme p = Some s ->
             is_Some (Schema_get_key_by_value (str_lower s))) ->
  65535 < int_of_digits d ->
  check_base_url (assemble p)
  = Raise (ValueError ("Port value '" +:+ d +:+ "' is not from range 0-65535")).
Proof.
  intros Hshaped Hd Hscheme Hport. unfold check_base_url.
  rewrite (shaped_match p Hshaped), groups_of_scheme, groups_of_port, Hd.
  assert (Hrange : (0 <=? int_of_digits d) && (int_of_digits d <=? 65535) = false).
  { apply andb_false_iff. right. apply Z.leb_gt. done. }
  destruct (up_scheme p) as [s|]; simpl.
  - destruct (Hscheme s eq_refl) as [key ->]. simpl. by rewrite Hrange.
  - by rewrite Hrange.
Qed.

End Shaped.

Section UrlCharacters.

Context (input : string).

#[local] Arguments rmatch : simpl never.
#[local] Arguments star_loop : simpl never.

Lemma star_loop_consumes (m : string -> groups -> (string -> groups -> option groups)
                              -> option groups) :
  (forall s g k found, m s g k = Some found ->
     exists w s' g', s = w +:+ s' /\ all_chars url_char w = true /\
                     k s' g' = Some found) ->
  forall fuel s g k found,
    star_loop m k fuel s g = Some found ->
    exists w s' g', s = w +:+ s' /\ all_chars url_char w = true /\
                    k s' g' = Some found.
Proof.
  intros Hm. induction fuel as [|fuel IH]; intros s g k found.
  - cbn [star_loop]. intros Hk. exists "", s, g. by rewrite append_nil.
  - rewrite star_loop_S.
    destruct (m s g _) as [found'|] eqn:Hstep.
    + intros [= ->]. apply Hm in Hstep as (w & s' & g' & -> & Hw & Hk).
      destruct (Nat.ltb _ _); [|done].
      apply IH in Hk as (w' & s'' & g'' & -> & Hw' & Hk).
      exists (w +:+ w'), s'', g''.
      by rewrite append_assoc, all_chars_app, Hw, Hw'.
    + intros Hk. exists "", s, g. by rewrite append_nil.
Qed.

(** What a pattern made of URL characters consumes is made of URL
    characters. *)
Lemma rmatch_consumes r :
  url_regex r ->
  forall s g k found,
    rmatch input r s g k = Some found ->
    exists w s' g', s = w +:+ s' /\ all_chars url_char w = true /\
                    k s' g' = Some found.
Proof.
  induction r as [|c|p|r1 IH1 r2 IH2|r1 IH1|r1 IH1|n r1 IH1| |];
    intros Hr s g k found.
  - intros Hk. exists "", s, g. by rewrite append_nil.
  - destruct s as [|c' s]; [done|]. rewrite rmatch_Chr_cons.
    case_decide as Hc; [|done]. subst c'. intros Hk.
    exists (String c ""), s, g. simpl in Hr. simpl. by rewrite Hr.
  - destruct s as [|c' s]; [done|]. rewrite rmatch_Class_cons.
    destruct (p c') eqn:Hc; [|done]. intros Hk.
    exists (String c' ""), s, g. simpl. by rewrite (Hr c' Hc).
  - destruct Hr as [Hr1 Hr2]. rewrite rmatch_Cat.
    intros (w & s' & g' & -> & Hw & Hk)%(IH1 Hr1).
    apply (IH2 Hr2) in Hk as (w' & s'' & g'' & -> & Hw' & Hk).
    exists (w +:+ w'), s'', g''.
    by rewrite append_assoc, all_chars_app, Hw, Hw'.
  - rewrite rmatch_Opt.
    destruct (rmatch input r1 s g k) as [found'|] eqn:Hstep.
    + intros [= ->]. by apply (IH1 Hr) in Hstep.
    + intros Hk. exists "", s, g. by rewrite append_nil.
  - rewrite rmatch_Star. apply star_loop_consumes.
    intros s0 g0 k0 found0. by apply IH1.
  - rewrite rmatch_Group.
    intros (w & s' & g' & -> & Hw & Hk)%(IH1 Hr). eauto 10.
  - change (rmatch input Bol s g k)
      with (if Nat.eqb (String.length s) (String.length input) then k s g else None).
    destruct (Nat.eqb _ _); [|done].
    intros Hk. exists "", s, g. by rewrite append_nil.
  - change (rmatch input Eol s g k)
      with (if bool_decide (s = "" \/ s = newline) then k s g else None).
    destruct (bool_decide _); [|done].
    intros Hk. exists "", s, g. by rewrite append_nil.
Qed.

End UrlCharacters.

Section AcceptedCharacters.

Lemma url_regex_front :
  url_regex (Cat Bol (Cat re_scheme (Cat re_host (Cat re_port re_path)))).
Proof.
  assert (Hword : forall c, is_word c = true -> url_char c = true).
  { intros c Hc. unfold url_char. by rewrite Hc. }
  assert (Hdigit : forall c, is_digit c = true -> url_char c = true).
  { intros c Hc. apply Hword. unfold is_word. by rewrite Hc. }
  assert (Hdot : forall c, is_word_or_dot c = true -> url_char c = true).
  { intros c [Hc|Hc]%orb_true_iff; unfold url_char; rewrite Hc; [done|].
    by rewrite orb_true_r. }
  simpl. repeat split; done.
Qed.

(** A URL that [check_base_url] accepts is made of word characters,
    dots, colons and slashes, with at most a line feed after them:
    a hyphen, a blank, a question mark or any other character makes
    the URL invalid. *)
Theorem accepted_url_characters url u :
  check_base_url url = Ok u ->
  exists body, (url = body \/ url = body +:+ newline) /\
               all_chars url_char body = true.
Proof.
  intros (_ & m & Hm & _)%check_base_url_Ok_inv.
  unfold re_match, get_base_url_pattern in Hm.
  assert (Hsplit : forall s k,
    rmatch url (Cat Bol (Cat re_scheme (Cat re_host (Cat re_port (Cat re_path Eol)))))
      s ∅ k
    = rmatch url (Cat Bol (Cat re_scheme (Cat re_host (Cat re_port re_path))))
        s ∅ (fun s' g' => rmatch url Eol s' g' k)) by done.
  rewrite Hsplit in Hm.
  apply (rmatch_consumes url _ url_regex_front) in Hm
    as (body & rest & g' & Hurl & Hbody & Hend).
  exists body. split; [|done].
  change (rmatch url Eol rest g' (fun _ g => Some g))
    with (if bool_decide (rest = "" \/ rest = newline) then Some g' else None)
    in Hend.
  case_bool_decide as Hrest; [|done].
  destruct Hrest as [-> | ->]; [left; by rewrite Hurl, append_empty_r|by right].
Qed.

End AcceptedCharacters.

Section LoggedText.

Context (env : Env).

(** The body entry of a log record written with the encoding [utf-8]
    is the text whose UTF-8 encoding is the body of the request, byte
    for byte: the decoder is strict, so nothing is replaced or left
    out on the way to the log. *)
Theorem logged_body_encodes_to_the_request_body now self request request_config
    response_config server_config message to_file to_console body :
  default "utf-8"
    (overridden (body_encoding (log_config self))
                (body_encoding (request_log_config response_config))) = "utf-8" ->
  (log_request env now self request request_config response_config
     server_config).2 = LogWritten message to_file to_console ->
  msg_body message = Some body ->
  utf8_encode body = Some (req_body request).
Proof.
  intros Henc. unfold log_request.
  destruct (truthy_str _ || truthy_bool _); [|done].
  destruct (server_url server_config) as [url|]; [|done].
  destruct (truthy_bool (overridden (body_enabled _) _)); [|by intros [= <- _ _]].
  destruct (truthy_bool (overridden (body_as_file _) _)).
  - destruct (create_body_file_name now self) as [name self'].
    destruct (file_writable env _); [|done]. by intros [= <- _ _].
  - rewrite inline_body_decodes, Henc. unfold bytes_decode.
    rewrite decide_True by done. simpl.
    destruct (utf8_decode (req_body request)) as [t|] eqn:Ht; [|done].
    intros [= <- _ _] [= <-]. by apply utf8_encode_decode_fuel in Ht.
Qed.

End LoggedText.

Section ServerUrl.

(** The [url] entry of a log record, by the parts of the server's
    URL: the scheme in lower case or [http], the host, and the port
    as a number or 80; the path is not part of it. *)
Theorem server_url_by_parts p :
  well_formed p ->
  server_url (server_with_url (assemble p))
  = Ok (match up_scheme p with Some s => str_lower s | None => "http" end
        +:+ "://" +:+ up_host p +:+ ":"
        +:+ str_of_Z (match up_port p with
                      | Some d => int_of_digits d
                      | None => 80
                      end)).
Proof.
  intros Hwf. unfold server_url, schema, host, port, base_url_group. simpl.
  rewrite (base_url_match p Hwf). simpl.
  rewrite groups_of_scheme, groups_of_host, groups_of_port.
  destruct Hwf as (Hscheme & _).
  destruct (up_scheme p) as [s|]; simpl.
  - destruct Hscheme as (_ & _ & [key Hkey]). rewrite Hkey. simpl.
    assert (Schema_value key = str_lower s) as ->.
    { unfold Schema_get_key_by_value in Hkey. simpl in Hkey.
      repeat case_bool_decide; simplify_eq; done. }
    by destruct (up_port p).
  - by destruct (up_port p).
Qed.

End ServerUrl.

Section CarriedHeaders.

(** Every configured header other than the key [content-length] is
    in the header list of the response, its name in lower case, and
    every name of the list is in lower case. *)
Theorem configured_headers_are_carried b h :
  (forall k v, (k, v) ∈ h -> k <> "content-length" ->
     (latin1_encode (str_lower k), latin1_encode v)
       ∈ (init_headers b (Some h)).1) /\
  Forall (fun kv => exists name, kv.1 = latin1_encode name /\ str_lower name = name)
         (init_headers b (Some h)).1.
Proof.
  unfold init_headers. simpl. split.
  - intros k v Hin Hne.
    apply (list_elem_of_fmap_2
             (fun kv : string * string =>
                (latin1_encode (str_lower kv.1), latin1_encode kv.2)) _ (k, v)).
    by apply dict_set_keeps.
  - apply Forall_fmap, Forall_forall. intros [k v] _. simpl.
    exists (str_lower k). split; [done|]. apply str_lower_idemp.
Qed.

End CarriedHeaders.

Section Twins.

Context (env : Env).

(** The application of a server works with the route stored under
    the identity of the server, and that route is the one of the
    last server with that identity: servers that differ in nothing
    but their scheme or their ids all answer by the rules of the one
    declared last. *)
Theorem same_identity_shares_the_last_rules config apps app s k :
  get_server_processes env config = Ok apps ->
  (app, s) ∈ apps ->
  identity s = Ok k ->
  last_with_identity k (servers config) = Some (route_server (app_route app)) /\
  map_result (getitem (requests config))
    (set_iter env (requests_ids (route_server (app_route app))))
  = Ok (route_requests (app_route app)).
Proof.
  intros Happs Hin Hk. unfold get_server_processes in Happs.
  destruct (create_server_routes env config) as [routes|] eqn:Hroutes; [|done].
  simpl in Happs. apply create_processes_spec in Happs as [_ Happs].
  destruct (Happs app s Hin) as (_ & _ & k' & Hk' & Hroute).
  assert (k' = k) as -> by congruence.
  by destruct (create_server_routes_spec env _ _ _ _ Hroutes Hroute) as (? & ? & _).
Qed.

End Twins.

(** ** The hash and the cache of the loader, the ids that are missing *)

Section StoredHash.

Context (sha : bytes -> string).

Lemma perform_hash_of_cache env c self :
  sha256_hexdigest env = sha ->
  file_hash self = sha <$> cached_value self ->
  file_hash (perform env c self) = sha <$> cached_value (perform env c self).
Proof.
  intros Hsha Hinv. destruct c as [now now'| |now]; simpl; [|done|].
  - unfold do_load. destruct (do_load_due now self) as [[]|]; simpl;
      [|exact Hinv..].
    unfold read_file_of. simpl.
    destruct (read_file env (filename self)) as [value|]; simpl; [|done].
    unfold calculate_hash. rewrite Hsha.
    case_bool_decide as Hsame; simpl; first [done|by rewrite <- Hsame].
  - unfold get_file_value. destruct (cached_value self) eqn:Hcache.
    + simpl. by rewrite Hinv, Hcache.
    + unfold read_file_of. simpl.
      destruct (read_file env (filename self)) as [value|]; simpl.
      * unfold calculate_hash. by rewrite Hsha.
      * by rewrite Hinv, Hcache.
Qed.

(** The hash a loader stores is the hash of the bytes it caches,
    after any series of calls: what [get_file_value] hands to the
    parser is what the dirty flag was decided on. *)
Theorem stored_hash_is_that_of_the_cache calls name :
  Forall (fun ec : Env * loader_call => sha256_hexdigest ec.1 = sha) calls ->
  file_hash (run_calls calls (ConfigFileLoader_new name))
  = sha <$> cached_value (run_calls calls (ConfigFileLoader_new name)).
Proof.
  intros Hcalls.
  assert (Hgen : forall self,
    file_hash self = sha <$> cached_value self ->
    file_hash (run_calls calls self) = sha <$> cached_value (run_calls calls self)).
  { induction Hcalls as [|[env c] calls Hsha _ IH]; intros self Hinv; [done|].
    apply IH. by apply perform_hash_of_cache. }
  by apply Hgen.
Qed.

End StoredHash.

Section MissingIds.

Context (env : Env).

(** When a server lists request ids that are not described,
    validation raises the ValueError that names them: the ids some
    server lists and [requests] does not have, all of them and no
    other, in the order in which the set hands them out.  Missing
    responses are reported only when no request is missing. *)
Theorem missing_requests_are_named config s0 id0 :
  s0 ∈ servers config -> id0 ∈ requests_ids s0 ->
  id0 ∉ dom (requests config) ->
  exists missing : gset string,
    validate_request_response_ids env config
    = Raise (ValueError ("Not described requests: "
                         +:+ str_join ", " (set_iter env missing))) /\
    forall id, id ∈ missing <->
      (id ∉ dom (requests config)) /\
      exists s, s ∈ servers config /\ id ∈ requests_ids s.
Proof.
  intros Hs0 Hid0 Hmissing. unfold validate_request_response_ids.
  destruct (fold_left _ (servers config) _) as [sr rr] eqn:Hfold.
  apply collect_servers in Hfold as [Hsr _].
  exists (sr ∖ dom (requests config)). split.
  - destruct (Nat.eqb (size (sr ∖ dom (requests config))) 0) eqn:Hsize; [|done].
    apply size_zero_subseteq in Hsize. destruct Hmissing.
    apply Hsize, Hsr. right. eauto.
  - intros id. rewrite elem_of_difference, Hsr. split.
    + intros [[Hin|Hin] Hnot]; [set_solver|done].
    + intros [Hnot Hin]. split; [by right|done].
Qed.

End MissingIds.

(** ** The further properties on concrete values *)

Lemma do_load_detects_change_witness :
  exists self',
    do_load env_again 3000000 3000001 (config_loader running0) = (Ok tt, self') /\
    is_changed self' = true /\
    last_read self' = Some 3000001 /\
    file_hash self' = Some (calculate_hash env_again (latin1_encode "two rules, again")) /\
    get_file_value env_garbage 3000002 self'
    = (Ok (latin1_encode "two rules, again"), self').
Proof.
  apply (do_load_detects_change env_again env_garbage 3000000 3000001 3000002
           (config_loader running0) 0 (latin1_encode "two rules, again")).
  - vm_compute. reflexivity.
  - vm_compute. discriminate.
  - vm_compute. reflexivity.
  - vm_compute. discriminate.
Defined.

Lemma body_files_are_distinct_witness :
  body_files env0 calls_twice logger_files
  = [Some ("/var/log/cap/2024-05-01T12:00:00.000001_0", json_body);
     Some ("/var/log/cap/2024-05-01T12:00:00.000001_1", json_body)] /\
  ("/var/log/cap/2024-05-01T12:00:00.000001_0", json_body).1
  <> ("/var/log/cap/2024-05-01T12:00:00.000001_1", json_body).1.
Proof.
  split; [vm_compute; reflexivity|].
  apply (body_files_are_distinct env0 calls_twice logger_files 0 1).
  - repeat constructor.
  - lia.
  - vm_compute. reflexivity.
  - vm_compute. reflexivity.
Defined.

Lemma logged_body_encodes_to_the_request_body_witness :
  utf8_encode (text_of_string "{" ++ [34; 97; 34]%N ++ text_of_string ":1}")
  = Some (req_body request_json).
Proof.
  apply (logged_body_encodes_to_the_request_body env0 "T" logger_auto request_json
           None (respond "" []) (api_server ∅) record_json None true).
  - vm_compute. reflexivity.
  - vm_compute. reflexivity.
  - reflexivity.
Defined.

Lemma main_leaves_no_listener_running_witness :
  Forall (fun p => proc_state p <> Alive) (table (sys failed_run.1)).
Proof.
  apply (main_leaves_no_listener_running host0 env_two_rules 0 "cap.yml" 5
           [tick_garbage] failed_run.1 failed_run.2).
  - unfold failed_run. by destruct (main _ _ _ _ _ _).
  - vm_compute. discriminate.
  - vm_compute. discriminate.
Defined.

Lemma accepted_url_has_schema_and_port_witness :
  (exists s, schema (api_server ∅) = Ok (Some s)) /\
  (exists p, port (api_server ∅) = Ok p /\ 0 <= p <= 65535) /\
  (exists mapping, base_mapping (api_server ∅) = Ok mapping).
Proof.
  apply (accepted_url_has_schema_and_port (api_server ∅)).
  vm_compute. reflexivity.
Defined.

Lemma parse_config_raises_only_IOError_witness :
  exists msg,
    IOError "Config file parsing error: Not described requests: ghost"
    = IOError msg.
Proof.
  apply (parse_config_raises_only_IOError env0 raw_dangling).
  vm_compute. reflexivity.
Defined.

Lemma parse_config_Ok_inv_witness :
  servers config_two_rules <> [] /\
  (forall s, s ∈ servers config_two_rules ->
     check_base_url (base_url s) = Ok (base_url s) /\
     (schema s = Ok (Some HTTPS) -> ssl_config s <> None) /\
     (forall c, ssl_config s = Some c -> certfile c <> None \/ ca_certs c <> None)) /\
  (forall k r, responses config_two_rules !! k = Some r ->
     100 <= status r <= 599 /\
     forall encoding, body_encoding (request_log_config r) = Some encoding ->
       is_Some (str_encode (env_codecs env0) encoding [])) /\
  (forall encoding,
     body_encoding (global_request_log_config config_two_rules) = Some encoding ->
     is_Some (str_encode (env_codecs env0) encoding [])).
Proof.
  apply (parse_config_Ok_inv env0 raw_two_rules config_two_rules).
  vm_compute. reflexivity.
Defined.

Lemma processes_of_a_parsed_configuration_witness :
  exists apps,
    get_server_processes env0 config_two_rules = Ok apps /\
    snd <$> apps = servers config_two_rules.
Proof.
  apply (processes_of_a_parsed_configuration env0 raw_two_rules config_two_rules).
  - intros X. reflexivity.
  - vm_compute. reflexivity.
  - constructor; [vm_compute; reflexivity|constructor].
Defined.

Lemma every_request_is_dispatched_witness :
  exists k s_last rules,
    identity server_two_rules = Ok k /\
    last_with_identity k (servers config_two_rules) = Some s_last /\
    map_result (getitem (requests config_two_rules))
      (set_iter env0 (requests_ids s_last))
    = Ok rules /\
    ((exists before r after response,
         rules = before ++ r :: after /\
         Forall (fun r' => is_request_fit env0 request_other r' s_last = Ok false)
                before /\
         is_request_fit env0 request_other r s_last = Ok true /\
         responses config_two_rules !! response_id r = Some response /\
         Starlette_call env0 selected app_two_rules request_other
         = Ok (selected request_other (Some r) response s_last)) \/
     (Forall (fun r' => is_request_fit env0 request_other r' s_last = Ok false)
             rules /\
      exists response,
        responses config_two_rules !! default_response_id server_two_rules
        = Some response /\
        Starlette_call env0 selected app_two_rules request_other
        = Ok (selected request_other None response server_two_rules))).
Proof.
  apply (every_request_is_dispatched env0 selected raw_two_rules config_two_rules
           [(app_two_rules, server_two_rules)] app_two_rules server_two_rules
           request_other).
  - vm_compute. reflexivity.
  - vm_compute. reflexivity.
  - apply list_elem_of_here.
Defined.

Lemma unknown_scheme_is_rejected_witness :
  check_base_url "ftp://files"
  = Raise (ValueError "Invalid schema value 'ftp'. Allowed values: 'http', 'https'").
Proof.
  apply (unknown_scheme_is_rejected parts_ftp "ftp").
  - repeat split; try done; constructor.
  - reflexivity.
  - vm_compute. reflexivity.
Defined.

Lemma port_out_of_range_is_rejected_witness :
  check_base_url "localhost:70000/api"
  = Raise (ValueError "Port value '70000' is not from range 0-65535").
Proof.
  apply (port_out_of_range_is_rejected parts_high_port "70000").
  - unfold shaped. simpl. split; [done|]. split; [done|]. split; [done|].
    split; [split; [done|split; [lia|done]]|].
    constructor; [by split|constructor].
  - reflexivity.
  - intros s. discriminate.
  - vm_compute. reflexivity.
Defined.

Lemma accepted_url_characters_witness :
  exists body,
    ("http://0.0.0.0:8080/api" = body \/
     "http://0.0.0.0:8080/api" = body +:+ newline) /\
    all_chars url_char body = true.
Proof.
  apply (accepted_url_characters "http://0.0.0.0:8080/api" "http://0.0.0.0:8080/api").
  vm_compute. reflexivity.
Defined.

Lemma server_url_by_parts_witness :
  server_url (server_with_url "localhost/api") = Ok "http://localhost:80".
Proof.
  apply (server_url_by_parts parts_bare).
  repeat split; try done.
  constructor; [|constructor]. by split.
Defined.

Lemma same_identity_shares_the_last_rules_witness :
  last_with_identity "0.0.0.0:8080/api" (servers config_twins)
  = Some (route_server (app_route app_first_only)) /\
  map_result (getitem (requests config_twins))
    (set_iter env0 (requests_ids (route_server (app_route app_first_only))))
  = Ok (route_requests (app_route app_first_only)).
Proof.
  apply (same_identity_shares_the_last_rules env0 config_twins
           [(app_first_only, server_first_only);
            (app_second_only, server_second_only)]
           app_first_only server_first_only "0.0.0.0:8080/api").
  - vm_compute. reflexivity.
  - apply list_elem_of_here.
  - vm_compute. reflexivity.
Defined.

Lemma stored_hash_is_that_of_the_cache_witness :
  file_hash (run_calls [(env_two_rules, GetFileValue 0);
                        (env_again, DoLoad 3000000 3000001)]
               (ConfigFileLoader_new "cap.yml"))
  = bytes_hex <$> cached_value
      (run_calls [(env_two_rules, GetFileValue 0);
                  (env_again, DoLoad 3000000 3000001)]
         (ConfigFileLoader_new "cap.yml")).
Proof.
  apply (stored_hash_is_that_of_the_cache bytes_hex
           [(env_two_rules, GetFileValue 0); (env_again, DoLoad 3000000 3000001)]
           "cap.yml").
  repeat constructor.
Defined.

Lemma missing_requests_are_named_witness :
  exists missing : gset string,
    validate_request_response_ids env0 config_dangling
    = Raise (ValueError ("Not described requests: "
                         +:+ str_join ", " (set_iter env0 missing))) /\
    forall id, id ∈ missing <->
      (id ∉ dom (requests config_dangling)) /\
      exists s, s ∈ servers config_dangling /\ id ∈ requests_ids s.
Proof.
  apply (missing_requests_are_named env0 config_dangling (api_server {["ghost"]})
           "ghost").
  - apply list_elem_of_here.
  - change ("ghost" ∈ ({["ghost"]} : gset string)). by apply elem_of_singleton.
  - simpl. rewrite dom_empty_L. apply not_elem_of_empty.
Defined.
